(** * FileService: a shallow embedding of the virtual file system service

    The development follows [vs/platform/files/common/fileService.ts]:
    the provider registry, the stat resolver, the read and write
    pipelines, the move/copy engine, [mkdirp], the watcher multiplexer
    and the per-resource write queues.

    Conventions.
    - A JavaScript [number] that holds a time stamp, a size, a position,
      a file handle or a bit set is an integer [Z]; bit tests are
      [Z.land].  An optional field ([x?: T], [typeof x === 'number'])
      is an [option].
    - Bytes ([Uint8Array], [VSBuffer]) are [list byte].
    - An [async] method is a computation in the monad [M]: it threads
      the service state and the providers' backing state, and ends by
      returning a value or by throwing.  A method with a loop or a
      recursion that is not structural takes a [fuel] argument and
      yields [None] when the fuel is used up.
    - Helpers imported from [vs/base/common] are not part of the
      sources at hand; they are parameters of the development, grouped
      in the class [Resources], or are modelled and marked as such. *)

From stdpp Require Import gmap strings list.
From Stdlib.Strings Require Import Byte Ascii.

#[local] Set Warnings "-register-all".
Local Open Scope string_scope.
Local Open Scope Z_scope.

Definition bytes := list byte.

(** ** Enumerations and bit sets of [vs/platform/files/common/files] *)

(** Modelled from the spec: the [FileType] enumeration is declared in
    [files.ts], which is missing; the type flags are independent bits. *)
Module FileType.
Definition Unknown : Z := 0.
Definition File : Z := 1.
Definition Directory : Z := 2.
Definition SymbolicLink : Z := 64.
End FileType.

(** Modelled from the spec: the capability bit set of a provider
    ([FileSystemProviderCapabilities] in the missing [files.ts]). *)
Module FileSystemProviderCapabilities.
Definition FileReadWrite : Z := Z.shiftl 1 1.
Definition FileOpenReadWriteClose : Z := Z.shiftl 1 2.
Definition FileFolderCopy : Z := Z.shiftl 1 3.
Definition FileReadStream : Z := Z.shiftl 1 4.
Definition PathCaseSensitive : Z := Z.shiftl 1 10.
Definition Readonly : Z := Z.shiftl 1 11.
Definition Trash : Z := Z.shiftl 1 12.
End FileSystemProviderCapabilities.

Inductive FileOperationResult :=
| FILE_IS_DIRECTORY
| FILE_NOT_FOUND
| FILE_NOT_MODIFIED_SINCE
| FILE_MODIFIED_SINCE
| FILE_MOVE_CONFLICT
| FILE_READ_ONLY
| FILE_PERMISSION_DENIED
| FILE_TOO_LARGE
| FILE_INVALID_PATH
| FILE_EXCEEDS_MEMORY_LIMIT
| FILE_OTHER_ERROR.

Inductive FileSystemProviderErrorCode :=
| FileExists
| FileNotFound
| FileNotADirectory
| FileIsADirectory
| FileExceedsMemoryLimit
| FileTooLarge
| NoPermissions
| Unavailable
| Unknown.

Inductive FileOperation := CREATE | DELETE | MOVE | COPY.

#[global] Instance FileOperationResult_eq_dec : EqDecision FileOperationResult.
Proof. solve_decision. Defined.
#[global] Instance FileSystemProviderErrorCode_eq_dec :
  EqDecision FileSystemProviderErrorCode.
Proof. solve_decision. Defined.
#[global] Instance FileOperation_eq_dec : EqDecision FileOperation.
Proof. solve_decision. Defined.

(** What a [throw] carries.  The first argument of a service error is
    the key of its localized message. *)
Inductive Error :=
| FileOperationError (key : string) (fileOperationResult : FileOperationResult)
| FileSystemProviderError (code : FileSystemProviderErrorCode)
| PlainError (name : string).

#[global] Instance Error_eq_dec : EqDecision Error.
Proof. solve_decision. Defined.

(** Modelled from the spec: [toFileSystemProviderErrorCode] of the
    missing [files.ts]; provider errors are normalized into a provider
    error code, anything else is [Unknown]. *)
Definition toFileSystemProviderErrorCode (e : Error) : FileSystemProviderErrorCode :=
  match e with
  | FileSystemProviderError c => c
  | _ => Unknown
  end.

(** Modelled from the spec: [toFileOperationResult] of the missing
    [files.ts], the lookup that maps a provider error code to the
    taxonomy of operation results; a service error keeps its result. *)
Definition toFileOperationResult (e : Error) : FileOperationResult :=
  match e with
  | FileOperationError _ r => r
  | _ =>
    match toFileSystemProviderErrorCode e with
    | FileNotFound => FILE_NOT_FOUND
    | FileIsADirectory => FILE_IS_DIRECTORY
    | NoPermissions => FILE_PERMISSION_DENIED
    | FileExists => FILE_MOVE_CONFLICT
    | FileExceedsMemoryLimit => FILE_EXCEEDS_MEMORY_LIMIT
    | FileTooLarge => FILE_TOO_LARGE
    | _ => FILE_OTHER_ERROR
    end
  end.

(** ** Resources *)

Record URI := mkURI { scheme : string; authority : string; path : string }.

#[global] Instance URI_eq_dec : EqDecision URI.
Proof. solve_decision. Defined.

(** Modelled from the spec: [URI.toString] of the missing
    [vs/base/common/uri]; resources have the form
    [scheme://authority/path]. *)
Definition toString (u : URI) : string :=
  scheme u +:+ "://" +:+ authority u +:+ path u.

(** The helpers of [vs/base/common/resources], [vs/base/common/labels]
    and [String.prototype.toLowerCase] that the service calls. *)
Class Resources := {
  isAbsolutePath : URI -> bool;
  dirname : URI -> URI;
  basename : URI -> string;
  joinPath : URI -> string -> URI;
  (* isEqual(first, second, ignoreCase?) *)
  isEqual : URI -> URI -> option bool -> bool;
  (* isEqualOrParent(resource, candidate, ignoreCase) *)
  isEqualOrParent : URI -> URI -> bool -> bool;
  getBaseLabel : URI -> string;
  toLowerCase : string -> string
}.

(** ** Stats and options *)

Module IStat.
Record t := mk { type : Z; mtime : option Z; ctime : option Z; size : option Z }.
End IStat.

Module IFileStat.
Inductive t := mk {
    resource : URI;
    name : string;
    isFile : bool;
    isDirectory : bool;
    isSymbolicLink : bool;
    mtime : option Z;
    ctime : option Z;
    size : option Z;
    etag : option string;
    children : option (list t)
  }.
End IFileStat.

Module IWriteFileOptions.
Record t := mk {
    overwrite : option bool;
    create : option bool;
    mtime : option Z;
    etag : option string
  }.
End IWriteFileOptions.

Module IReadFileOptions.
Record limits_t := mkLimits { size : option Z; memory : option Z }.
Record t := mk {
    position : option Z;
    length : option Z;
    etag : option string;
    limits : option limits_t;
    preferUnbuffered : option bool
  }.
End IReadFileOptions.

Module IResolveFileOptions.
Record t := mk {
    resolveTo : option (list URI);
    resolveSingleChildDescendants : option bool;
    resolveMetadata : option bool
  }.
End IResolveFileOptions.

Module IWatchOptions.
Record t := mk { recursive : bool; excludes : list string }.
End IWatchOptions.

Record FileOperationEvent := mkEvent {
  ev_resource : URI;
  ev_operation : FileOperation;
  ev_target : option IFileStat.t
}.

(** ** Providers

    A provider works on a backing state [W]; each of its operations
    returns or throws and leaves a new backing state.  [id] stands for
    the identity of the provider object ([sourceProvider ===
    targetProvider]); [capabilities] is read again at every use. *)

Inductive outcome (A : Type) := Return (a : A) | Throw (e : Error).
Arguments Return {A} a.
Arguments Throw {A} e.

Definition PM (W A : Type) : Type := W -> outcome A * W.

Module IFileSystemProvider.
Record t (W : Type) := mk {
    id : nat;
    capabilities : W -> Z;
    stat : URI -> PM W IStat.t;
    readdir : URI -> PM W (list (string * Z));
    mkdir : URI -> PM W unit;
    (* delete(resource, { recursive, useTrash }) *)
    delete : URI -> bool -> bool -> PM W unit;
    (* rename(from, to, { overwrite }) and copy(from, to, { overwrite }) *)
    rename : URI -> URI -> bool -> PM W unit;
    copy : URI -> URI -> bool -> PM W unit;
    readFile : URI -> PM W bytes;
    (* writeFile(resource, content, { create, overwrite }) *)
    writeFile : URI -> bytes -> bool -> bool -> PM W unit;
    (* open(resource, { create }) *)
    open : URI -> bool -> PM W Z;
    close : Z -> PM W unit;
    (* read(fd, pos, data, offset, length): the bytes read, which the
       provider stores in data from offset on *)
    read : Z -> Z -> Z -> PM W bytes;
    (* write(fd, pos, data, offset, length): the number of bytes written *)
    write : Z -> Z -> bytes -> Z -> Z -> PM W Z;
    (* watch(resource, options): the underlying disposable *)
    watch : URI -> IWatchOptions.t -> PM W nat
  }.
Arguments id {W}. Arguments capabilities {W}. Arguments stat {W}.
Arguments readdir {W}. Arguments mkdir {W}. Arguments delete {W}.
Arguments rename {W}. Arguments copy {W}. Arguments readFile {W}.
Arguments writeFile {W}. Arguments open {W}. Arguments close {W}.
Arguments read {W}. Arguments write {W}. Arguments watch {W}.
End IFileSystemProvider.

Abbreviation Provider := IFileSystemProvider.t.

(** ** The state of the service and the monad of its methods *)

Record FileService (W : Type) := mkFileService {
  (* the backing state of the registered providers *)
  world : W;
  (* private readonly provider = new Map<string, IFileSystemProvider>() *)
  provider : gmap string (Provider W);
  (* what the listeners of onWillActivateFileSystemProvider do to the
     registry when a scheme is about to be activated *)
  willActivate : string -> gmap string (Provider W) -> gmap string (Provider W);
  (* the events fired on _onAfterOperation, oldest first *)
  afterOperation : list FileOperationEvent
}.
Arguments world {W}. Arguments provider {W}. Arguments willActivate {W}.
Arguments afterOperation {W}. Arguments mkFileService {W}.

Definition M (W A : Type) : Type := FileService W -> option (outcome A * FileService W).

#[global] Instance M_ret {W} : MRet (M W) :=
  fun A a st => Some (Return a, st).

#[global] Instance M_bind {W} : MBind (M W) :=
  fun A B f c st =>
    match c st with
    | Some (Return a, st') => f a st'
    | Some (Throw e, st') => Some (Throw e, st')
    | None => None
    end.

Section Monad.
Context {W : Type}.

Definition throw {A} (e : Error) : M W A := fun st => Some (Throw e, st).

  (* fuel used up *)
Definition diverge {A} : M W A := fun _ => None.

  (* try { c } catch (error) { handler error } *)
Definition tryCatch {A} (c : M W A) (handler : Error -> M W A) : M W A :=
    fun st =>
      match c st with
      | Some (Throw e, st') => handler e st'
      | r => r
      end.

  (* try { c } finally { fin }: an error of the finally block wins *)
Definition tryFinally {A} (c : M W A) (fin : M W unit) : M W A :=
    fun st =>
      match c st with
      | Some (r, st') =>
        match fin st' with
        | Some (Return _, st'') => Some (r, st'')
        | Some (Throw e, st'') => Some (Throw e, st'')
        | None => None
        end
      | None => None
      end.

Definition withWorld (w : W) (st : FileService W) : FileService W :=
    mkFileService w (provider st) (willActivate st) (afterOperation st).

  (* a call into a provider *)
Definition call {A} (op : PM W A) : M W A :=
    fun st => let '(r, w) := op (world st) in Some (r, withWorld w st).

  (* reading provider.capabilities *)
Definition capabilitiesOf (p : Provider W) : M W Z :=
    fun st => Some (Return (IFileSystemProvider.capabilities p (world st)), st).

  (* this._onAfterOperation.fire(event) *)
Definition fire (e : FileOperationEvent) : M W unit :=
    fun st =>
      Some (Return tt,
            mkFileService (world st) (provider st) (willActivate st)
                          (afterOperation st ++ [e])).
End Monad.

(** ** Helpers of [files.ts], [buffer.ts] and the JavaScript runtime *)

(** Modelled from the spec: the capability probes of the missing
    [files.ts], pure predicates over a provider's capability bit set. *)
Definition hasCapabilityBit (capabilities capability : Z) : bool :=
  negb (Z.land capabilities capability =? 0).

Section Probes.
Context {W : Type}.
Import FileSystemProviderCapabilities.

Definition hasReadWriteCapability (p : Provider W) (w : W) : bool :=
    hasCapabilityBit (IFileSystemProvider.capabilities p w) FileReadWrite.
Definition hasFileFolderCopyCapability (p : Provider W) (w : W) : bool :=
    hasCapabilityBit (IFileSystemProvider.capabilities p w) FileFolderCopy.
Definition hasOpenReadWriteCloseCapability (p : Provider W) (w : W) : bool :=
    hasCapabilityBit (IFileSystemProvider.capabilities p w) FileOpenReadWriteClose.
Definition hasFileReadStreamCapability (p : Provider W) (w : W) : bool :=
    hasCapabilityBit (IFileSystemProvider.capabilities p w) FileReadStream.

  (* evaluating a condition on the providers as they are now *)
Definition probe {A} (f : W -> A) : M W A :=
    fun st => Some (Return (f (world st)), st).
End Probes.

(** [etag] and [ETAG_DISABLED] of the missing [files.ts]: the tag is a
    function of (mtime, size); it is [undefined] when one of them is. *)
Class Files := {
  etag : option Z -> option Z -> option string;
  ETAG_DISABLED : string
}.

(** [Uint8Array.prototype.slice(begin, end)] of the JavaScript runtime:
    a negative index counts from the end, both indices are clamped to
    the array, and a missing [end] is the length. *)
Definition clampIndex (len i : Z) : Z :=
  if i <? 0 then Z.max (len + i) 0 else Z.min i len.

Definition slice (buffer : bytes) (begin : Z) (end_ : option Z) : bytes :=
  let len := Z.of_nat (List.length buffer) in
  let k := clampIndex len begin in
  let final := match end_ with Some e => clampIndex len e | None => len end in
  take (Z.to_nat (Z.max (final - k) 0)) (drop (Z.to_nat k) buffer).

Definition byteLength (buffer : bytes) : Z := Z.of_nat (List.length buffer).

(** Modelled from the spec: [ensureFileSystemProviderError] of the
    missing [files.ts]; an error that is there propagates as it is. *)
Definition ensureFileSystemProviderError (e : Error) : Error := e.

(** Modelled from the spec: [TernarySearchTree.forPaths] of the missing
    [vs/base/common/map], a prefix trie of paths that answers whether
    it has an entry at a key ([get]) or beneath it ([findSuperstr]).  A
    key is split into its segments at the separators [/] and [\]. *)
Module TernarySearchTree.
Definition isSeparator (c : ascii) : bool :=
    bool_decide (c = "/"%char) || bool_decide (c = "\"%char).

Fixpoint segmentsFrom (current : string) (key : string) : list string :=
    match key with
    | EmptyString => if bool_decide (current = "") then [] else [current]
    | String c rest =>
      if isSeparator c then
        if bool_decide (current = "") then segmentsFrom "" rest
        else current :: segmentsFrom "" rest
      else segmentsFrom (current +:+ String c "") rest
    end.

Definition segments (key : string) : list string := segmentsFrom "" key.

  (* the entries, most recent first *)
Definition t (V : Type) := list (list string * V).

Definition forPaths {V} : t V := [].

Definition set {V} (key : string) (value : V) (trie : t V) : t V :=
    (segments key, value) :: trie.

Definition get {V} (key : string) (trie : t V) : option V :=
    snd <$> List.find (fun e => bool_decide (fst e = segments key)) trie.

Definition isBeneath (key entry : list string) : bool :=
    bool_decide (key `prefix_of` entry) && negb (bool_decide (key = entry)).

  (* the sub-trie of the entries strictly beneath the key, if any *)
Definition findSuperstr {V} (key : string) (trie : t V) : option (t V) :=
    match List.filter (fun e => isBeneath (segments key) (fst e)) trie with
    | [] => None
    | sub => Some sub
    end.
End TernarySearchTree.

(** [coalesce] of [vs/base/common/arrays] drops the null values. *)
Definition coalesce {A} (array : list (option A)) : list A := omap id array.

(** JavaScript truthiness of an optional flag ([!!x]). *)
Definition truthy (x : option bool) : bool := default false x.

(** ** FileService *)

Section FileServiceMethods.
Context {W : Type} `{Resources} `{Files}.

Implicit Types (resource source target : URI) (p : Provider W).

  (** *** File system providers *)

Definition activateProvider (scheme : string) : M W unit :=
    fun st =>
      Some (Return tt,
            mkFileService (world st) (willActivate st scheme (provider st))
                          (willActivate st) (afterOperation st)).

  (* this.provider.get(scheme) *)
Definition getProvider (scheme : string) : M W (option (Provider W)) :=
    fun st => Some (Return (provider st !! scheme), st).

Definition withProvider resource : M W (Provider W) :=
    (* Assert path is absolute *)
    if negb (isAbsolutePath resource) then
      throw (FileOperationError "invalidPath" FILE_INVALID_PATH)
    else
      (* Activate provider *)
      activateProvider (scheme resource);;
      (* Assert provider *)
      provider ← getProvider (scheme resource);
      match provider with
      | None => throw (PlainError "ENOPRO")
      | Some provider => mret provider
      end.

Definition withReadProvider resource : M W (Provider W) :=
    p ← withProvider resource;
    ok ← probe (fun w => hasOpenReadWriteCloseCapability p w
                         || hasReadWriteCapability p w
                         || hasFileReadStreamCapability p w);
    if ok : bool then mret p
    else throw (PlainError "no read capability").

Definition withWriteProvider resource : M W (Provider W) :=
    p ← withProvider resource;
    ok ← probe (fun w => hasOpenReadWriteCloseCapability p w
                         || hasReadWriteCapability p w);
    if ok : bool then mret p
    else throw (PlainError "no write capability").

Definition throwIfFileSystemIsReadonly p resource : M W (Provider W) :=
    ro ← probe (fun w => hasCapabilityBit (IFileSystemProvider.capabilities p w)
                                          FileSystemProviderCapabilities.Readonly);
    if ro : bool then throw (FileOperationError "err.readonly" FILE_PERMISSION_DENIED)
    else mret p.

  (** *** exists *)

Definition exists_ resource : M W bool :=
    p ← withProvider resource;
    tryCatch
      (stat ← call (IFileSystemProvider.stat p resource);
       (* !!stat: a stat object is truthy *)
       mret true)
      (fun error => mret false).

  (** *** validateWriteFile *)

Definition isNumber (x : option Z) : bool := bool_decide (is_Some x).

Definition validateWriteFile p resource (options : option IWriteFileOptions.t)
    : M W (option IStat.t) :=
    r ← tryCatch
          (stat ← call (IFileSystemProvider.stat p resource); mret (Some stat))
          (fun error => mret None (* file might not exist *));
    match r with
    | None => mret None
    | Some stat =>
      (* file cannot be directory *)
      if negb (Z.land (IStat.type stat) FileType.Directory =? 0) then
        throw (FileOperationError "fileIsDirectoryWriteError" FILE_IS_DIRECTORY)
      else
        (* Dirty write prevention *)
        match options with
        | Some options =>
          match IWriteFileOptions.mtime options, IWriteFileOptions.etag options,
                IStat.mtime stat, IStat.size stat with
          | Some omtime, Some oetag, Some smtime, Some ssize =>
            if negb (bool_decide (oetag = ETAG_DISABLED))
               && (omtime <? smtime)
               && negb (bool_decide (Some oetag = etag (Some omtime) (Some ssize)))
            then throw (FileOperationError "fileModifiedError" FILE_MODIFIED_SINCE)
            else mret (Some stat)
          | _, _, _, _ => mret (Some stat)
          end
        | None => mret (Some stat)
        end
    end.

  (** *** readFileUnbuffered *)

Definition validateReadFileLimits resource (size : Z)
             (options : option IReadFileOptions.t) : M W unit :=
    match options ≫= IReadFileOptions.limits with
    | Some limits =>
      let tooLargeErrorResult : option FileOperationResult := None in
      let tooLargeErrorResult :=
          match IReadFileOptions.memory limits with
          | Some m => if m <? size then Some FILE_EXCEEDS_MEMORY_LIMIT
                      else tooLargeErrorResult
          | None => tooLargeErrorResult
          end in
      let tooLargeErrorResult :=
          match IReadFileOptions.size limits with
          | Some s => if s <? size then Some FILE_TOO_LARGE
                      else tooLargeErrorResult
          | None => tooLargeErrorResult
          end in
      match tooLargeErrorResult with
      | Some r => throw (FileOperationError "fileTooLargeError" r)
      | None => mret tt
      end
    | None => mret tt
    end.

  (* respect position option *)
Definition respectPosition (options : option IReadFileOptions.t) (buffer : bytes) : bytes :=
    match options ≫= IReadFileOptions.position with
    | Some position => slice buffer position None
    | None => buffer
    end.

  (* respect length option *)
Definition respectLength (options : option IReadFileOptions.t) (buffer : bytes) : bytes :=
    match options ≫= IReadFileOptions.length with
    | Some length => slice buffer 0 (Some length)
    | None => buffer
    end.

  (* the stream that bufferToStream(VSBuffer.wrap(buffer)) gives is
     identified with the bytes it delivers *)
Definition readFileUnbuffered p resource (options : option IReadFileOptions.t)
    : M W bytes :=
    buffer ← call (IFileSystemProvider.readFile p resource);
    let buffer := respectPosition options buffer in
    let buffer := respectLength options buffer in
    (* Throw if file is too large to load *)
    validateReadFileLimits resource (byteLength buffer) options;;
    mret buffer.

  (** *** File metadata resolving *)

Definition withChildren (fileStat : IFileStat.t) (children : list IFileStat.t)
    : IFileStat.t :=
    IFileStat.mk (IFileStat.resource fileStat) (IFileStat.name fileStat)
                 (IFileStat.isFile fileStat) (IFileStat.isDirectory fileStat)
                 (IFileStat.isSymbolicLink fileStat) (IFileStat.mtime fileStat)
                 (IFileStat.ctime fileStat) (IFileStat.size fileStat)
                 (IFileStat.etag fileStat) (Some children).

  (* convert to file stat *)
Definition convertToFileStat resource (stat : IStat.t) : IFileStat.t :=
    IFileStat.mk resource (getBaseLabel resource)
                 (negb (Z.land (IStat.type stat) FileType.File =? 0))
                 (negb (Z.land (IStat.type stat) FileType.Directory =? 0))
                 (negb (Z.land (IStat.type stat) FileType.SymbolicLink =? 0))
                 (IStat.mtime stat) (IStat.ctime stat) (IStat.size stat)
                 (etag (IStat.mtime stat) (IStat.size stat))
                 None.

  (* entries.map(async entry => ...) under Promise.all: the entries are
     taken in order *)
Fixpoint mapM {A B} (f : A -> M W B) (l : list A) : M W (list B) :=
    match l with
    | [] => mret []
    | a :: l => b ← f a; bs ← mapM f l; mret (b :: bs)
    end.

Fixpoint toFileStat (fuel : nat) p resource (stat : IStat.t) (siblings : option Z)
           (resolveMetadata : bool) (recurse : IFileStat.t -> option Z -> bool)
    : M W IFileStat.t :=
    let fileStat := convertToFileStat resource stat in
    (* check to recurse for directories *)
    if IFileStat.isDirectory fileStat && recurse fileStat siblings then
      match fuel with
      | O => diverge
      | S fuel =>
        tryCatch
          (entries ← call (IFileSystemProvider.readdir p resource);
           resolvedEntries ←
             mapM (fun '(name, type) =>
                     tryCatch
                       (let childResource := joinPath resource name in
                        childStat ←
                          (if resolveMetadata
                           then call (IFileSystemProvider.stat p childResource)
                           else mret (IStat.mk type None None None));
                        child ← toFileStat fuel p childResource childStat
                                  (Some (Z.of_nat (List.length entries)))
                                  resolveMetadata recurse;
                        mret (Some child))
                       (fun error => mret None (* can happen e.g. due to permission errors *)))
                  entries;
           (* get rid of null values that signal a failure to resolve a particular entry *)
           mret (withChildren fileStat (coalesce resolvedEntries)))
          (fun error => mret (withChildren fileStat [])
                        (* gracefully handle errors, we may not have permissions to read *))
      end
    else mret fileStat.

  (* the trie that the callback of doResolveFile builds on its first
     call: seeded with the resource and all of resolveTo *)
Definition resolveTrie resource (resolveTo : option (list URI))
    : TernarySearchTree.t bool :=
    let trie := TernarySearchTree.set (toString resource) true
                                      TernarySearchTree.forPaths in
    match resolveTo with
    | Some (uri :: uris) =>
      foldl (fun trie uri => TernarySearchTree.set (toString uri) true trie)
            trie (uri :: uris)
    | _ => trie
    end.

  (* the callback (stat, siblings) => boolean of doResolveFile *)
Definition recurseInto resource (resolveTo : option (list URI))
             (resolveSingleChildDescendants : option bool)
             (stat : IFileStat.t) (siblings : option Z) : bool :=
    let trie := resolveTrie resource resolveTo in
    let key := toString (IFileStat.resource stat) in
    (* check for recursive resolving *)
    if bool_decide (is_Some (TernarySearchTree.findSuperstr key trie))
       || default false (TernarySearchTree.get key trie)
    then true
    (* check for resolving single child folders *)
    else if IFileStat.isDirectory stat && truthy resolveSingleChildDescendants
    then bool_decide (siblings = Some 1)
    else false.

(* the children of a listing: what toFileStat does with the entries *)
Definition resolveEntries (fuel : nat) p resource (entries : list (string * Z))
           (resolveMetadata : bool) (recurse : IFileStat.t -> option Z -> bool)
  : M W (list (option IFileStat.t)) :=
  mapM (fun '(name, type) =>
          tryCatch
            (let childResource := joinPath resource name in
             childStat ←
               (if resolveMetadata
                then call (IFileSystemProvider.stat p childResource)
                else mret (IStat.mk type None None None));
             child ← toFileStat fuel p childResource childStat
                       (Some (Z.of_nat (List.length entries)))
                       resolveMetadata recurse;
             mret (Some child))
            (fun error => mret None))
       entries.

(* The condition of the specification to expand a directory: (a) the
   trie, seeded with the resource of the resolve and all of resolveTo,
   has an entry at or beneath the node, or (b)
   resolveSingleChildDescendants is set and the listing of the parent
   had exactly one entry. *)
Definition hasEntryAtOrBeneath (root : URI) (resolveTo : option (list URI))
           (node : URI) : Prop :=
  exists seed, seed ∈ root :: default [] resolveTo
               /\ TernarySearchTree.segments (toString node)
                  `prefix_of` TernarySearchTree.segments (toString seed).

Definition expandsBySpec (root : URI) (resolveTo : option (list URI))
           (resolveSingleChildDescendants : option bool)
           (node : URI) (siblings : option Z) : Prop :=
  hasEntryAtOrBeneath root resolveTo node
  \/ (resolveSingleChildDescendants = Some true /\ siblings = Some 1).

Definition doResolveFile (fuel : nat) resource (options : option IResolveFileOptions.t)
    : M W IFileStat.t :=
    p ← withProvider resource;
    let resolveTo := options ≫= IResolveFileOptions.resolveTo in
    let resolveSingleChildDescendants :=
        options ≫= IResolveFileOptions.resolveSingleChildDescendants in
    let resolveMetadata := options ≫= IResolveFileOptions.resolveMetadata in
    stat ← call (IFileSystemProvider.stat p resource);
    toFileStat fuel p resource stat None (truthy resolveMetadata)
               (recurseInto resource resolveTo resolveSingleChildDescendants).

Definition resolve (fuel : nat) resource (options : option IResolveFileOptions.t)
    : M W IFileStat.t :=
    tryCatch (doResolveFile fuel resource options)
             (fun error =>
                (* Specially handle file not found case as file operation result *)
                if bool_decide (toFileSystemProviderErrorCode error = FileNotFound)
                then throw (FileOperationError "fileNotFoundError" FILE_NOT_FOUND)
                (* Bubble up any other error as is *)
                else throw (ensureFileSystemProviderError error)).

Definition resolveMetadataOnly : option IResolveFileOptions.t :=
    Some (IResolveFileOptions.mk None None (Some true)).

(* the condition of the specification can be decided *)
#[global] Instance hasEntryAtOrBeneath_dec root resolveTo node :
  Decision (hasEntryAtOrBeneath root resolveTo node).
Proof.
  refine (cast_if (decide (Exists (fun seed =>
                                     TernarySearchTree.segments (toString node)
                                     `prefix_of` TernarySearchTree.segments (toString seed))
                                  (root :: default [] resolveTo))));
    unfold hasEntryAtOrBeneath; by rewrite <- Exists_exists.
Defined.

#[global] Instance expandsBySpec_dec root resolveTo resolveSingleChildDescendants node siblings :
  Decision (expandsBySpec root resolveTo resolveSingleChildDescendants node siblings).
Proof. unfold expandsBySpec. apply _. Defined.

(** The traversal of a resolve in the words of the specification.  The
    traversal starts at the resource of the resolve, which has no
    parent, and comes to a node with the listing of its parent.  A
    node that is a directory is expanded if and only if [expandsBySpec]
    holds of it, for the trie seeded with the resource of the resolve
    and all of [resolveTo] and for the number of entries of the listing
    of its parent; to expand it is to read its listing and to come to
    every entry in turn.  A node that is not expanded is returned
    without children. *)
Fixpoint traverseBySpec (fuel : nat) p (root : URI) (resolveTo : option (list URI))
         (resolveSingleChildDescendants : option bool) (resolveMetadata : bool)
         resource (stat : IStat.t) (parentListing : option (list (string * Z)))
  : M W IFileStat.t :=
  let node := convertToFileStat resource stat in
  if IFileStat.isDirectory node
     && bool_decide (expandsBySpec root resolveTo resolveSingleChildDescendants resource
                                   ((fun listing => Z.of_nat (List.length listing))
                                      <$> parentListing))
  then
    match fuel with
    | O => diverge
    | S fuel =>
      tryCatch
        (listing ← call (IFileSystemProvider.readdir p resource);
         children ←
           mapM (fun '(name, type) =>
                   tryCatch
                     (let child := joinPath resource name in
                      childStat ←
                        (if resolveMetadata
                         then call (IFileSystemProvider.stat p child)
                         else mret (IStat.mk type None None None));
                      resolved ← traverseBySpec fuel p root resolveTo
                                   resolveSingleChildDescendants resolveMetadata
                                   child childStat (Some listing);
                      mret (Some resolved))
                     (fun error => mret None))
                listing;
         mret (withChildren node (coalesce children)))
        (fun error => mret (withChildren node []))
    end
  else mret node.

(* resolve(resource, options), with the traversal of the specification *)
Definition resolveBySpec (fuel : nat) resource (options : option IResolveFileOptions.t)
  : M W IFileStat.t :=
  tryCatch
    (p ← withProvider resource;
     stat ← call (IFileSystemProvider.stat p resource);
     traverseBySpec fuel p resource
                    (options ≫= IResolveFileOptions.resolveTo)
                    (options ≫= IResolveFileOptions.resolveSingleChildDescendants)
                    (truthy (options ≫= IResolveFileOptions.resolveMetadata))
                    resource stat None)
    (fun error =>
       if bool_decide (toFileSystemProviderErrorCode error = FileNotFound)
       then throw (FileOperationError "fileNotFoundError" FILE_NOT_FOUND)
       else throw (ensureFileSystemProviderError error)).


  (** *** Queued writes

      In a run where the operations of the service follow one another,
      the queue of a resource is empty when a task is submitted: the
      task starts at once and the queue is dropped when it ends.
      [WriteQueue] below has the queues of overlapping operations. *)
Definition queue {A} (task : M W A) : M W A := task.

Definition BUFFER_SIZE : Z := 64 * 1024.

  (* provider.write returns the number of bytes written; the loop goes
     on until all of length is written *)
Fixpoint doWriteBufferLoop (fuel : nat) p (handle : Z) (buffer : bytes)
           (length posInFile posInBuffer totalBytesWritten : Z) : M W unit :=
    if totalBytesWritten <? length then
      match fuel with
      | O => diverge
      | S fuel =>
        bytesWritten ← call (IFileSystemProvider.write p handle
                               (posInFile + totalBytesWritten) buffer
                               (posInBuffer + totalBytesWritten)
                               (length - totalBytesWritten));
        doWriteBufferLoop fuel p handle buffer length posInFile posInBuffer
                          (totalBytesWritten + bytesWritten)
      end
    else mret tt.

Definition doWriteBuffer (fuel : nat) p (handle : Z) (buffer : bytes)
             (length posInFile posInBuffer : Z) : M W unit :=
    doWriteBufferLoop fuel p handle buffer length posInFile posInBuffer 0.

  (* while ((chunk = readable.read()) !== null) *)
Fixpoint doWriteReadableBufferedQueued (fuel : nat) p (handle : Z)
           (readable : list bytes) (posInFile : Z) : M W unit :=
    match readable with
    | [] => mret tt
    | chunk :: readable =>
      doWriteBuffer fuel p handle chunk (byteLength chunk) posInFile 0;;
      doWriteReadableBufferedQueued fuel p handle readable
                                    (posInFile + byteLength chunk)
    end.

  (* the chunks of a stream arrive one by one as those of a readable do *)
Definition doWriteBuffered (fuel : nat) p resource (readableOrStream : list bytes)
    : M W unit :=
    queue
      ((* open handle *)
       handle ← call (IFileSystemProvider.open p resource true);
       (* write into handle until all bytes from buffer have been written *)
       tryFinally
         (tryCatch (doWriteReadableBufferedQueued fuel p handle readableOrStream 0)
                   (fun error => throw (ensureFileSystemProviderError error)))
         ((* close handle always *)
          call (IFileSystemProvider.close p handle))).

  (* what writeFile is given: bytes, a pull-style readable or a
     push-style stream; the latter two are the chunks they deliver *)
Inductive WriteData :=
  | ofBuffer (buffer : bytes)
  | ofReadable (chunks : list bytes)
  | ofStream (chunks : list bytes).

Definition isBuffer (data : WriteData) : bool :=
    match data with ofBuffer _ => true | _ => false end.

  (* streamToBuffer, readableToBuffer: VSBuffer.concat of the chunks *)
Definition toBuffer (data : WriteData) : bytes :=
    match data with
    | ofBuffer buffer => buffer
    | ofReadable chunks | ofStream chunks => concat chunks
    end.

  (* bufferToReadable: the buffer as one chunk *)
Definition toChunks (data : WriteData) : list bytes :=
    match data with
    | ofBuffer buffer => [buffer]
    | ofReadable chunks | ofStream chunks => chunks
    end.

Definition doWriteUnbufferedQueued p resource (data : WriteData) : M W unit :=
    call (IFileSystemProvider.writeFile p resource (toBuffer data) true true).

Definition doWriteUnbuffered p resource (data : WriteData) : M W unit :=
    queue (doWriteUnbufferedQueued p resource data).

  (** *** Pipes *)

  (* the outcome of a computation, as a value *)
Definition settle {A} (c : M W A) : M W (outcome A) :=
    fun st =>
      match c st with
      | Some (r, st') => Some (Return r, st')
      | None => None
      end.

Definition unsettle {A} (r : outcome A) : M W A :=
    match r with Return a => mret a | Throw e => throw e end.

  (* await Promise.all([a, b]): both run, the first rejection wins *)
Definition all2 (a b : M W unit) : M W unit :=
    ra ← settle a;
    rb ← settle b;
    unsettle ra;; unsettle rb.

  (* buffer.set(data, offset) *)
Definition storeAt (buffer : bytes) (offset : Z) (data : bytes) : bytes :=
    (take (Z.to_nat offset) buffer ++ data
          ++ drop (Z.to_nat offset + List.length data)%nat buffer)%list.

  (* do { ... } while (bytesRead > 0) *)
Fixpoint doPipeBufferedLoop (fuel : nat) sourceProvider (sourceHandle : Z)
           targetProvider (targetHandle : Z) (buffer : bytes)
           (posInFile posInBuffer : Z) : M W unit :=
    match fuel with
    | O => diverge
    | S fuel =>
      (* read from source at current position into buffer at buffer position *)
      data ← call (IFileSystemProvider.read sourceProvider sourceHandle posInFile
                     (byteLength buffer - posInBuffer));
      let buffer := storeAt buffer posInBuffer data in
      let bytesRead := byteLength data in
      (* write into target at current position from buffer all bytes we read *)
      doWriteBuffer fuel targetProvider targetHandle buffer bytesRead
                    posInFile posInBuffer;;
      let posInFile := posInFile + bytesRead in
      let posInBuffer := posInBuffer + bytesRead in
      (* when buffer full, fill it again from the beginning *)
      let posInBuffer :=
          if posInBuffer =? byteLength buffer then 0 else posInBuffer in
      if 0 <? bytesRead then
        doPipeBufferedLoop fuel sourceProvider sourceHandle targetProvider
                           targetHandle buffer posInFile posInBuffer
      else mret tt
    end.

Definition doPipeBufferedQueued (fuel : nat) sourceProvider source
             targetProvider target : M W unit :=
    (* Open handles *)
    sourceHandle ← settle (call (IFileSystemProvider.open sourceProvider source false));
    match sourceHandle with
    | Throw error => throw (ensureFileSystemProviderError error)
    | Return sourceHandle =>
      targetHandle ← settle (call (IFileSystemProvider.open targetProvider target true));
      match targetHandle with
      | Throw error =>
        tryFinally (throw (ensureFileSystemProviderError error))
                   (call (IFileSystemProvider.close sourceProvider sourceHandle))
      | Return targetHandle =>
        tryFinally
          (tryCatch
             (doPipeBufferedLoop fuel sourceProvider sourceHandle
                                 targetProvider targetHandle
                                 (replicate (Z.to_nat BUFFER_SIZE) x00) 0 0)
             (fun error => throw (ensureFileSystemProviderError error)))
          (all2 (call (IFileSystemProvider.close sourceProvider sourceHandle))
                (call (IFileSystemProvider.close targetProvider targetHandle)))
      end
    end.

Definition doPipeBuffered (fuel : nat) sourceProvider source targetProvider target
    : M W unit :=
    queue (doPipeBufferedQueued fuel sourceProvider source targetProvider target).

Definition doPipeUnbufferedQueued sourceProvider source targetProvider target
    : M W unit :=
    content ← call (IFileSystemProvider.readFile sourceProvider source);
    call (IFileSystemProvider.writeFile targetProvider target content true true).

Definition doPipeUnbuffered sourceProvider source targetProvider target : M W unit :=
    queue (doPipeUnbufferedQueued sourceProvider source targetProvider target).

Definition doPipeUnbufferedToBufferedQueued (fuel : nat) sourceProvider source
             targetProvider target : M W unit :=
    (* Open handle *)
    targetHandle ← call (IFileSystemProvider.open targetProvider target true);
    (* Read entire buffer from source and write buffered *)
    tryFinally
      (tryCatch
         (buffer ← call (IFileSystemProvider.readFile sourceProvider source);
          doWriteBuffer fuel targetProvider targetHandle buffer (byteLength buffer) 0 0)
         (fun error => throw (ensureFileSystemProviderError error)))
      (call (IFileSystemProvider.close targetProvider targetHandle)).

Definition doPipeUnbufferedToBuffered (fuel : nat) sourceProvider source
             targetProvider target : M W unit :=
    queue (doPipeUnbufferedToBufferedQueued fuel sourceProvider source
                                            targetProvider target).

  (** Modelled from the spec: [createReadStream] of the missing
      [vs/platform/files/common/io], the positional-buffered read: open,
      read in a loop until [read] returns 0 bytes, close on every path.
      The stream is identified with the bytes it delivers. *)
Fixpoint readLoop (fuel : nat) p (handle : Z) (posInFile : Z) (content : bytes)
    : M W bytes :=
    match fuel with
    | O => diverge
    | S fuel =>
      data ← call (IFileSystemProvider.read p handle posInFile BUFFER_SIZE);
      if 0 <? byteLength data
      then readLoop fuel p handle (posInFile + byteLength data) (content ++ data)%list
      else mret content
    end.

Definition createReadStream (fuel : nat) p resource : M W bytes :=
    handle ← call (IFileSystemProvider.open p resource false);
    tryFinally
      (tryCatch (readLoop fuel p handle 0 [])
                (fun error => throw (ensureFileSystemProviderError error)))
      (call (IFileSystemProvider.close p handle)).

  (* readFileBuffered without options, with transformFileReadStream *)
Definition readFileBuffered (fuel : nat) p resource : M W bytes :=
    tryCatch (createReadStream fuel p resource)
             (fun error =>
                throw (FileOperationError "err.read" (toFileOperationResult error))).

Definition doPipeBufferedToUnbuffered (fuel : nat) sourceProvider source
             targetProvider target : M W unit :=
    (* Read buffer via stream buffered *)
    buffer ← readFileBuffered fuel sourceProvider source;
    (* Write buffer into target at once *)
    doWriteUnbuffered targetProvider target (ofBuffer buffer).

  (** *** Move, copy, delete, create folder *)

Definition doCopyFile (fuel : nat) sourceProvider source targetProvider target
    : M W unit :=
    (* copy: source (buffered) => target (buffered) *)
    c ← probe (fun w => hasOpenReadWriteCloseCapability sourceProvider w
                        && hasOpenReadWriteCloseCapability targetProvider w);
    if c : bool then doPipeBuffered fuel sourceProvider source targetProvider target
    else
    (* copy: source (buffered) => target (unbuffered) *)
    c ← probe (fun w => hasOpenReadWriteCloseCapability sourceProvider w
                        && hasReadWriteCapability targetProvider w);
    if c : bool
    then doPipeBufferedToUnbuffered fuel sourceProvider source targetProvider target
    else
    (* copy: source (unbuffered) => target (buffered) *)
    c ← probe (fun w => hasReadWriteCapability sourceProvider w
                        && hasOpenReadWriteCloseCapability targetProvider w);
    if c : bool
    then doPipeUnbufferedToBuffered fuel sourceProvider source targetProvider target
    else
    (* copy: source (unbuffered) => target (unbuffered) *)
    c ← probe (fun w => hasReadWriteCapability sourceProvider w
                        && hasReadWriteCapability targetProvider w);
    if c : bool then doPipeUnbuffered sourceProvider source targetProvider target
    else mret tt.

Fixpoint doCopyFolder (fuel : nat) sourceProvider (sourceFolder : IFileStat.t)
           targetProvider (targetFolder : URI) : M W unit :=
    match fuel with
    | O => diverge
    | S fuel =>
      (* create folder in target *)
      call (IFileSystemProvider.mkdir targetProvider targetFolder);;
      (* create children in target *)
      match IFileStat.children sourceFolder with
      | Some children =>
        mapM (fun sourceChild =>
                let targetChild := joinPath targetFolder (IFileStat.name sourceChild) in
                if IFileStat.isDirectory sourceChild then
                  resolved ← resolve fuel (IFileStat.resource sourceChild) None;
                  doCopyFolder fuel sourceProvider resolved targetProvider targetChild
                else
                  doCopyFile fuel sourceProvider (IFileStat.resource sourceChild)
                             targetProvider targetChild)
             children;;
        mret tt
      | None => mret tt
      end
    end.

  (* mkdir until we reach root: the directory at which the walk stops
     and the names that are to be created, innermost first *)
Fixpoint mkdirpUp (fuel : nat) p (directory : URI) (directoriesToCreate : list string)
    : M W (URI * list string) :=
    if isEqual directory (dirname directory) None
    then mret (directory, directoriesToCreate)
    else
      match fuel with
      | O => diverge
      | S fuel =>
        found ← tryCatch
                  (stat ← call (IFileSystemProvider.stat p directory);
                   if Z.land (IStat.type stat) FileType.Directory =? 0
                   then throw (PlainError "mkdirExistsError")
                   else mret true (* we have hit a directory that exists -> good *))
                  (fun error =>
                     (* Bubble up any other error that is not file not found *)
                     if negb (bool_decide (toFileSystemProviderErrorCode error = FileNotFound))
                     then throw error
                     else mret false);
        if found : bool then mret (directory, directoriesToCreate)
        else
          (* Upon error, remember directories that need to be created; continue up *)
          mkdirpUp fuel p (dirname directory)
                   (directoriesToCreate ++ [basename directory])%list
      end.

  (* Create directories as needed: for (i = length - 1; i >= 0; i--) *)
Fixpoint mkdirpDown p (directory : URI) (reversed : list string) : M W unit :=
    match reversed with
    | [] => mret tt
    | name :: reversed =>
      let directory := joinPath directory name in
      call (IFileSystemProvider.mkdir p directory);;
      mkdirpDown p directory reversed
    end.

Definition mkdirp (fuel : nat) p (directory : URI) : M W unit :=
    '(directory, directoriesToCreate) ← mkdirpUp fuel p directory [];
    mkdirpDown p directory (reverse directoriesToCreate).

Record DeleteOptions := mkDeleteOptions {
    useTrash : option bool;
    recursive : option bool
  }.

Definition del (fuel : nat) resource (options : option DeleteOptions) : M W unit :=
    p ← withProvider resource;
    p ← throwIfFileSystemIsReadonly p resource;
    (* Validate trash support *)
    let useTrash := truthy (options ≫= useTrash) in
    noTrash ← probe (fun w => useTrash
                              && negb (hasCapabilityBit (IFileSystemProvider.capabilities p w)
                                                        FileSystemProviderCapabilities.Trash));
    if noTrash : bool then throw (PlainError "deleteFailedTrashUnsupported")
    else
      (* Validate delete *)
      exists' ← exists_ resource;
      if negb exists' then throw (FileOperationError "deleteFailedNotFound" FILE_NOT_FOUND)
      else
        (* Validate recursive *)
        let recursive := truthy (options ≫= recursive) in
        (if negb recursive && exists' then
           stat ← resolve fuel resource None;
           match IFileStat.isDirectory stat, IFileStat.children stat with
           | true, Some (_ :: _) => throw (PlainError "deleteFailedNonEmptyFolder")
           | _, _ => mret tt
           end
         else mret tt);;
        (* Delete through provider *)
        call (IFileSystemProvider.delete p resource recursive useTrash);;
        (* Events *)
        fire (mkEvent resource DELETE None).

Inductive MoveCopyMode := ModeMove | ModeCopy.

Definition isCopy (mode : MoveCopyMode) : bool :=
    match mode with ModeCopy => true | ModeMove => false end.

Definition isPathCaseSensitive p (w : W) : bool :=
    hasCapabilityBit (IFileSystemProvider.capabilities p w)
                     FileSystemProviderCapabilities.PathCaseSensitive.

  (* sourceProvider === targetProvider *)
Definition sameProvider (p q : Provider W) : bool :=
    bool_decide (IFileSystemProvider.id p = IFileSystemProvider.id q).

Definition doValidateMoveCopy sourceProvider source targetProvider target
             (mode : MoveCopyMode) (overwrite : bool) : M W (bool * bool) :=
    (* Check if source is equal or parent to target (requires providers to be the same) *)
    isSameResourceWithDifferentPathCase ←
      (if sameProvider sourceProvider targetProvider then
         caseSensitive ← probe (isPathCaseSensitive sourceProvider);
         let isSameResourceWithDifferentPathCase :=
             if negb caseSensitive then isEqual source target (Some true) else false in
         if isSameResourceWithDifferentPathCase
            && isCopy mode
         then throw (PlainError "unableToMoveCopyError1")
         else if negb isSameResourceWithDifferentPathCase
                 && isEqualOrParent target source (negb caseSensitive)
         then throw (PlainError "unableToMoveCopyError2")
         else mret isSameResourceWithDifferentPathCase
       else mret false);
    (* Extra checks if target exists and this is not a rename *)
    exists' ← exists_ target;
    (if exists' && negb isSameResourceWithDifferentPathCase then
       (* Bail out if target exists and we are not about to overwrite *)
       if negb overwrite
       then throw (FileOperationError "unableToMoveCopyError3" FILE_MOVE_CONFLICT)
       (* Special case: if the target is a parent of the source, we cannot delete it *)
       else if sameProvider sourceProvider targetProvider then
         caseSensitive ← probe (isPathCaseSensitive sourceProvider);
         if isEqualOrParent source target (negb caseSensitive)
         then throw (PlainError "unableToMoveCopyError4")
         else mret tt
       else mret tt
     else mret tt);;
    mret (exists', isSameResourceWithDifferentPathCase).

Definition recursively : option DeleteOptions :=
    Some (mkDeleteOptions None (Some true)).

Fixpoint doMoveCopy (fuel : nat) sourceProvider source targetProvider target
           (mode : MoveCopyMode) (overwrite : bool) : M W MoveCopyMode :=
    match fuel with
    | O => diverge
    | S fuel =>
      if bool_decide (toString source = toString target)
      then mret mode (* simulate node.js behaviour here and do a no-op if paths match *)
      else
        (* validation *)
        '(exists', isSameResourceWithDifferentPathCase) ←
          doValidateMoveCopy sourceProvider source targetProvider target mode overwrite;
        (* delete as needed (unless target is same resurce with different path case) *)
        (if exists' && negb isSameResourceWithDifferentPathCase && overwrite
         then del fuel target recursively
         else mret tt);;
        (* create parent folders *)
        mkdirp fuel targetProvider (dirname target);;
        match mode with
        | ModeCopy =>
          (* copy source => target *)
          fastCopy ← probe (fun w => sameProvider sourceProvider targetProvider
                                     && hasFileFolderCopyCapability sourceProvider w);
          (if fastCopy : bool then
             (* same provider with fast copy: leverage copy() functionality *)
             call (IFileSystemProvider.copy sourceProvider source target overwrite)
           else
             (* when copying via buffer/unbuffered, we have to manually
                traverse the source if it is a folder and not a file *)
             sourceFile ← resolve fuel source None;
             if IFileStat.isDirectory sourceFile
             then doCopyFolder fuel sourceProvider sourceFile targetProvider target
             else doCopyFile fuel sourceProvider source targetProvider target);;
          mret mode
        | ModeMove =>
          (* move source => target *)
          if sameProvider sourceProvider targetProvider then
            (* same provider: leverage rename() functionality *)
            call (IFileSystemProvider.rename sourceProvider source target overwrite);;
            mret mode
          else
            (* across providers: copy to target & delete at source *)
            doMoveCopy fuel sourceProvider source targetProvider target ModeCopy overwrite;;
            del fuel source recursively;;
            mret ModeCopy
        end
    end.

Definition move (fuel : nat) source target (overwrite : option bool)
    : M W IFileStat.t :=
    sourceProvider ← withWriteProvider source;
    sourceProvider ← throwIfFileSystemIsReadonly sourceProvider source;
    targetProvider ← withWriteProvider target;
    targetProvider ← throwIfFileSystemIsReadonly targetProvider target;
    (* move *)
    mode ← doMoveCopy fuel sourceProvider source targetProvider target
                      ModeMove (truthy overwrite);
    (* resolve and send events *)
    fileStat ← resolve fuel target resolveMetadataOnly;
    fire (mkEvent source (match mode with ModeMove => MOVE | ModeCopy => COPY end)
                  (Some fileStat));;
    mret fileStat.

Definition copy (fuel : nat) source target (overwrite : option bool)
    : M W IFileStat.t :=
    sourceProvider ← withReadProvider source;
    targetProvider ← withWriteProvider target;
    targetProvider ← throwIfFileSystemIsReadonly targetProvider target;
    (* copy *)
    mode ← doMoveCopy fuel sourceProvider source targetProvider target
                      ModeCopy (truthy overwrite);
    (* resolve and send events *)
    fileStat ← resolve fuel target resolveMetadataOnly;
    fire (mkEvent source (match mode with ModeCopy => COPY | ModeMove => MOVE end)
                  (Some fileStat));;
    mret fileStat.

Definition createFolder (fuel : nat) resource : M W IFileStat.t :=
    p ← withProvider resource;
    p ← throwIfFileSystemIsReadonly p resource;
    (* mkdir recursively *)
    mkdirp fuel p resource;;
    (* events *)
    fileStat ← resolve fuel resource resolveMetadataOnly;
    fire (mkEvent resource CREATE (Some fileStat));;
    mret fileStat.

  (** *** writeFile, createFile *)

  (** Modelled from the spec: [consumeReadableWithLimit] and
      [consumeStreamWithLimit] of the missing [vs/base/common/stream];
      up to [limit] chunks are consumed eagerly and, if the input is
      exhausted within them, concatenated into one buffer. *)
Definition consumeWithLimit (data : WriteData) (limit : nat) : WriteData :=
    match data with
    | ofBuffer buffer => ofBuffer buffer
    | ofReadable chunks =>
      if bool_decide (List.length chunks <= limit)%nat
      then ofBuffer (concat chunks) else ofReadable chunks
    | ofStream chunks =>
      if bool_decide (List.length chunks <= limit)%nat
      then ofBuffer (concat chunks) else ofStream chunks
    end.

Definition writeFile (fuel : nat) resource (bufferOrReadableOrStream : WriteData)
             (options : option IWriteFileOptions.t) : M W IFileStat.t :=
    p ← withWriteProvider resource;
    p ← throwIfFileSystemIsReadonly p resource;
    tryCatch
      ((* validate write *)
       stat ← validateWriteFile p resource options;
       (* mkdir recursively as needed *)
       (if stat is None then mkdirp fuel p (dirname resource) else mret tt);;
       (* optimization: consume up to 3 chunks and try to write the data unbuffered *)
       rw ← probe (hasReadWriteCapability p);
       let bufferOrReadableOrStream :=
           if rw && negb (isBuffer bufferOrReadableOrStream)
           then consumeWithLimit bufferOrReadableOrStream 3
           else bufferOrReadableOrStream in
       unbuffered ← probe (fun w => negb (hasOpenReadWriteCloseCapability p w)
                                    || (hasReadWriteCapability p w
                                        && isBuffer bufferOrReadableOrStream));
       if unbuffered : bool then
         (* write file: unbuffered *)
         doWriteUnbuffered p resource bufferOrReadableOrStream
       else
         (* write file: buffered *)
         doWriteBuffered fuel p resource (toChunks bufferOrReadableOrStream))
      (fun error =>
         throw (FileOperationError "err.write" (toFileOperationResult error)));;
    resolve fuel resource resolveMetadataOnly.

Definition createFile (fuel : nat) resource (bufferOrReadableOrStream : WriteData)
             (overwrite : option bool) : M W IFileStat.t :=
    (* validate overwrite *)
    conflict ← (if negb (truthy overwrite) then exists_ resource else mret false);
    if conflict : bool
    then throw (FileOperationError "fileExists" FILE_MODIFIED_SINCE)
    else
      (* do write into file (this will create it too) *)
      fileStat ← writeFile fuel resource bufferOrReadableOrStream None;
      (* events *)
      fire (mkEvent resource CREATE (Some fileStat));;
      mret fileStat.

End FileServiceMethods.

(** ** A model of the helpers of [vs/base/common/resources]

    Modelled from the spec: [isAbsolutePath], [dirname], [basename],
    [joinPath], [isEqual] and [isEqualOrParent] are declared in the
    missing [vs/base/common/resources]; paths are POSIX paths, compared
    as the strings of their resources. *)
Module PosixResources.

Definition isSlash (c : ascii) : bool := bool_decide (c = "/"%char).

  (* what is before the last slash, if there is a slash *)
Fixpoint beforeLastSlash (s : string) : option string :=
    match s with
    | EmptyString => None
    | String c rest =>
      match beforeLastSlash rest with
      | Some d => Some (String c d)
      | None => if isSlash c then Some EmptyString else None
      end
    end.

  (* what is after the last slash, or all of it *)
Fixpoint afterLastSlash (s : string) : string :=
    match s with
    | EmptyString => EmptyString
    | String c rest =>
      match beforeLastSlash rest with
      | Some _ => afterLastSlash rest
      | None => if isSlash c then rest else String c rest
      end
    end.

Definition dirnamePath (p : string) : string :=
    match beforeLastSlash p with
    | Some EmptyString => "/"
    | Some d => d
    | None => p
    end.

Definition lowerAscii (c : ascii) : ascii :=
    let n := nat_of_ascii c in
    if (65 <=? n)%nat && (n <=? 90)%nat then ascii_of_nat (n + 32) else c.

Fixpoint lower (s : string) : string :=
    match s with
    | EmptyString => EmptyString
    | String c rest => String (lowerAscii c) (lower rest)
    end.

Definition sameString (ignoreCase : bool) (a b : string) : bool :=
    if ignoreCase then bool_decide (lower a = lower b) else bool_decide (a = b).

Definition withPath (u : URI) (p : string) : URI :=
    mkURI (scheme u) (authority u) p.

Definition endsWithSlash (p : string) : bool :=
    bool_decide (afterLastSlash p = EmptyString)
    && bool_decide (is_Some (beforeLastSlash p)).

#[export] Instance resources : Resources := {|
    isAbsolutePath u :=
      match path u with String c _ => isSlash c | EmptyString => false end;
    dirname u := withPath u (dirnamePath (path u));
    basename u := afterLastSlash (path u);
    joinPath u name :=
      withPath u (if endsWithSlash (path u) then path u +:+ name
                  else path u +:+ "/" +:+ name);
    isEqual a b ignoreCase :=
      sameString (default false ignoreCase) (toString a) (toString b);
    isEqualOrParent resource candidate ignoreCase :=
      sameString ignoreCase (scheme resource) (scheme candidate)
      && sameString ignoreCase (authority resource) (authority candidate)
      && bool_decide
           ((if ignoreCase then TernarySearchTree.segments (lower (path candidate))
             else TernarySearchTree.segments (path candidate))
            `prefix_of`
            (if ignoreCase then TernarySearchTree.segments (lower (path resource))
             else TernarySearchTree.segments (path resource)));
    getBaseLabel u := afterLastSlash (path u);
    toLowerCase := lower
  |}.

  (** Modelled from the spec: [etag] and [ETAG_DISABLED] of the missing
      [files.ts]; the tag is derived deterministically from (mtime,
      size), here their decimal digits, and the sentinel is the empty
      string. *)
Fixpoint digits (fuel : nat) (n : N) (acc : string) : string :=
    match fuel with
    | O => acc
    | S fuel =>
      let d := ascii_of_N (48 + N.modulo n 10) in
      if (n <? 10)%N then String d acc
      else digits fuel (N.div n 10) (String d acc)
    end.

Definition decimal (z : Z) : string :=
    (if z <? 0 then "-" else "")
      +:+ digits (S (N.to_nat (N.log2 (Z.abs_N z)))) (Z.abs_N z) EmptyString.

#[export] Instance files : Files := {|
    etag mtime size :=
      match mtime, size with
      | Some mtime, Some size => Some (decimal mtime +:+ "-" +:+ decimal size)
      | _, _ => None
      end;
    ETAG_DISABLED := ""
  |}.
End PosixResources.

(** ** An in-memory provider

    Concrete providers are external to the service; this one runs the
    service on concrete inputs.  Its nodes are keyed by resource. *)
Module MemFS.
Import PosixResources.

Inductive Node := FileNode (content : bytes) (mtime : Z) | DirNode (mtime : Z).

Record World := mkWorld {
    nodes : list (URI * Node);
    (* open file handles *)
    handles : list (Z * URI);
    clock : Z;
    (* the resources that watch was called with, oldest first *)
    watched : list URI
  }.

Definition lookup (u : URI) (w : World) : option Node :=
    snd <$> List.find (fun e => bool_decide (fst e = u)) (nodes w).

Definition remove (u : URI) (l : list (URI * Node)) : list (URI * Node) :=
    List.filter (fun e => negb (bool_decide (fst e = u))) l.

Definition store (u : URI) (n : Node) (w : World) : World :=
    mkWorld ((u, n) :: remove u (nodes w)) (handles w) (clock w + 1) (watched w).

Definition notFound {A} : outcome A := Throw (FileSystemProviderError FileNotFound).

Definition typeOf (n : Node) : Z :=
    match n with FileNode _ _ => FileType.File | DirNode _ => FileType.Directory end.

Definition stat (u : URI) : PM World IStat.t := fun w =>
    match lookup u w with
    | Some (FileNode content mtime) =>
      (Return (IStat.mk FileType.File (Some mtime) (Some 0) (Some (byteLength content))), w)
    | Some (DirNode mtime) =>
      (Return (IStat.mk FileType.Directory (Some mtime) (Some 0) (Some 0)), w)
    | None => (notFound, w)
    end.

Definition isChildOf (u : URI) (e : URI * Node) : bool :=
    bool_decide (dirname (fst e) = u) && negb (bool_decide (fst e = u)).

Definition readdir (u : URI) : PM World (list (string * Z)) := fun w =>
    match lookup u w with
    | Some (DirNode _) =>
      (Return ((fun e => (basename (fst e), typeOf (snd e)))
                 <$> List.filter (isChildOf u) (nodes w)), w)
    | Some _ => (Throw (FileSystemProviderError FileNotADirectory), w)
    | None => (notFound, w)
    end.

Definition mkdir (u : URI) : PM World unit := fun w =>
    match lookup u w with
    | Some _ => (Throw (FileSystemProviderError FileExists), w)
    | None => (Return tt, store u (DirNode (clock w)) w)
    end.

Definition isAtOrBeneath (u : URI) (e : URI * Node) : bool :=
    isEqualOrParent (fst e) u false.

Definition delete (u : URI) (recursive useTrash : bool) : PM World unit := fun w =>
    match lookup u w with
    | None => (notFound, w)
    | Some _ =>
      (Return tt,
       mkWorld (if recursive
                then List.filter (fun e => negb (isAtOrBeneath u e)) (nodes w)
                else remove u (nodes w))
               (handles w) (clock w + 1) (watched w))
    end.

Definition rename (from to : URI) (overwrite : bool) : PM World unit := fun w =>
    match lookup from w with
    | None => (notFound, w)
    | Some n =>
      (Return tt, store to n (mkWorld (remove from (nodes w)) (handles w) (clock w) (watched w)))
    end.

Definition copy (from to : URI) (overwrite : bool) : PM World unit := fun w =>
    match lookup from w with
    | None => (notFound, w)
    | Some n => (Return tt, store to n w)
    end.

Definition readFile (u : URI) : PM World bytes := fun w =>
    match lookup u w with
    | Some (FileNode content _) => (Return content, w)
    | Some (DirNode _) => (Throw (FileSystemProviderError FileIsADirectory), w)
    | None => (notFound, w)
    end.

Definition writeFile (u : URI) (content : bytes) (create overwrite : bool)
    : PM World unit := fun w =>
    match lookup u w with
    | Some (DirNode _) => (Throw (FileSystemProviderError FileIsADirectory), w)
    | Some _ =>
      if overwrite then (Return tt, store u (FileNode content (clock w)) w)
      else (Throw (FileSystemProviderError FileExists), w)
    | None =>
      if create then (Return tt, store u (FileNode content (clock w)) w)
      else (notFound, w)
    end.

  (* open with create truncates the file *)
Definition open (u : URI) (create : bool) : PM World Z := fun w =>
    let fd := Z.of_nat (List.length (handles w)) in
    let opened w := mkWorld (nodes w) ((fd, u) :: handles w) (clock w) (watched w) in
    match lookup u w with
    | Some (DirNode _) => (Throw (FileSystemProviderError FileIsADirectory), w)
    | Some _ =>
      (Return fd, if create then opened (store u (FileNode [] (clock w)) w) else opened w)
    | None =>
      if create then (Return fd, opened (store u (FileNode [] (clock w)) w))
      else (notFound, w)
    end.

Definition resourceOf (fd : Z) (w : World) : option URI :=
    snd <$> List.find (fun h => bool_decide (fst h = fd)) (handles w).

Definition close (fd : Z) : PM World unit := fun w =>
    match resourceOf fd w with
    | Some _ =>
      (Return tt,
       mkWorld (nodes w) (List.filter (fun h => negb (bool_decide (fst h = fd))) (handles w))
               (clock w) (watched w))
    | None => (Throw (FileSystemProviderError Unavailable), w)
    end.

Definition read (fd pos length : Z) : PM World bytes := fun w =>
    match resourceOf fd w ≫= fun u => lookup u w with
    | Some (FileNode content _) =>
      (Return (take (Z.to_nat length) (drop (Z.to_nat pos) content)), w)
    | _ => (Throw (FileSystemProviderError Unavailable), w)
    end.

Definition write (fd pos : Z) (data : bytes) (offset length : Z) : PM World Z := fun w =>
    match resourceOf fd w with
    | Some u =>
      match lookup u w with
      | Some (FileNode content _) =>
        let chunk := take (Z.to_nat length) (drop (Z.to_nat offset) data) in
        (Return (byteLength chunk),
         store u (FileNode (take (Z.to_nat pos) content ++ chunk
                                 ++ drop (Z.to_nat pos + List.length chunk)%nat content)%list
                           (clock w)) w)
      | _ => (Throw (FileSystemProviderError Unavailable), w)
      end
    | None => (Throw (FileSystemProviderError Unavailable), w)
    end.

  (* the disposable of a watch is its number *)
Definition watch (u : URI) (options : IWatchOptions.t) : PM World nat := fun w =>
    (Return (List.length (watched w)),
     mkWorld (nodes w) (handles w) (clock w) (watched w ++ [u])%list).

Definition provider (id : nat) (capabilities : Z) : Provider World :=
    IFileSystemProvider.mk World id (fun _ => capabilities)
      stat readdir mkdir delete rename copy readFile writeFile
      open close read write watch.

Definition file (u : URI) (content : string) (mtime : Z) : URI * Node :=
    (u, FileNode (String.list_byte_of_string content) mtime).

Definition dir (u : URI) (mtime : Z) : URI * Node := (u, DirNode mtime).

Definition uri (scheme path : string) : URI := mkURI scheme "" path.

  (* a service with the given providers and no activation listeners *)
Definition service (providers : list (string * Provider World))
             (nodes : list (URI * Node)) : FileService World :=
    mkFileService (mkWorld nodes [] 1000 []) (list_to_map providers) (fun _ r => r) [].
End MemFS.

(** ** Fixtures: two providers over the in-memory file system *)
Module Fixture.
Import MemFS FileSystemProviderCapabilities.

  (* unbuffered, case sensitive *)
Definition mem : Provider World :=
    MemFS.provider 1 (Z.lor FileReadWrite PathCaseSensitive).
  (* positional, case sensitive *)
Definition disk : Provider World :=
    MemFS.provider 2 (Z.lor FileOpenReadWriteClose PathCaseSensitive).
  (* a provider that can only stream its files *)
Definition streamed : Provider World :=
    MemFS.provider 3 (Z.lor FileReadStream PathCaseSensitive).

Definition providers : list (string * Provider World) :=
    [("mem", mem); ("disk", disk); ("stream", streamed)].

  (* mem:///a/b.txt holds "hello", written at time 2000 *)
Definition st0 : FileService World :=
    service providers
            [dir (uri "mem" "/") 0; dir (uri "disk" "/") 0; dir (uri "stream" "/") 0;
             dir (uri "mem" "/a") 2000;
             file (uri "mem" "/a/b.txt") "hello" 2000;
             file (uri "stream" "/s.txt") "stream" 7].

Definition a_dir : URI := uri "mem" "/a".
Definition b_txt : URI := uri "mem" "/a/b.txt".
Definition text (s : string) : bytes := String.list_byte_of_string s.

(* mem:///r has the folders one, with the single folder only and the
   file f in it, and two, with the file g *)
Definition tree : FileService World :=
  service providers
          [dir (uri "mem" "/") 0; dir (uri "mem" "/r") 0;
           dir (uri "mem" "/r/one") 0; dir (uri "mem" "/r/one/only") 0;
           file (uri "mem" "/r/one/only/f") "x" 1;
           dir (uri "mem" "/r/two") 0; file (uri "mem" "/r/two/g") "y" 1].

Definition resolveOptions (resolveTo : option (list URI))
           (resolveSingleChildDescendants : option bool) : IResolveFileOptions.t :=
  IResolveFileOptions.mk resolveTo resolveSingleChildDescendants None.

(* what a run returned, if it returned *)
Definition returned {A} (r : option (outcome A * FileService World)) : option A :=
  match r with Some (Return a, _) => Some a | _ => None end.

Definition childrenNames (stat : IFileStat.t) : option (list string) :=
  fmap (M := list) IFileStat.name <$> IFileStat.children stat.


Definition readOptions (position length : option Z) : IReadFileOptions.t :=
    IReadFileOptions.mk position length None None None.
End Fixture.

(** ** The watcher multiplexer

    [activeWatchers] maps a watch key to a watcher object [{ disposable,
    count }]; the closures that [doWatch] returns hold a reference to
    the object, so the objects live in a heap and the map and the
    closures hold addresses.  The subscriptions that [provider.watch]
    returns are numbered in the order of the calls that returned one.

    [toDisposable(fn)] of the missing [vs/base/common/lifecycle] is the
    plain wrapper: each call of [dispose()] runs [fn].  [watch] and
    [doWatch] have no guard of their own against a second call.

    [doWatch] is asynchronous: it awaits [withProvider], so its body
    runs in a turn after [watch] has returned the handle, on the
    registry and the providers as they are then, and it rejects when
    [withProvider] or [provider.watch] throws.  The callback that
    forwards its disposable to the handle runs in a later turn again.
    Between two turns the rest of the service goes on. *)
Module Watchers.

Record Watcher := mkWatcher { disposable : nat; count : Z }.

(* where the doWatch of a watch call is: not run yet, rejected,
   returned the closure over the watcher at [watcher] for [key], or
   past the callback of watch *)
Inductive Stage :=
| Started
| Rejected
| Resolved (watcher : nat) (key : string)
| Settled.

Record Handle := mkHandle {
  (* the arguments of watch *)
  resource : URI;
  options : IWatchOptions.t;
  stage : Stage;
  (* let watchDisposed = false *)
  watchDisposed : bool;
  (* let watchDisposable: None is the initial toDisposable(() =>
     watchDisposed = true), Some the closure that doWatch returned *)
  watchDisposable : option (nat * string);
  (* bookkeeping, not a variable of the code: how often dispose() of
     the handle has been called *)
  disposeCalls : nat
}.

Section WithResources.
Context {W : Type} `{Resources}.

Record State := mkState {
  (* the registry and the providers *)
  service : FileService W;
  watchers : list Watcher;
  (* private activeWatchers = new Map<string, { disposable, count }>() *)
  activeWatchers : gmap string nat;
  handles : list Handle;
  (* the calls of provider.watch that returned, each with the key it
     was made for: the i-th returned the disposable i *)
  watchCalls : list (string * (URI * IWatchOptions.t));
  (* the calls of dispose() on the disposables of the provider *)
  disposed : list nat
}.

Definition init (service : FileService W) : State := mkState service [] ∅ [] [] [].

Definition toMapKey (capabilities : Z) (resource : URI) : string :=
  let isPathCaseSensitive :=
      hasCapabilityBit capabilities FileSystemProviderCapabilities.PathCaseSensitive in
  if isPathCaseSensitive then toString resource else toLowerCase (toString resource).

(* Array.prototype.join() *)
Definition join (items : list string) : string :=
  match items with
  | [] => ""
  | item :: items => foldl (fun joined item => joined +:+ "," +:+ item) item items
  end.

Definition toWatchKey (capabilities : Z) (resource : URI) (options : IWatchOptions.t)
  : string :=
  join [toMapKey capabilities resource;
        (if IWatchOptions.recursive options then "true" else "false");
        join (IWatchOptions.excludes options)].

Definition setService (service : FileService W) (st : State) : State :=
  mkState service (watchers st) (activeWatchers st) (handles st) (watchCalls st)
          (disposed st).

Definition setWatchers (ws : list Watcher) (st : State) : State :=
  mkState (service st) ws (activeWatchers st) (handles st) (watchCalls st) (disposed st).

Definition setHandle (i : nat) (h : Handle) (st : State) : State :=
  mkState (service st) (watchers st) (activeWatchers st) (<[i := h]> (handles st))
          (watchCalls st) (disposed st).

Definition setStage (s : Stage) (h : Handle) : Handle :=
  mkHandle (resource h) (options h) s (watchDisposed h) (watchDisposable h)
           (disposeCalls h).

(* the closure that doWatch returns, for the watcher at [a] and [key] *)
Definition unref (a : nat) (key : string) (st : State) : State :=
  match watchers st !! a with
  | Some watcher =>
    (* Unref *)
    let watcher := mkWatcher (disposable watcher) (count watcher - 1) in
    let st := setWatchers (<[a := watcher]> (watchers st)) st in
    (* Dispose only when last user is reached *)
    if count watcher =? 0 then
      mkState (service st) (watchers st) (delete key (activeWatchers st)) (handles st)
              (watchCalls st) (disposed st ++ [disposable watcher])
    else st
  | None => st
  end.

(* watcher.count += 1 *)
Definition increment (a : nat) (st : State) : State :=
  setWatchers (alter (fun w => mkWatcher (disposable w) (count w + 1)) a (watchers st)) st.

(* async doWatch(resource, options): the closure it resolves with, or
   the error it rejects with, and the new state *)
Definition doWatch (resource : URI) (options : IWatchOptions.t) (st : State)
  : option (outcome (nat * string) * State) :=
  match withProvider resource (service st) with
  | Some (Return provider, service') =>
    let st := setService service' st in
    let key := toWatchKey (IFileSystemProvider.capabilities provider (world service'))
                          resource options in
    (* Only start watching if we are the first for the given key *)
    match activeWatchers st !! key with
    | Some a =>
      (* Increment usage counter *)
      Some (Return (a, key), increment a st)
    | None =>
      match IFileSystemProvider.watch provider resource options (world service') with
      | (Return _, w) =>
        let a := List.length (watchers st) in
        let st :=
            mkState (withWorld w service')
                    (watchers st ++ [mkWatcher (List.length (watchCalls st)) 0])
                    (<[key := a]> (activeWatchers st)) (handles st)
                    (watchCalls st ++ [(key, (resource, options))]) (disposed st) in
        (* Increment usage counter *)
        Some (Return (a, key), increment a st)
      | (Throw error, w) => Some (Throw error, setService (withWorld w service') st)
      end
    end
  | Some (Throw error, service') => Some (Throw error, setService service' st)
  | None => None
  end.

(* watch(resource, options): the handle is the number of the call *)
Definition watch (resource : URI) (options : IWatchOptions.t) (st : State) : State :=
  mkState (service st) (watchers st) (activeWatchers st)
          (handles st ++ [mkHandle resource options Started false None 0])
          (watchCalls st) (disposed st).

(* the turn in which the doWatch of handle [i] runs *)
Definition runDoWatch (i : nat) (st : State) : State :=
  match handles st !! i with
  | Some h =>
    match stage h with
    | Started =>
      match doWatch (resource h) (options h) st with
      | Some (Return (a, key), st) => setHandle i (setStage (Resolved a key) h) st
      | Some (Throw error, st) => setHandle i (setStage Rejected h) st
      | None => st
      end
    | _ => st
    end
  | None => st
  end.

(* the turn of the callback disposable => { if (watchDisposed) ... };
   the callback of a rejection only logs the error *)
Definition runThen (i : nat) (st : State) : State :=
  match handles st !! i with
  | Some h =>
    match stage h with
    | Resolved a key =>
      if watchDisposed h then
        (* dispose(disposable) *)
        unref a key (setHandle i (setStage Settled h) st)
      else
        (* watchDisposable = disposable *)
        setHandle i (mkHandle (resource h) (options h) Settled
                              (watchDisposed h) (Some (a, key)) (disposeCalls h)) st
    | _ => st
    end
  | None => st
  end.

(* dispose() of the handle that watch returned: dispose(watchDisposable) *)
Definition disposeHandle (i : nat) (st : State) : State :=
  match handles st !! i with
  | Some h =>
    match watchDisposable h with
    | None =>
      setHandle i (mkHandle (resource h) (options h) (stage h)
                            true None (S (disposeCalls h))) st
    | Some (a, key) =>
      unref a key
            (setHandle i (mkHandle (resource h) (options h) (stage h)
                                   (watchDisposed h) (watchDisposable h)
                                   (S (disposeCalls h))) st)
    end
  | None => st
  end.

(* dispose() of the service: every active watcher is disposed and the
   table is cleared *)
Definition serviceDispose (st : State) : State :=
  mkState (service st) (watchers st) ∅ (handles st) (watchCalls st)
          (disposed st
           ++ omap (fun e => disposable <$> watchers st !! snd e)
                   (map_to_list (activeWatchers st))).

Inductive Action :=
| Watch (resource : URI) (options : IWatchOptions.t)
| DoWatch (i : nat)
| Then (i : nat)
| Dispose (i : nat)
| ServiceDispose
(* what the rest of the service does between two turns: providers are
   registered and removed, files are written *)
| Elsewhere (change : FileService W -> FileService W).

Definition step (a : Action) (st : State) : State :=
  match a with
  | Watch resource options => watch resource options st
  | DoWatch i => runDoWatch i st
  | Then i => runThen i st
  | Dispose i => disposeHandle i st
  | ServiceDispose => serviceDispose st
  | Elsewhere change => setService (change (service st)) st
  end.

Definition run (actions : list Action) (st : State) : State :=
  foldl (fun st a => step a st) st actions.


Definition isServiceDispose (a : Action) : bool :=
  match a with ServiceDispose => true | _ => false end.

(* the service itself is not disposed in the run *)
Definition inService (actions : list Action) : Prop :=
  forall a, a ∈ actions -> isServiceDispose a = false.


(** *** What C6 is about *)


(* the reference count of the entry of a key; 0 without an entry *)
Definition refcount (st : State) (key : string) : Z :=
  match activeWatchers st !! key ≫= fun a => watchers st !! a with
  | Some watcher => count watcher
  | None => 0
  end.








(** *** The invariants of the multiplexer *)


Definition keyAt (st : State) (a : nat) : option string :=
  fst <$> watchCalls st !! a.



(* the closures of a handle are over a watcher that is there, for the
   key it was made for *)
Definition closuresOk (st : State) (h : Handle) : Prop :=
  (forall a key, stage h = Resolved a key -> keyAt st a = Some key)
  /\ (forall a key, watchDisposable h = Some (a, key) -> keyAt st a = Some key).

(* While the service is not disposed, whatever is done to the handles:
   a watcher is in the table, with a count above 0 and a subscription
   that is not disposed, or it is not and its subscription is
   disposed. *)
Record Kept (st : State) : Prop := mkKept {
  kept_disposable : forall a w, watchers st !! a = Some w -> disposable w = a;
  kept_calls : List.length (watchCalls st) = List.length (watchers st);
  kept_active : forall key a,
      activeWatchers st !! key = Some a ->
      exists w, watchers st !! a = Some w /\ 0 < count w
                /\ keyAt st a = Some key /\ a ∉ disposed st;
  kept_inactive : forall a w,
      watchers st !! a = Some w ->
      (forall key, activeWatchers st !! key <> Some a) ->
      count w <= 0 /\ a ∈ disposed st;
  kept_nodup : NoDup (disposed st);
  kept_disposed : forall d, d ∈ disposed st -> (d < List.length (watchers st))%nat;
  kept_handles : forall i h, handles st !! i = Some h -> closuresOk st h
}.
End WithResources.

Arguments State : clear implicits.
End Watchers.

(** Fixtures: watches of [mem:///w] on a case sensitive provider. *)
Module WatchFixture.
Import PosixResources Watchers.

Definition w : Action (W := MemFS.World) :=
  Watch (MemFS.uri "mem" "/w") (IWatchOptions.mk true []).


Definition key : string := "mem:///w,true,".

Definition init : State MemFS.World := Watchers.init Fixture.st0.

(* two watches of the same key, both forwarded *)
Definition two : State MemFS.World :=
  run [w; DoWatch 0; Then 0; w; DoWatch 1; Then 1] init.

(* one watch, then the service is disposed *)
Definition tornDown : State MemFS.World :=
  run [w; DoWatch 0; Then 0; ServiceDispose] init.
End WatchFixture.

(** ** Async functions, turn by turn

    What the service submits to a write queue is an async function over
    the providers.  It runs in turns: a turn is what goes on between
    two awaits, one call of a provider, and between two turns of a task
    the tasks of other queues take theirs.  A task is settled when its
    promise is resolved or rejected; a loop that does not end within
    its fuel leaves the task unsettled for ever.

    The methods below are those that [FileService] queues, written turn
    by turn in continuation style: [k] is what the caller goes on with
    when the method has returned or thrown.  Run alone, they are the
    methods of [FileService] above. *)
Module Async.
Section WithWorld.
Context {W : Type}.
Implicit Types (p sourceProvider targetProvider : Provider W).

Inductive Task :=
| Settled (result : outcome unit)
| Diverged
(* the turn changes the backing state, and what the provider answered
   in it decides how the task goes on *)
| Await (turn : W -> W) (next : W -> Task).

(* await op *)
Definition await {A} (op : PM W A) (k : outcome A -> Task) : Task :=
  Await (fun w => snd (op w)) (fun w => k (fst (op w))).



(* the task ends, whatever the providers answer *)
Fixpoint ends (t : Task) : Prop :=
  match t with
  | Settled _ => True
  | Diverged => False
  | Await _ next => forall w, ends (next w)
  end.

(* catch (error) { throw ensureFileSystemProviderError(error) } *)
Definition ensured (result : outcome unit) : outcome unit :=
  match result with
  | Throw error => Throw (ensureFileSystemProviderError error)
  | Return _ => result
  end.

(* finally { await fin }: an error of the finally block wins *)
Definition finally (fin : PM W unit) (result : outcome unit) : Task :=
  await fin (fun closed =>
               match closed with
               | Throw error => Settled (Throw error)
               | Return _ => Settled result
               end).

Fixpoint doWriteBufferLoop (fuel : nat) p (handle : Z) (buffer : bytes)
         (length posInFile posInBuffer totalBytesWritten : Z)
         (k : outcome unit -> Task) : Task :=
  if totalBytesWritten <? length then
    match fuel with
    | O => Diverged
    | S fuel =>
      await (IFileSystemProvider.write p handle (posInFile + totalBytesWritten) buffer
                                       (posInBuffer + totalBytesWritten)
                                       (length - totalBytesWritten))
            (fun written =>
               match written with
               | Return bytesWritten =>
                 doWriteBufferLoop fuel p handle buffer length posInFile posInBuffer
                                   (totalBytesWritten + bytesWritten) k
               | Throw error => k (Throw error)
               end)
    end
  else k (Return tt).

Definition doWriteBuffer (fuel : nat) p (handle : Z) (buffer : bytes)
           (length posInFile posInBuffer : Z) (k : outcome unit -> Task) : Task :=
  doWriteBufferLoop fuel p handle buffer length posInFile posInBuffer 0 k.

(* while ((chunk = readable.read()) !== null) *)
Fixpoint doWriteReadableBufferedQueued (fuel : nat) p (handle : Z)
         (readable : list bytes) (posInFile : Z) (k : outcome unit -> Task) : Task :=
  match readable with
  | [] => k (Return tt)
  | chunk :: readable =>
    doWriteBuffer fuel p handle chunk (byteLength chunk) posInFile 0
                  (fun written =>
                     match written with
                     | Return _ =>
                       doWriteReadableBufferedQueued fuel p handle readable
                                                     (posInFile + byteLength chunk) k
                     | Throw error => k (Throw error)
                     end)
  end.

(* the async function that doWriteBuffered queues *)
Definition doWriteBufferedQueued (fuel : nat) p (resource : URI)
           (readableOrStream : list bytes) : Task :=
  (* open handle *)
  await (IFileSystemProvider.open p resource true)
        (fun opened =>
           match opened with
           | Throw error => Settled (Throw error)
           | Return handle =>
             (* write into handle until all bytes from buffer have been written *)
             doWriteReadableBufferedQueued
               fuel p handle readableOrStream 0
               (fun written =>
                  (* close handle always *)
                  finally (IFileSystemProvider.close p handle) (ensured written))
           end).

Definition doWriteUnbufferedQueued p (resource : URI) (data : WriteData) : Task :=
  await (IFileSystemProvider.writeFile p resource (toBuffer data) true true) Settled.

Definition doPipeUnbufferedQueued sourceProvider (source : URI)
           targetProvider (target : URI) : Task :=
  await (IFileSystemProvider.readFile sourceProvider source)
        (fun read =>
           match read with
           | Return content =>
             await (IFileSystemProvider.writeFile targetProvider target content true true)
                   Settled
           | Throw error => Settled (Throw error)
           end).

Definition doPipeUnbufferedToBufferedQueued (fuel : nat) sourceProvider (source : URI)
           targetProvider (target : URI) : Task :=
  (* Open handle *)
  await (IFileSystemProvider.open targetProvider target true)
        (fun opened =>
           match opened with
           | Throw error => Settled (Throw error)
           | Return targetHandle =>
             let close written :=
                 finally (IFileSystemProvider.close targetProvider targetHandle)
                         (ensured written) in
             (* Read entire buffer from source and write buffered *)
             await (IFileSystemProvider.readFile sourceProvider source)
                   (fun read =>
                      match read with
                      | Return buffer =>
                        doWriteBuffer fuel targetProvider targetHandle buffer
                                      (byteLength buffer) 0 0 close
                      | Throw error => close (Throw error)
                      end)
           end).

(* do { ... } while (bytesRead > 0) *)
Fixpoint doPipeBufferedLoop (fuel : nat) sourceProvider (sourceHandle : Z)
         targetProvider (targetHandle : Z) (buffer : bytes)
         (posInFile posInBuffer : Z) (k : outcome unit -> Task) : Task :=
  match fuel with
  | O => Diverged
  | S fuel =>
    (* read from source at current position into buffer at buffer position *)
    await (IFileSystemProvider.read sourceProvider sourceHandle posInFile
                                    (byteLength buffer - posInBuffer))
          (fun read =>
             match read with
             | Throw error => k (Throw error)
             | Return data =>
               let buffer := storeAt buffer posInBuffer data in
               let bytesRead := byteLength data in
               (* write into target at current position from buffer all bytes we read *)
               doWriteBuffer
                 fuel targetProvider targetHandle buffer bytesRead posInFile posInBuffer
                 (fun written =>
                    match written with
                    | Throw error => k (Throw error)
                    | Return _ =>
                      let posInFile := posInFile + bytesRead in
                      let posInBuffer := posInBuffer + bytesRead in
                      (* when buffer full, fill it again from the beginning *)
                      let posInBuffer :=
                          if posInBuffer =? byteLength buffer then 0 else posInBuffer in
                      if 0 <? bytesRead then
                        doPipeBufferedLoop fuel sourceProvider sourceHandle targetProvider
                                           targetHandle buffer posInFile posInBuffer k
                      else k (Return tt)
                    end)
             end)
  end.

(* finally { await Promise.all([a, b]) }: both run, the first rejection
   wins, and an error of the finally block wins *)
Definition finallyAll (a b : PM W unit) (result : outcome unit) : Task :=
  await a (fun ra =>
             await b (fun rb =>
                        match ra, rb with
                        | Throw error, _ => Settled (Throw error)
                        | Return _, Throw error => Settled (Throw error)
                        | Return _, Return _ => Settled result
                        end)).

Definition doPipeBufferedQueued (fuel : nat) sourceProvider (source : URI)
           targetProvider (target : URI) : Task :=
  (* Open handles *)
  await (IFileSystemProvider.open sourceProvider source false)
        (fun opened =>
           match opened with
           | Throw error => Settled (Throw (ensureFileSystemProviderError error))
           | Return sourceHandle =>
             await (IFileSystemProvider.open targetProvider target true)
                   (fun opened =>
                      match opened with
                      | Throw error =>
                        finally (IFileSystemProvider.close sourceProvider sourceHandle)
                                (Throw (ensureFileSystemProviderError error))
                      | Return targetHandle =>
                        doPipeBufferedLoop
                          fuel sourceProvider sourceHandle targetProvider targetHandle
                          (replicate (Z.to_nat BUFFER_SIZE) x00) 0 0
                          (fun piped =>
                             finallyAll
                               (IFileSystemProvider.close sourceProvider sourceHandle)
                               (IFileSystemProvider.close targetProvider targetHandle)
                               (ensured piped))
                      end)
           end).
End WithWorld.
Arguments Task : clear implicits.
End Async.

(** ** The write queues

    [doWriteBuffered], [doWriteUnbuffered] and the pipes submit their
    work to the queue of the canonical key of the target. *)
Module WriteQueue.
Import Async.

Inductive Event :=
| Submitted (key : string) (id : nat)
| Started (key : string) (id : nat)
| Ended (key : string) (id : nat).

#[global] Instance Event_eq_dec : EqDecision Event.
Proof. solve_decision. Defined.

Section WithWorld.
Context {W : Type}.

(** Modelled from the spec: [Queue] of the missing
    [vs/base/common/async], a single-consumer FIFO that runs one task at
    a time in the order of submission, goes on to the next task when
    the one that runs is settled, resolved or rejected, and signals
    [onFinished] when it has run dry.  [consume] and [settle] below are
    its two halves. *)
Record Queue := mkQueue {
  (* the task that runs, with the number it was submitted under *)
  running : option (nat * Task W);
  (* the tasks that wait, oldest first *)
  outstanding : list (nat * Task W)
}.

Record State := mkState {
  (* the backing state of the providers *)
  disk : W;
  (* private writeQueues: Map<string, Queue<void>> = new Map() *)
  writeQueues : gmap string Queue;
  log : list Event;
  (* how the promises that queue() returned were settled, oldest first *)
  settled : list (string * (nat * outcome unit))
}.

Definition init (disk : W) : State := mkState disk ∅ [] [].

Definition setQueue (key : string) (q : Queue) (st : State) : State :=
  mkState (disk st) (<[key := q]> (writeQueues st)) (log st) (settled st).

Definition emit (e : Event) (st : State) : State :=
  mkState (disk st) (writeQueues st) (log st ++ [e]) (settled st).

(* ensureWriteQueue: the queue of the key, made if it is not there; its
   onFinished will delete it *)
Definition ensureWriteQueue (key : string) (st : State) : State :=
  match writeQueues st !! key with
  | Some _ => st
  | None => setQueue key (mkQueue None []) st
  end.

(* Queue.consume(): while a task waits and none runs, the oldest starts *)
Definition consume (key : string) (st : State) : State :=
  match writeQueues st !! key with
  | Some (mkQueue None ((id, task) :: waiting)) =>
    emit (Started key id) (setQueue key (mkQueue (Some (id, task)) waiting) st)
  | _ => st
  end.

(* ensureWriteQueue(provider, resource).queue(task) *)
Definition submit (key : string) (id : nat) (task : Task W) (st : State) : State :=
  let st := emit (Submitted key id) (ensureWriteQueue key st) in
  match writeQueues st !! key with
  | Some q =>
    consume key (setQueue key (mkQueue (running q) (outstanding q ++ [(id, task)])) st)
  | None => st
  end.

(* a turn of the task that runs in the queue of the key *)
Definition advance (key : string) (st : State) : State :=
  match writeQueues st !! key with
  | Some (mkQueue (Some (id, Await turn next)) waiting) =>
    mkState (turn (disk st))
            (<[key := mkQueue (Some (id, next (disk st))) waiting]> (writeQueues st))
            (log st) (settled st)
  | _ => st
  end.

(* the task that runs is settled: Queue.consumed(); the next one
   starts, or onFinished deletes the queue *)
Definition settle (key : string) (st : State) : State :=
  match writeQueues st !! key with
  | Some (mkQueue (Some (id, Settled result)) waiting) =>
    let st := mkState (disk st) (writeQueues st) (log st ++ [Ended key id])
                      (settled st ++ [(key, (id, result))]) in
    match waiting with
    | [] => mkState (disk st) (delete key (writeQueues st)) (log st) (settled st)
    | _ => consume key (setQueue key (mkQueue None waiting) st)
    end
  | _ => st
  end.

Inductive Action :=
| Submit (key : string) (id : nat) (task : Task W)
| Advance (key : string)
| Settle (key : string).

Definition step (a : Action) (st : State) : State :=
  match a with
  | Submit key id task => submit key id task st
  | Advance key => advance key st
  | Settle key => settle key st
  end.

Definition run (actions : list Action) (st : State) : State :=
  foldl (fun st a => step a st) st actions.

(** *** What C3 is about *)




(* the numbers of the submissions, the starts and the ends of a key, in
   the order of the log *)
Definition submissions (key : string) (l : list Event) : list nat :=
  omap (fun e => match e with
                 | Submitted k id => if bool_decide (k = key) then Some id else None
                 | _ => None
                 end) l.

(* what of the log is about the runs of the tasks of a key *)
Definition runsOf (key : string) (l : list Event) : list Event :=
  List.filter (fun e => match e with
                        | Started k _ | Ended k _ => bool_decide (k = key)
                        | Submitted _ _ => false
                        end) l.

(* one task after the other, each ended before the next starts *)
Definition serial (key : string) (ids : list nat) : list Event :=
  flat_map (fun id => [Started key id; Ended key id]) ids.




(** *** The invariants of the queues *)

(* the log of a key: what was submitted is what has run, in the same
   order and one after the other, then the task that runs, then the
   tasks that wait *)
Definition fifo (st : State) (key : string) : Prop :=
  match writeQueues st !! key with
  | None => runsOf key (log st) = serial key (submissions key (log st))
  | Some q =>
    match running q with
    | Some (id, _) =>
      exists done,
      submissions key (log st) = (done ++ id :: (fst <$> outstanding q))%list
      /\ runsOf key (log st) = (serial key done ++ [Started key id])%list
    | None => False
    end
  end.


(* every task of the queue of the key ends *)
Definition ending (key : string) (st : State) : Prop :=
  forall q, writeQueues st !! key = Some q ->
            (forall id t, running q = Some (id, t) -> ends t)
            /\ (forall id t, (id, t) ∈ outstanding q -> ends t).

(** *** The submissions of the service *)

Section WithResources.
Context `{Resources}.
Implicit Types (p sourceProvider targetProvider : Provider W).

(* ensureWriteQueue(provider, resource).queue(async () => ...) of
   doWriteBuffered, on the providers as they are *)
Definition doWriteBuffered (fuel : nat) p (resource : URI) (id : nat)
           (readableOrStream : list bytes) (w : W) : Action :=
  let queueKey := Watchers.toMapKey (IFileSystemProvider.capabilities p w) resource in
  Submit queueKey id (doWriteBufferedQueued fuel p resource readableOrStream).

(* ensureWriteQueue(provider, resource).queue(() =>
   this.doWriteUnbufferedQueued(provider, resource, data)) *)
Definition doWriteUnbuffered p (resource : URI) (id : nat) (data : WriteData) (w : W)
  : Action :=
  let queueKey := Watchers.toMapKey (IFileSystemProvider.capabilities p w) resource in
  Submit queueKey id (doWriteUnbufferedQueued p resource data).

(* ensureWriteQueue(targetProvider, target).queue(() =>
   this.doPipeBufferedQueued(sourceProvider, source, targetProvider, target)) *)
Definition doPipeBuffered (fuel : nat) sourceProvider (source : URI)
           targetProvider (target : URI) (id : nat) (w : W) : Action :=
  let queueKey :=
      Watchers.toMapKey (IFileSystemProvider.capabilities targetProvider w) target in
  Submit queueKey id
         (doPipeBufferedQueued fuel sourceProvider source targetProvider target).

(* ensureWriteQueue(targetProvider, target).queue(() =>
   this.doPipeUnbufferedQueued(sourceProvider, source, targetProvider, target)) *)
Definition doPipeUnbuffered sourceProvider (source : URI) targetProvider (target : URI)
           (id : nat) (w : W) : Action :=
  let queueKey :=
      Watchers.toMapKey (IFileSystemProvider.capabilities targetProvider w) target in
  Submit queueKey id (doPipeUnbufferedQueued sourceProvider source targetProvider target).

(* ensureWriteQueue(targetProvider, target).queue(() =>
   this.doPipeUnbufferedToBufferedQueued(sourceProvider, source, targetProvider, target)) *)
Definition doPipeUnbufferedToBuffered (fuel : nat) sourceProvider (source : URI)
           targetProvider (target : URI) (id : nat) (w : W) : Action :=
  let queueKey :=
      Watchers.toMapKey (IFileSystemProvider.capabilities targetProvider w) target in
  Submit queueKey id
         (doPipeUnbufferedToBufferedQueued fuel sourceProvider source targetProvider target).
End WithResources.
End WithWorld.

Arguments Queue : clear implicits.
Arguments State : clear implicits.
Arguments Action : clear implicits.
End WriteQueue.

(** ** What an operation leaves alone *)

Section Frames.
Context {W : Type}.

(* the computation fires nothing on _onAfterOperation *)
Definition silent {A} (c : M W A) : Prop :=
  forall st r st', c st = Some (r, st') -> afterOperation st' = afterOperation st.

(* the computation changes nothing of the service but the backing state
   of the providers *)
Definition worldly {A} (c : M W A) : Prop :=
  forall st r st', c st = Some (r, st') -> st' = withWorld (world st') st.

(* the computation fires one event, when it returns and as its last
   step, and none when it throws *)
Definition announces {A} (event : A -> FileOperationEvent) (c : M W A) : Prop :=
  forall st,
    match c st with
    | Some (Return a, st') => afterOperation st' = (afterOperation st ++ [event a])%list
    | Some (Throw _, st') => afterOperation st' = afterOperation st
    | None => True
    end.
End Frames.

(** ** More of the service *)

(* the limit is a number and the size is beyond it *)
Definition exceeds (size : Z) (limit : option Z) : bool :=
  match limit with Some limit => limit <? size | None => false end.

Module IResolveFileResult.
Record t := mk { stat : option IFileStat.t; success : bool }.
End IResolveFileResult.

Section MoreFileServiceMethods.
Context {W : Type} `{Resources} `{Files}.
Implicit Types (resource source target : URI) (p : Provider W).

(* toResolve.map(async entry => ...) under Promise.all: the entries are
   taken in order *)
Definition resolveAll (fuel : nat)
           (toResolve : list (URI * option IResolveFileOptions.t))
  : M W (list IResolveFileResult.t) :=
  mapM (fun '(resource, options) =>
          tryCatch
            (stat ← doResolveFile fuel resource options;
             mret (IResolveFileResult.mk (Some stat) true))
            (fun error => mret (IResolveFileResult.mk None false)))
       toResolve.

Definition validateReadFile (fuel : nat) resource (options : option IReadFileOptions.t)
  : M W IFileStat.t :=
  stat ← resolve fuel resource resolveMetadataOnly;
  (* Throw if resource is a directory *)
  if IFileStat.isDirectory stat
  then throw (FileOperationError "fileIsDirectoryReadError" FILE_IS_DIRECTORY)
  (* Throw if file not modified since (unless disabled) *)
  else if match options ≫= IReadFileOptions.etag with
          | Some tag => negb (bool_decide (tag = ETAG_DISABLED))
                        && bool_decide (Some tag = IFileStat.etag stat)
          | None => false
          end
  then throw (FileOperationError "fileNotModifiedError" FILE_NOT_MODIFIED_SINCE)
  else
    (* Throw if file is too large to load; a size that is undefined is
       not beyond any limit *)
    match IFileStat.size stat with
    | Some size => validateReadFileLimits resource size options
    | None => mret tt
    end;;
    mret stat.

(* an error at the root of a resolve: the provider is not found, or the
   stat of the resource itself fails *)
Definition rootFailure resource (st : FileService W) (e : Error)
           (st' : FileService W) : Prop :=
  withProvider resource st = Some (Throw e, st')
  \/ exists p st1, withProvider resource st = Some (Return p, st1)
                   /\ call (IFileSystemProvider.stat p resource) st1 = Some (Throw e, st').
End MoreFileServiceMethods.

(** ** The registration of providers

    [registerProvider] adds to the state of the service the events of
    [_onDidChangeFileSystemProviderRegistrations] and, for each
    registration, the store of the listeners that forward the events of
    the provider. *)
Module Registration.

(* IFileSystemProviderRegistrationEvent: { added, scheme, provider } *)
Record Event (W : Type) := mkEvent {
  ev_added : bool;
  ev_scheme : string;
  ev_provider : Provider W
}.
Arguments mkEvent {W}. Arguments ev_added {W}. Arguments ev_scheme {W}.
Arguments ev_provider {W}.

Record State (W : Type) := mkState {
  service : FileService W;
  (* fired on _onDidChangeFileSystemProviderRegistrations, oldest first *)
  registrations : list (Event W);
  (* const providerDisposables = new DisposableStore(), one for each
     registration: has it been disposed *)
  providerDisposables : list bool
}.
Arguments mkState {W}. Arguments service {W}. Arguments registrations {W}.
Arguments providerDisposables {W}.

(* what the closure of the returned disposable holds *)
Record Registration (W : Type) := mkRegistration {
  registeredScheme : string;
  registeredProvider : Provider W;
  store : nat
}.
Arguments mkRegistration {W}. Arguments registeredScheme {W}.
Arguments registeredProvider {W}. Arguments store {W}.

Section Methods.
Context {W : Type}.

Definition setProviders (providers : gmap string (Provider W)) (s : FileService W)
  : FileService W :=
  mkFileService (world s) providers (willActivate s) (afterOperation s).

(* this.provider *)
Definition registry (st : State W) : gmap string (Provider W) :=
  provider (service st).

Definition registerProvider (scheme : string) (provider : Provider W) (st : State W)
  : outcome (Registration W) * State W :=
  if bool_decide (is_Some (registry st !! scheme))
  then (Throw (PlainError "A filesystem provider for the scheme is already registered."),
        st)
  else
    (Return (mkRegistration scheme provider (List.length (providerDisposables st))),
     mkState
       (* Add provider with event *)
       (setProviders (<[scheme := provider]> (registry st)) (service st))
       (registrations st ++ [mkEvent true scheme provider])
       (* Forward events from provider *)
       (providerDisposables st ++ [false])).

(* the function of the disposable that registerProvider returns *)
Definition unregister (r : Registration W) (st : State W) : State W :=
  mkState
    (setProviders (delete (registeredScheme r) (registry st)) (service st))
    (registrations st ++ [mkEvent false (registeredScheme r) (registeredProvider r)])
    (<[store r := true]> (providerDisposables st)).

Definition canHandleResource (resource : URI) (s : FileService W) : bool :=
  bool_decide (is_Some (provider s !! scheme resource)).

Definition hasCapability (resource : URI) (capability : Z) (s : FileService W) : bool :=
  match provider s !! scheme resource with
  | Some provider =>
    hasCapabilityBit (IFileSystemProvider.capabilities provider (world s)) capability
  | None => false
  end.
End Methods.
End Registration.

(** ** A provider that writes a few bytes at a time *)

(* data.slice(offset, offset + length), for indices within the array *)
Definition range (data : bytes) (offset length : Z) : bytes :=
  take (Z.to_nat length) (drop (Z.to_nat offset) data).

Module ShortWrites.
Import MemFS.

(* like [MemFS.write], but a call takes at most [most] bytes *)
Definition write (most : Z) (fd pos : Z) (data : bytes) (offset length : Z)
  : PM World Z :=
  MemFS.write fd pos data offset (Z.min length most).

Definition provider (most : Z) (id : nat) (capabilities : Z) : Provider World :=
  IFileSystemProvider.mk World id (fun _ => capabilities)
    stat readdir mkdir delete rename copy readFile writeFile
    open close read (write most) watch.

(* the content of a file of the backing state *)
Definition contentOf (u : URI) (w : World) : option bytes :=
  match lookup u w with
  | Some (FileNode content _) => Some content
  | _ => None
  end.
End ShortWrites.

(** ** More fixtures *)

Module Archive.
Import MemFS FileSystemProviderCapabilities.

(* unbuffered and positional, read only *)
Definition archive : Provider World :=
  MemFS.provider 4 (Z.lor (Z.lor FileReadWrite FileOpenReadWriteClose)
                          (Z.lor Readonly PathCaseSensitive)).

(* streamed only, read only *)
Definition tape : Provider World :=
  MemFS.provider 6 (Z.lor FileReadStream (Z.lor Readonly PathCaseSensitive)).

Definition old_txt : URI := uri "archive" "/old.txt".

Definition reel : URI := uri "tape" "/reel".

Definition st0 : FileService World :=
  service (("archive", archive) :: ("tape", tape) :: Fixture.providers)
          [dir (uri "archive" "/") 0; file old_txt "old" 1;
           dir (uri "tape" "/") 0; file reel "reel" 1;
           dir (uri "mem" "/") 0].
End Archive.

Module Slow.
Import MemFS FileSystemProviderCapabilities.

(* unbuffered and positional; a write takes two bytes at a time *)
Definition capabilities : Z :=
  Z.lor (Z.lor FileReadWrite FileOpenReadWriteClose) PathCaseSensitive.

Definition slow : Provider World := ShortWrites.provider 2 5 capabilities.

Definition log_txt : URI := uri "slow" "/log.txt".

Definition st0 : FileService World :=
  service [("slow", slow)] [dir (uri "slow" "/") 0; file log_txt "old content" 1].

(* more chunks than writeFile consumes ahead *)
Definition four : WriteData :=
  ofStream [Fixture.text "ab"; Fixture.text "cde"; Fixture.text "f"; Fixture.text "gh"].

Definition two : WriteData := ofReadable [Fixture.text "ab"; Fixture.text "cde"].
End Slow.

Module Quota.
Import MemFS.

(* like [MemFS.write], but the device takes no byte beyond [quota] *)
Definition write (quota : Z) (fd pos : Z) (data : bytes) (offset length : Z)
  : PM World Z :=
  fun w =>
    if quota <? pos + length then (Throw (FileSystemProviderError Unavailable), w)
    else MemFS.write fd pos data offset length w.

Definition provider (quota : Z) (id : nat) (capabilities : Z) : Provider World :=
  IFileSystemProvider.mk World id (fun _ => capabilities)
    stat readdir mkdir delete rename copy readFile writeFile
    open close read (write quota) watch.
End Quota.

(** Writes of one resource that overlap *)
Module WriteFixture.
Import PosixResources MemFS WriteQueue.


Definition a_txt : URI := uri "slow" "/a.txt".

Definition key : string := "slow:///a.txt".

Definition start : World :=
  mkWorld [dir (uri "slow" "/") 0; file a_txt "xyz12" 1] [] 1000 [].

Definition chunks : list bytes := [Fixture.text "se"; Fixture.text "cond"].

Definition first : Action World :=
  doWriteUnbuffered Slow.slow a_txt 1 (ofBuffer (Fixture.text "first")) start.

Definition second : Action World := doWriteBuffered 4 Slow.slow a_txt 2 chunks start.

Definition third : Action World :=
  doWriteUnbuffered Slow.slow a_txt 3 (ofBuffer (Fixture.text "third")) start.


(* the first write runs and ends; then the second opens, writes two
   bytes at a time and closes *)
Definition turns : list (Action World) :=
  [Advance key; Settle key;
   Advance key; Advance key; Advance key; Advance key; Advance key; Settle key].

Definition actions : list (Action World) := first :: second :: turns.

End WriteFixture.

(** * Properties *)

(** ** Running the monad *)

Lemma bind_run {W A B} (c : M W A) (f : A -> M W B) st :
  (c ≫= f) st =
  match c st with
  | Some (Return a, st') => f a st'
  | Some (Throw e, st') => Some (Throw e, st')
  | None => None
  end.
Proof. reflexivity. Qed.

Lemma ret_run {W A} (a : A) (st : FileService W) :
  (mret a : M W A) st = Some (Return a, st).
Proof. reflexivity. Qed.

Lemma call_run {W A} (op : PM W A) (st : FileService W) :
  call op st = Some (fst (op (world st)), withWorld (snd (op (world st))) st).
Proof. unfold call. destruct (op (world st)); reflexivity. Qed.

Lemma probe_run {W A} (f : W -> A) (st : FileService W) :
  probe f st = Some (Return (f (world st)), st).
Proof. reflexivity. Qed.

Lemma throw_run {W A} (e : Error) (st : FileService W) :
  (throw e : M W A) st = Some (Throw e, st).
Proof. reflexivity. Qed.

Lemma tryCatch_run {W A} (c : M W A) handler st :
  tryCatch c handler st
  = match c st with
    | Some (Throw e, st') => handler e st'
    | r => r
    end.
Proof. reflexivity. Qed.

Lemma bind_returns {W A B} (c : M W A) (f : A -> M W B) st b st' :
  (c ≫= f) st = Some (Return b, st') ->
  exists a st1, c st = Some (Return a, st1) /\ f a st1 = Some (Return b, st').
Proof.
  rewrite bind_run. destruct (c st) as [[[a|e] st1]|]; [|discriminate..].
  intros Hf. by exists a, st1.
Qed.

Lemma withWorld_world {W} (st : FileService W) : withWorld (world st) st = st.
Proof. destruct st; reflexivity. Qed.

(* a closed disequality, by evaluation *)
Ltac differ := let E := fresh in intros E; vm_compute in E; discriminate E.

Ltac run :=
  repeat (rewrite ?bind_run, ?ret_run, ?call_run, ?probe_run, ?throw_run; cbn [fst snd]).

Section ReadWriteProperties.
Context {W : Type} `{Resources} `{Files}.
Implicit Types (p : Provider W) (st : FileService W).

Lemma slice_from (buffer : bytes) (position : Z) :
    0 <= position -> slice buffer position None = drop (Z.to_nat position) buffer.
Proof.
    intros Hpos. unfold slice, clampIndex.
    destruct (position <? 0) eqn:E; [lia|].
    set (len := Z.of_nat (List.length buffer)).
    destruct (decide (position <= len)) as [Hle|Hgt].
    - rewrite Z.min_l by lia. apply take_ge. rewrite length_drop. unfold len. lia.
    - rewrite Z.min_r by lia. rewrite !drop_ge by (unfold len in *; lia).
      apply take_nil.
Qed.

Lemma slice_upto (buffer : bytes) (length : Z) :
    0 <= length -> slice buffer 0 (Some length) = take (Z.to_nat length) buffer.
Proof.
    intros Hlen. unfold slice, clampIndex. cbn [Z.ltb Z.compare].
    destruct (length <? 0) eqn:E; [lia|].
    set (len := Z.of_nat (List.length buffer)).
    rewrite (Z.min_l 0 len) by (unfold len; lia). rewrite Z2Nat.inj_0, drop_0.
    destruct (decide (length <= len)) as [Hle|Hgt].
    - rewrite Z.min_l by lia. f_equal. lia.
    - rewrite Z.min_r by lia. rewrite !take_ge by (unfold len in *; lia). reflexivity.
Qed.

  (** C8.  An unbuffered read returns the buffer of the provider, sliced
      from [options.position] when that is a number and then cut to
      [options.length] when that is a number; it throws only when a
      limit of [options.limits] is exceeded.  For a position and a
      length that are not negative the two slices are [drop] and [take];
      a length of 0 gives no bytes, whatever the position. *)
Theorem readFileUnbuffered_slices p resource (options : IReadFileOptions.t) st B w' :
    IFileSystemProvider.readFile p resource (world st) = (Return B, w') ->
    let sliced :=
        match IReadFileOptions.position options with
        | Some position => slice B position None
        | None => B
        end in
    let result :=
        match IReadFileOptions.length options with
        | Some length => slice sliced 0 (Some length)
        | None => sliced
        end in
    (forall r st', readFileUnbuffered p resource (Some options) st = Some (Return r, st') ->
                   r = result /\ st' = withWorld w' st)
    /\ (IReadFileOptions.limits options = None ->
        readFileUnbuffered p resource (Some options) st
        = Some (Return result, withWorld w' st))
    /\ (forall position, IReadFileOptions.position options = Some position ->
                         0 <= position -> sliced = drop (Z.to_nat position) B)
    /\ (forall length, IReadFileOptions.length options = Some length ->
                       0 <= length -> result = take (Z.to_nat length) sliced)
    /\ (IReadFileOptions.length options = Some 0 -> result = []).
Proof.
    intros Hread sliced result.
    assert (Hrun : readFileUnbuffered p resource (Some options) st
                   = (validateReadFileLimits resource (byteLength result) (Some options)
                        ≫= fun _ => mret result) (withWorld w' st)).
    { unfold readFileUnbuffered. run. rewrite Hread. reflexivity. }
    split; [|split; [|split; [|split]]].
    - intros r st'. rewrite Hrun, bind_run.
      destruct (validateReadFileLimits _ _ _ _) as [[[[]|e] st'']|] eqn:E; try discriminate.
      rewrite ret_run. intros [= <- <-]. split; [reflexivity|].
      unfold validateReadFileLimits in E. cbn in E.
      destruct (IReadFileOptions.limits options) as [l|]; [|by inversion E].
      repeat match type of E with
             | context [match ?x with _ => _ end] => destruct x
             end; by inversion E.
    - intros Hlim. rewrite Hrun. unfold validateReadFileLimits. cbn. rewrite Hlim. reflexivity.
    - intros position Hp Hpos. subst sliced. rewrite Hp. by apply slice_from.
    - intros length Hl Hlen. subst result. rewrite Hl. by apply slice_upto.
    - intros Hl. subst result. rewrite Hl. rewrite slice_upto by lia. reflexivity.
Qed.



Lemma withProvider_run resource st :
    withProvider resource st =
    if isAbsolutePath resource then
      let st1 := mkFileService (world st) (willActivate st (scheme resource) (provider st))
                               (willActivate st) (afterOperation st) in
      match provider st1 !! scheme resource with
      | Some p => Some (Return p, st1)
      | None => Some (Throw (PlainError "ENOPRO"), st1)
      end
    else Some (Throw (FileOperationError "invalidPath" FILE_INVALID_PATH), st).
Proof.
    unfold withProvider. destruct (isAbsolutePath resource); [|reflexivity].
    cbn [negb]. rewrite bind_run. unfold activateProvider. rewrite bind_run.
    unfold getProvider. cbn [provider].
    destruct (willActivate st (scheme resource) (provider st) !! scheme resource);
      reflexivity.
Qed.

  (** C5 (amended).  [exists] first resolves the provider, and an error
      of that step propagates to the caller: a relative path fails with
      FILE_INVALID_PATH.  Once the provider is there, [exists] runs its
      [stat] and returns [true] when that returns and [false] when it
      throws; it never throws itself. *)
Theorem exists_catches_the_errors_of_stat resource st :
    match withProvider resource st with
    | Some (Return p, st1) =>
      exists_ resource st
      = Some (Return (match fst (IFileSystemProvider.stat p resource (world st1)) with
                      | Return _ => true
                      | Throw _ => false
                      end),
              withWorld (snd (IFileSystemProvider.stat p resource (world st1))) st1)
    | Some (Throw e, st1) =>
      exists_ resource st = Some (Throw e, st1)
      /\ (isAbsolutePath resource = false ->
          e = FileOperationError "invalidPath" FILE_INVALID_PATH)
    | None => False
    end.
Proof.
    unfold exists_. rewrite bind_run.
    destruct (withProvider resource st) as [[[p|e] st1]|] eqn:E.
    - unfold tryCatch. run.
      destruct (IFileSystemProvider.stat p resource (world st1)) as [[s|e] w]; reflexivity.
    - split; [reflexivity|]. intros Habs. rewrite withProvider_run, Habs in E.
      by inversion E.
    - rewrite withProvider_run in E. destruct (isAbsolutePath resource); [|discriminate].
      cbn in E.
      by destruct (willActivate st (scheme resource) (provider st) !! scheme resource).
Qed.


End ReadWriteProperties.

(** ** Runs on the in-memory provider *)

Section ReadWriteRuns.
Import PosixResources Fixture.

  (** C8, at an input: position 1 and length 3 of "hello" are "ell". *)
Lemma readFileUnbuffered_slices_witness :
    IFileSystemProvider.readFile mem b_txt (world st0) = (Return (text "hello"), world st0)
    /\ readFileUnbuffered mem b_txt (Some (readOptions (Some 1) (Some 3))) st0
       = Some (Return (text "ell"), st0)
    /\ readFileUnbuffered mem b_txt (Some (readOptions (Some 4) (Some 0))) st0
       = Some (Return [], st0).
Proof.
    split; [reflexivity|split].
    - destruct (readFileUnbuffered_slices mem b_txt (readOptions (Some 1) (Some 3))
                                          st0 (text "hello") (world st0) eq_refl)
        as (_ & Hrun & _).
      exact (Hrun eq_refl).
    - destruct (readFileUnbuffered_slices mem b_txt (readOptions (Some 4) (Some 0))
                                          st0 (text "hello") (world st0) eq_refl)
        as (_ & Hrun & _).
      exact (Hrun eq_refl).
Defined.



  (** C5, as it is stated, fails: [exists] of a resource with a relative
      path, and of a resource whose scheme has no provider, throws. *)
Lemma exists_propagates_counterexample :
    exists_ (MemFS.uri "mem" "a/b.txt") st0
    = Some (Throw (FileOperationError "invalidPath" FILE_INVALID_PATH), st0)
    /\ exists_ (MemFS.uri "ftp" "/a/b.txt") st0
       = Some (Throw (PlainError "ENOPRO"), st0).
Proof. split; reflexivity. Qed.

End ReadWriteRuns.

(** ** Termination of mkdirp *)

Section MkdirpTermination.
Context {W : Type} `{Resources} `{Files}.
Implicit Types (p : Provider W) (st : FileService W).
Variable measure : URI -> nat.
Hypothesis dirname_shortens :
  forall d, isEqual d (dirname d) None = false -> (measure (dirname d) < measure d)%nat.

(* one round of the upward walk does not depend on the fuel *)
Lemma mkdirpUp_step fuel p directory dirs st :
  isEqual directory (dirname directory) None = false ->
  mkdirpUp (S fuel) p directory dirs st =
  match fst (IFileSystemProvider.stat p directory (world st)) with
  | Return stat =>
    if Z.land (IStat.type stat) FileType.Directory =? 0
    then Some (Throw (PlainError "mkdirExistsError"),
               withWorld (snd (IFileSystemProvider.stat p directory (world st))) st)
    else Some (Return (directory, dirs),
               withWorld (snd (IFileSystemProvider.stat p directory (world st))) st)
  | Throw error =>
    if bool_decide (toFileSystemProviderErrorCode error = FileNotFound)
    then mkdirpUp fuel p (dirname directory) (dirs ++ [basename directory])%list
                  (withWorld (snd (IFileSystemProvider.stat p directory (world st))) st)
    else Some (Throw error,
               withWorld (snd (IFileSystemProvider.stat p directory (world st))) st)
  end.
Proof.
  intros Hne. cbn [mkdirpUp]. rewrite Hne. rewrite bind_run. unfold tryCatch.
  rewrite bind_run. unfold call.
  destruct (IFileSystemProvider.stat p directory (world st)) as [[stat|error] w].
  - cbn [fst snd]. destruct (Z.land (IStat.type stat) FileType.Directory =? 0); reflexivity.
  - cbn [fst snd]. destruct (bool_decide (toFileSystemProviderErrorCode error = FileNotFound));
      reflexivity.
Qed.

Lemma mkdirpUp_terminates p n :
  forall directory dirs st,
    (measure directory <= n)%nat ->
    exists r, forall fuel, (measure directory <= fuel)%nat ->
                           mkdirpUp fuel p directory dirs st = Some r.
Proof.
  induction n as [|n IH]; intros directory dirs st Hn;
    destruct (isEqual directory (dirname directory) None) eqn:E.
  - exists (Return (directory, dirs), st). intros fuel _.
    destruct fuel; cbn [mkdirpUp]; rewrite E; reflexivity.
  - apply dirname_shortens in E. lia.
  - exists (Return (directory, dirs), st). intros fuel _.
    destruct fuel; cbn [mkdirpUp]; rewrite E; reflexivity.
  - pose proof (dirname_shortens _ E) as Hlt.
    set (w := snd (IFileSystemProvider.stat p directory (world st))).
    destruct (IH (dirname directory) (dirs ++ [basename directory])%list
                 (withWorld w st) ltac:(lia)) as [r Hr].
    destruct (fst (IFileSystemProvider.stat p directory (world st)))
      as [stat|error] eqn:Hstat.
    + destruct (Z.land (IStat.type stat) FileType.Directory =? 0) eqn:Hdir;
        eexists; intros fuel Hfuel; (destruct fuel as [|fuel]; [lia|]);
        rewrite (mkdirpUp_step _ _ _ _ _ E), Hstat, Hdir; reflexivity.
    + destruct (bool_decide (toFileSystemProviderErrorCode error = FileNotFound)) eqn:Hcode.
      * exists r. intros fuel Hfuel. destruct fuel as [|fuel]; [lia|].
        rewrite (mkdirpUp_step _ _ _ _ _ E), Hstat, Hcode. apply Hr. lia.
      * eexists. intros fuel Hfuel. destruct fuel as [|fuel]; [lia|].
        rewrite (mkdirpUp_step _ _ _ _ _ E), Hstat, Hcode. reflexivity.
Qed.

Lemma mkdirpDown_total p (reversed : list string) :
  forall directory st, exists r, mkdirpDown p directory reversed st = Some r.
Proof.
  induction reversed as [|name reversed IH]; intros directory st.
  - eexists. reflexivity.
  - cbn [mkdirpDown]. rewrite bind_run. unfold call.
    destruct (IFileSystemProvider.mkdir p (joinPath directory name) (world st))
      as [[[]|error] w].
    + apply IH.
    + eexists. reflexivity.
Qed.

(** C10.  [mkdirp] terminates for every directory, whatever the provider
    answers: when [dirname] strictly decreases a measure of the resource
    (the length of its path) as long as the resource is not equal to its
    own [dirname], the upward walk stops within that many rounds, and
    the downward loop runs once per collected name.  With fuel for that
    many rounds [mkdirp] gives its result, the same for any more fuel. *)
Theorem mkdirp_terminates p directory st :
  exists r, forall fuel, (measure directory <= fuel)%nat ->
                         mkdirp fuel p directory st = Some r.
Proof.
  destruct (mkdirpUp_terminates p (measure directory) directory [] st ltac:(lia))
    as [[[[stop dirs]|error] st1] Hup].
  - destruct (mkdirpDown_total p (reverse dirs) stop st1) as [r Hdown].
    exists r. intros fuel Hfuel. unfold mkdirp. rewrite bind_run, (Hup fuel Hfuel).
    exact Hdown.
  - eexists. intros fuel Hfuel. unfold mkdirp. rewrite bind_run, (Hup fuel Hfuel).
    reflexivity.
Qed.
End MkdirpTermination.

Section PosixDirname.
Import PosixResources.

Lemma beforeLastSlash_shorter (s d : string) :
  beforeLastSlash s = Some d -> (String.length d < String.length s)%nat.
Proof.
  revert d. induction s as [|c s IH]; intros d; cbn [beforeLastSlash]; [discriminate|].
  destruct (beforeLastSlash s) as [d'|].
  - intros [= <-]. cbn [String.length]. specialize (IH d' eq_refl). lia.
  - destruct (isSlash c); [|discriminate]. intros [= <-]. cbn [String.length]. lia.
Qed.

Lemma dirnamePath_shorter (s : string) :
  dirnamePath s <> s -> (String.length (dirnamePath s) < String.length s)%nat.
Proof.
  unfold dirnamePath. destruct (beforeLastSlash s) as [d|] eqn:E; [|done].
  pose proof (beforeLastSlash_shorter _ _ E) as Hlt.
  destruct d as [|c d]; [|intros _; exact Hlt].
  intros Hne. destruct s as [|a [|b s]]; cbn [String.length] in *; try lia.
  exfalso. apply Hne. cbn [beforeLastSlash] in E.
  unfold isSlash in E. case_bool_decide; [by subst|discriminate].
Qed.

Lemma posix_dirname_shortens (d : URI) :
  isEqual d (dirname d) None = false ->
  (String.length (path (dirname d)) < String.length (path d))%nat.
Proof.
  cbn. unfold sameString. cbn [default]. intros Hne.
  apply bool_decide_eq_false_1 in Hne. apply dirnamePath_shorter.
  intros Heq. apply Hne. unfold withPath. rewrite Heq. by destruct d.
Qed.

(** C10, at an input: the POSIX [dirname] shortens the path, and
    [mkdirp] of [mem:///a/x/y] ends within 6 rounds. *)
Lemma mkdirp_terminates_witness :
  (forall d, isEqual d (dirname d) None = false ->
             (String.length (path (dirname d)) < String.length (path d))%nat)
  /\ exists r, forall fuel, (6 <= fuel)%nat ->
                           mkdirp fuel Fixture.mem (MemFS.uri "mem" "/a/x/y") Fixture.st0
                           = Some r.
Proof.
  split; [exact posix_dirname_shortens|].
  exact (mkdirp_terminates (fun d => String.length (path d)) posix_dirname_shortens
                           Fixture.mem (MemFS.uri "mem" "/a/x/y") Fixture.st0).
Defined.
End PosixDirname.


(** ** The directories that resolve expands *)

Section ResolveProperties.
Context {W : Type} `{Resources} `{Files}.
Implicit Types (p : Provider W) (st : FileService W).
Import TernarySearchTree.

Lemma elem_of_resolveTrie root resolveTo e :
  e ∈ resolveTrie root resolveTo
  <-> exists seed, seed ∈ root :: default [] resolveTo /\ e = (segments (toString seed), true).
Proof.
  assert (Hfold : forall (uris : list URI) (trie : t bool),
             e ∈ foldl (fun trie uri => set (toString uri) true trie) trie uris
             <-> e ∈ trie \/ exists seed, seed ∈ uris /\ e = (segments (toString seed), true)).
  { induction uris as [|uri uris IH]; intros trie; cbn [foldl].
    - split; [tauto|]. intros [?|(seed & Hin & _)]; [done|]. by apply elem_of_nil in Hin.
    - rewrite IH. unfold set. rewrite elem_of_cons. split.
      + intros [[->|?]|(seed & Hin & ->)]; [right|by left|right].
        * exists uri. split; [apply elem_of_cons; by left|done].
        * exists seed. split; [apply elem_of_cons; by right|done].
      + intros [?|(seed & Hin & ->)]; [tauto|].
        apply elem_of_cons in Hin as [->|Hin]; [tauto|].
        right. by exists seed. }
  unfold resolveTrie.
  assert (Hroot : forall e', e' ∈ set (toString root) true (@forPaths bool)
                             <-> e' = (segments (toString root), true)).
  { intros e'. unfold set, forPaths. rewrite elem_of_cons, elem_of_nil. tauto. }
  destruct resolveTo as [[|uri uris]|]; cbn [default].
  - rewrite Hroot. split.
    + intros ->. exists root. split; [apply elem_of_cons; by left|done].
    + intros (seed & Hin & ->). apply elem_of_cons in Hin as [->|Hin]; [done|].
      by apply elem_of_nil in Hin.
  - rewrite Hfold, Hroot. split.
    + intros [->|(seed & Hin & ->)].
      * exists root. split; [apply elem_of_cons; by left|done].
      * exists seed. split; [apply elem_of_cons; by right|done].
    + intros (seed & Hin & ->). apply elem_of_cons in Hin as [->|Hin]; [by left|].
      right. by exists seed.
  - rewrite Hroot. split.
    + intros ->. exists root. split; [apply elem_of_cons; by left|done].
    + intros (seed & Hin & ->). apply elem_of_cons in Hin as [->|Hin]; [done|].
      by apply elem_of_nil in Hin.
Qed.

Lemma findSuperstr_is_Some {V} key (trie : t V) :
  is_Some (findSuperstr key trie)
  <-> exists e, e ∈ trie /\ segments key `prefix_of` fst e /\ segments key <> fst e.
Proof.
  unfold findSuperstr.
  assert (Hfilter : forall e, e ∈ List.filter (fun e => isBeneath (segments key) (fst e)) trie
                              <-> e ∈ trie /\ segments key `prefix_of` fst e
                                  /\ segments key <> fst e).
  { intros e. rewrite !list_elem_of_In, filter_In. unfold isBeneath.
    rewrite andb_true_iff, negb_true_iff, bool_decide_eq_true, bool_decide_eq_false.
    tauto. }
  destruct (List.filter _ trie) as [|e sub] eqn:E.
  - split; [intros [? [=]]|]. intros (e & He). apply Hfilter in He.
    by apply elem_of_nil in He.
  - split; [|by eexists]. intros _. exists e. apply Hfilter. apply elem_of_cons. by left.
Qed.

Lemma get_true key (trie : t bool) :
  (forall e, e ∈ trie -> snd e = true) ->
  default false (get key trie) = true <-> exists e, e ∈ trie /\ fst e = segments key.
Proof.
  intros Hall. unfold get.
  destruct (List.find _ trie) as [e|] eqn:E; cbn.
  - apply find_some in E as [Hin Heq]. apply bool_decide_eq_true in Heq.
    apply list_elem_of_In in Hin. rewrite (Hall e Hin). split; [|done]. by exists e.
  - split; [done|]. intros (e & Hin & Heq). apply list_elem_of_In in Hin.
    pose proof (find_none _ _ E e Hin) as Hno. cbn in Hno.
    by apply bool_decide_eq_false in Hno.
Qed.

Lemma recurseInto_spec root resolveTo rSCD (node : IFileStat.t) siblings :
  recurseInto root resolveTo rSCD node siblings = true
  <-> hasEntryAtOrBeneath root resolveTo (IFileStat.resource node)
      \/ (IFileStat.isDirectory node = true /\ rSCD = Some true /\ siblings = Some 1).
Proof.
  unfold recurseInto, hasEntryAtOrBeneath.
  set (trie := resolveTrie root resolveTo).
  set (key := toString (IFileStat.resource node)).
  assert (Hall : forall e, e ∈ trie -> snd e = true).
  { intros e He. apply elem_of_resolveTrie in He as (seed & _ & ->). done. }
  assert (Htrie : bool_decide (is_Some (findSuperstr key trie)) || default false (get key trie)
                  = true
                  <-> exists seed, seed ∈ root :: default [] resolveTo
                                   /\ segments key `prefix_of` segments (toString seed)).
  { rewrite orb_true_iff, bool_decide_eq_true, findSuperstr_is_Some, (get_true _ _ Hall).
    split.
    - intros [(e & He & Hpre & _)|(e & He & Heq)];
        apply elem_of_resolveTrie in He as (seed & Hseed & ->); exists seed;
          (split; [done|]); cbn in *; [done|by rewrite Heq].
    - intros (seed & Hseed & Hpre).
      destruct (decide (segments key = segments (toString seed))) as [Heq|Hne].
      + right. exists (segments (toString seed), true). split; [|done].
        apply elem_of_resolveTrie. by exists seed.
      + left. exists (segments (toString seed), true). split; [|done].
        apply elem_of_resolveTrie. by exists seed. }
  destruct (bool_decide (is_Some (findSuperstr key trie)) || default false (get key trie))
           eqn:E.
  - split; [|done]. intros _. left. by apply Htrie.
  - assert (Hno : ~ exists seed, seed ∈ root :: default [] resolveTo
                                 /\ segments key `prefix_of` segments (toString seed)).
    { intros Hex. apply Htrie in Hex. discriminate. }
    destruct (IFileStat.isDirectory node), rSCD as [[|]|]; cbn;
      rewrite ?bool_decide_eq_true; split; try tauto; try done;
        try (intros [?|(? & ? & ?)]; [tauto|done]); try (intros [?|(? & ? & ?)]; tauto).
Qed.

Lemma toFileStat_run fuel p resource stat siblings resolveMetadata recurse st :
  toFileStat fuel p resource stat siblings resolveMetadata recurse st =
  let node := convertToFileStat resource stat in
  if IFileStat.isDirectory node && recurse node siblings then
    match fuel with
    | O => None
    | S fuel =>
      tryCatch
        (entries ← call (IFileSystemProvider.readdir p resource);
         resolvedEntries ← resolveEntries fuel p resource entries resolveMetadata recurse;
         mret (withChildren node (coalesce resolvedEntries)))
        (fun error => mret (withChildren node [])) st
    end
  else Some (Return node, st).
Proof.
  destruct fuel; cbn [toFileStat]; cbv zeta;
    destruct (IFileStat.isDirectory _ && recurse _ siblings); reflexivity.
Qed.

Lemma mapM_ext {A B} (f g : A -> M W B) l :
  forall st, (forall a st', a ∈ l -> f a st' = g a st') -> mapM f l st = mapM g l st.
Proof.
  induction l as [|a l IH]; intros st Hfg; [reflexivity|].
  cbn [mapM]. rewrite !bind_run, (Hfg a st) by (by left).
  destruct (g a st) as [[[b|e] st1]|]; [|done..].
  rewrite !bind_run, (IH st1); [done|]. intros a' st' Hin. apply Hfg. by right.
Qed.

(* for a directory, the callback of doResolveFile answers by the
   condition of the specification *)
Lemma recurseInto_decides root resolveTo rSCD (node : IFileStat.t) siblings :
  IFileStat.isDirectory node = true ->
  recurseInto root resolveTo rSCD node siblings
  = bool_decide (expandsBySpec root resolveTo rSCD (IFileStat.resource node) siblings).
Proof.
  intros Hdir. pose proof (recurseInto_spec root resolveTo rSCD node siblings) as Hspec.
  rewrite Hdir in Hspec.
  destruct (recurseInto root resolveTo rSCD node siblings); symmetry.
  - apply bool_decide_eq_true_2. unfold expandsBySpec.
    destruct (proj1 Hspec eq_refl) as [?|(_ & ? & ?)]; [by left|by right].
  - apply bool_decide_eq_false_2. unfold expandsBySpec. intros Hex.
    assert (Htrue : false = true); [|discriminate]. apply Hspec.
    destruct Hex as [?|[? ?]]; [by left|by right].
Qed.

(* toFileStat under the callback of a resolve is the traversal of the
   specification; the siblings of a node are the entries of the listing
   of its parent *)
Lemma toFileStat_traverses p root resolveTo rSCD resolveMetadata :
  forall fuel resource stat parentListing st,
    toFileStat fuel p resource stat
               ((fun listing => Z.of_nat (List.length listing)) <$> parentListing)
               resolveMetadata (recurseInto root resolveTo rSCD) st
    = traverseBySpec fuel p root resolveTo rSCD resolveMetadata resource stat
                     parentListing st.
Proof.
  induction fuel as [|fuel IH]; intros resource stat parentListing st;
    rewrite toFileStat_run; cbv zeta; cbn [traverseBySpec]; cbv zeta;
      destruct (IFileStat.isDirectory (convertToFileStat resource stat)) eqn:Hdir;
      cbn [andb]; try reflexivity;
        rewrite (recurseInto_decides _ _ _ _ _ Hdir);
        change (IFileStat.resource (convertToFileStat resource stat)) with resource;
        destruct (bool_decide (expandsBySpec _ _ _ _ _)); try reflexivity.
  rewrite !tryCatch_run, !bind_run.
  destruct (call (IFileSystemProvider.readdir p resource) st) as [[[listing|e] st1]|];
    [|done..].
  rewrite !bind_run. unfold resolveEntries.
  rewrite (mapM_ext _ (fun '(name, type) =>
                         tryCatch
                           (let child := joinPath resource name in
                            childStat ←
                              (if resolveMetadata
                               then call (IFileSystemProvider.stat p child)
                               else mret (IStat.mk type None None None));
                            resolved ← traverseBySpec fuel p root resolveTo rSCD
                                         resolveMetadata child childStat (Some listing);
                            mret (Some resolved))
                           (fun error => mret None))); [reflexivity|].
  intros [name type] st' _. rewrite !tryCatch_run. cbv zeta. rewrite !bind_run.
  destruct (if resolveMetadata then _ else _) as [[[childStat|e] st2]|]; [|done..].
  rewrite !bind_run. by rewrite <- (IH _ _ (Some listing)).
Qed.

(** C4.  A [resolve] is the traversal of the specification: from the
    resource of the resolve, which has no parent, every directory node
    that the traversal comes to is given children, that is its listing
    is read and every entry is come to in turn, if and only if (a) the
    trie seeded with the resource of the resolve and all of
    [options.resolveTo] has an entry at or beneath the resource of the
    node, or (b) [options.resolveSingleChildDescendants] is set and the
    listing of the parent of the node had exactly one entry; any other
    node is returned as it is.  The two runs agree on what is returned
    or thrown and on every call of a provider. *)
Theorem resolve_expands_by_spec fuel resource options st :
  resolve fuel resource options st = resolveBySpec fuel resource options st.
Proof.
  unfold resolve, resolveBySpec, doResolveFile. rewrite !tryCatch_run, !bind_run.
  destruct (withProvider resource st) as [[[p|e] st1]|]; [|done..].
  cbv zeta. rewrite !bind_run.
  destruct (call (IFileSystemProvider.stat p resource) st1) as [[[stat|e] st2]|]; [|done..].
  by rewrite <- (toFileStat_traverses _ _ _ _ _ _ _ _ None).
Qed.
End ResolveProperties.

Section ResolveRuns.
Import PosixResources Fixture.

(** In the resolve of [mem:///r/one] with
    [resolveSingleChildDescendants], the folder [only] is the single
    entry of its parent and is expanded. *)
Example resolve_single_child :
  (fun r => (fun c => (IFileStat.name c, childrenNames c))
              <$> default [] (IFileStat.children r))
    <$> returned (resolve 9 (MemFS.uri "mem" "/r/one")
                          (Some (resolveOptions None (Some true))) tree)
  = Some [("only", Some ["f"])].
Proof. vm_compute. reflexivity. Qed.

(** The resolve of [mem:///r] towards [mem:///r/two/g] expands [two],
    which is above an entry of the trie, and leaves [one], one of two
    entries, as it is. *)
Example resolve_towards_g :
  (fun r => (fun c => (IFileStat.name c, childrenNames c))
              <$> default [] (IFileStat.children r))
    <$> returned (resolve 9 (MemFS.uri "mem" "/r")
                          (Some (resolveOptions (Some [MemFS.uri "mem" "/r/two/g"])
                                                (Some true))) tree)
  = Some [("one", None); ("two", Some ["g"])].
Proof. vm_compute. reflexivity. Qed.
End ResolveRuns.


(** ** Move across providers *)

Section MoveProperties.
Context {W : Type} `{Resources} `{Files}.
Implicit Types (p : Provider W) (st : FileService W).

Lemma doMoveCopy_across_providers fuel sp source tp target overwrite st :
  sameProvider sp tp = false ->
  toString source <> toString target ->
  doMoveCopy (S fuel) sp source tp target ModeMove overwrite st
  = ('(exists', isSameResourceWithDifferentPathCase) ←
       doValidateMoveCopy sp source tp target ModeMove overwrite;
     (if exists' && negb isSameResourceWithDifferentPathCase && overwrite
      then del fuel target recursively
      else mret tt);;
     mkdirp fuel tp (dirname target);;
     doMoveCopy fuel sp source tp target ModeCopy overwrite;;
     del fuel source recursively;;
     mret ModeCopy) st.
Proof.
  intros Hsame Hne. cbn [doMoveCopy].
  rewrite (bool_decide_eq_false_2 _ Hne), Hsame. reflexivity.
Qed.

Lemma doMoveCopy_copy_returns_copy fuel sp source tp target overwrite st mode st' :
  doMoveCopy fuel sp source tp target ModeCopy overwrite st = Some (Return mode, st') ->
  mode = ModeCopy.
Proof.
  destruct fuel as [|fuel]; [discriminate|]. cbn [doMoveCopy].
  case_bool_decide; [by intros [= <- _]|]. intros Hrun.
  apply bind_returns in Hrun as ([ex same] & st1 & _ & Hrun).
  apply bind_returns in Hrun as ([] & st2 & _ & Hrun).
  apply bind_returns in Hrun as ([] & st3 & _ & Hrun).
  apply bind_returns in Hrun as (fast & st4 & _ & Hrun).
  apply bind_returns in Hrun as ([] & st5 & _ & Hrun).
  by injection Hrun as <- _.
Qed.

(** C2.  A [move] whose source and target resolve to two different
    providers (and so are different resources) and that returns has run
    as follows: after the validation, the deletion of an existing target
    and the creation of the parent folders, [doMoveCopy] has called
    itself in mode copy, then [del] of the source with [recursive], and
    has returned the mode copy; the event that [move] fires at the end
    on [onAfterOperation] is COPY, it is not MOVE. *)
Theorem move_across_providers fuel source target overwrite st0 sp st1 tp st fileStat st' :
  (withWriteProvider source ≫= fun p => throwIfFileSystemIsReadonly p source) st0
  = Some (Return sp, st1) ->
  (withWriteProvider target ≫= fun p => throwIfFileSystemIsReadonly p target) st1
  = Some (Return tp, st) ->
  sameProvider sp tp = false ->
  toString source <> toString target ->
  move (S fuel) source target overwrite st0 = Some (Return fileStat, st') ->
  exists st2 st3 st4 st5,
    ('(exists', isSameResourceWithDifferentPathCase) ←
       doValidateMoveCopy sp source tp target ModeMove (truthy overwrite);
     (if exists' && negb isSameResourceWithDifferentPathCase && truthy overwrite
      then del fuel target recursively
      else mret tt);;
     mkdirp fuel tp (dirname target)) st = Some (Return tt, st2)
    /\ doMoveCopy fuel sp source tp target ModeCopy (truthy overwrite) st2
       = Some (Return ModeCopy, st3)
    /\ del fuel source recursively st3 = Some (Return tt, st4)
    /\ doMoveCopy (S fuel) sp source tp target ModeMove (truthy overwrite) st
       = Some (Return ModeCopy, st4)
    /\ resolve (S fuel) target resolveMetadataOnly st4 = Some (Return fileStat, st5)
    /\ st' = mkFileService (world st5) (provider st5) (willActivate st5)
                           (afterOperation st5 ++ [mkEvent source COPY (Some fileStat)]).
Proof.
  intros Hsp Htp Hsame Hne Hmove. unfold move in Hmove.
  rewrite bind_run in Hsp. rewrite bind_run in Hmove.
  destruct (withWriteProvider source st0) as [[[sp0|e] sta]|]; try discriminate.
  rewrite bind_run, Hsp in Hmove.
  rewrite bind_run in Htp. rewrite bind_run in Hmove.
  destruct (withWriteProvider target st1) as [[[tp0|e] stb]|]; try discriminate.
  rewrite bind_run, Htp in Hmove.
  apply bind_returns in Hmove as (mode & st4 & Hmode & Hrest).
  apply bind_returns in Hrest as (fileStat' & st5 & Hresolve & Hfire).
  rewrite bind_run in Hfire. cbn in Hfire. injection Hfire as -> <-.
  rewrite (doMoveCopy_across_providers _ _ _ _ _ _ _ Hsame Hne) in Hmode.
  apply bind_returns in Hmode as ([ex same] & sta1 & Hvalidate & Hmode).
  apply bind_returns in Hmode as ([] & sta2 & Hdel & Hmode).
  apply bind_returns in Hmode as ([] & st2 & Hmkdirp & Hmode).
  apply bind_returns in Hmode as (mode' & st3 & Hcopy & Hmode).
  apply bind_returns in Hmode as ([] & st4' & Hdelsrc & Hmode).
  injection Hmode as <- <-.
  pose proof (doMoveCopy_copy_returns_copy _ _ _ _ _ _ _ _ _ Hcopy) as ->.
  exists st2, st3, st4', st5. repeat split; try assumption.
  - rewrite bind_run, Hvalidate, bind_run, Hdel. exact Hmkdirp.
  - rewrite (doMoveCopy_across_providers _ _ _ _ _ _ _ Hsame Hne).
    rewrite bind_run, Hvalidate, bind_run, Hdel, bind_run, Hmkdirp, bind_run, Hcopy,
      bind_run, Hdelsrc.
    reflexivity.
Qed.
End MoveProperties.

Section MoveRuns.
Import PosixResources Fixture.

(** C2, at an input: the move of [mem:///a/b.txt] to
    [disk:///x/y/b.txt], from the unbuffered to the positional provider. *)
Lemma move_across_providers_witness :
  let target := MemFS.uri "disk" "/x/y/b.txt" in
  sameProvider mem disk = false
  /\ toString b_txt <> toString target
  /\ exists fileStat st' st4,
      move 10 b_txt target None st0 = Some (Return fileStat, st')
      /\ doMoveCopy 10 mem b_txt disk target ModeMove false st0
         = Some (Return ModeCopy, st4)
      /\ afterOperation st'
         = [mkEvent b_txt DELETE None; mkEvent b_txt COPY (Some fileStat)]
      /\ MemFS.lookup b_txt (world st') = None
      /\ MemFS.lookup target (world st') = Some (MemFS.FileNode (text "hello") 1003).
Proof.
  intros target.
  assert (Hne : toString b_txt <> toString target) by differ.
  split; [reflexivity|split; [exact Hne|]].
  destruct (move 10 b_txt target None st0) as [[[fileStat|e] st']|] eqn:Hmove;
    [|exfalso; vm_compute in Hmove; discriminate Hmove..].
  assert (Hsp : (withWriteProvider b_txt
                   ≫= fun p => throwIfFileSystemIsReadonly p b_txt) st0
                = Some (Return mem, st0)) by reflexivity.
  assert (Htp : (withWriteProvider target
                   ≫= fun p => throwIfFileSystemIsReadonly p target) st0
                = Some (Return disk, st0)) by reflexivity.
  destruct (move_across_providers 9 b_txt target None st0 mem st0 disk st0 fileStat st'
                                  Hsp Htp eq_refl Hne Hmove)
    as (st2 & st3 & st4 & st5 & _ & _ & _ & Hmode & _ & _).
  exists fileStat, st', st4. split; [reflexivity|split; [exact Hmode|]].
  vm_compute in Hmove. injection Hmove as <- <-. repeat split.
Defined.
End MoveRuns.

(** ** The watcher multiplexer *)

Section CountIf.
Import Watchers.
Context {A : Type}.
Implicit Types (P : A -> bool) (l : list A).








End CountIf.

Section WatcherInvariant.
Import Watchers.
Context {W : Type} `{Resources}.
Implicit Types (st : State W) (h : Handle) (sv : FileService W).

Lemma keyAt_lt st a key : keyAt st a = Some key -> (a < List.length (watchCalls st))%nat.
Proof.
  unfold keyAt. destruct (watchCalls st !! a) eqn:E; [|discriminate].
  intros _. by eapply lookup_lt_Some.
Qed.

















(** *** Runs *)

Lemma run_snoc (actions : list Action) a st :
  run (actions ++ [a]) st = step a (run actions st).
Proof. unfold run. by rewrite foldl_app. Qed.


Lemma handles_unref a key st : handles (unref a key st) = handles st.
Proof.
  unfold unref. destruct (watchers st !! a) as [w|]; [|done].
  cbn. by destruct (_ =? _).
Qed.

Lemma handles_doWatch resource options st r st' :
  doWatch resource options st = Some (r, st') -> handles st' = handles st.
Proof.
  unfold doWatch.
  destruct (withProvider resource (service st)) as [[[provider|e] sv]|]; [| |done].
  - destruct (activeWatchers _ !! _); [by intros [= <- <-]|].
    destruct (IFileSystemProvider.watch _ _ _ _) as [[d|e] w]; by intros [= <- <-].
  - by intros [= <- <-].
Qed.







(* what the closure of doWatch does to its watcher *)
Lemma unref_decrements a key st w :
  watchers st !! a = Some w ->
  watchers (unref a key st) !! a = Some (mkWatcher (disposable w) (count w - 1)).
Proof.
  intros Hw. pose proof (lookup_lt_Some _ _ _ Hw). unfold unref.
  rewrite Hw. cbn [count disposable]. destruct (count w - 1 =? 0); cbn;
    by rewrite list_lookup_insert_eq.
Qed.

Lemma runThen_decrements st i h a key w :
  handles st !! i = Some h ->
  stage h = Resolved a key -> watchDisposed h = true -> watchers st !! a = Some w ->
  watchers (runThen i st) !! a = Some (mkWatcher (disposable w) (count w - 1))
  /\ handles (runThen i st) !! i = Some (setStage Settled h)
  /\ runThen i (runThen i st) = runThen i st.
Proof.
  intros Hi Hstage Hdisposed Hw. pose proof (lookup_lt_Some _ _ _ Hi) as Hlt.
  assert (Hthen : runThen i st = unref a key (setHandle i (setStage Settled h) st)).
  { unfold runThen. by rewrite Hi, Hstage, Hdisposed. }
  assert (Hsettled : handles (runThen i st) !! i = Some (setStage Settled h)).
  { rewrite Hthen, handles_unref. cbn. by rewrite list_lookup_insert_eq. }
  split; [|split; [exact Hsettled|]].
  - rewrite Hthen. by apply unref_decrements.
  - unfold runThen at 1. by rewrite Hsettled.
Qed.

Lemma runDoWatch_counts st i h :
  handles st !! i = Some h -> stage h = Started ->
  match doWatch (resource h) (options h) st with
  | Some (Return (a, key), _) =>
    handles (runDoWatch i st) !! i = Some (setStage (Resolved a key) h)
    /\ forall w, watchers (runDoWatch i st) !! a = Some w ->
                 count w = match watchers st !! a with
                           | Some w0 => count w0 + 1
                           | None => 1
                           end
  | Some (Throw _, _) =>
    watchers (runDoWatch i st) = watchers st
    /\ handles (runDoWatch i st) !! i = Some (setStage Rejected h)
  | None => runDoWatch i st = st
  end.
Proof.
  intros Hi Hstage. pose proof (lookup_lt_Some _ _ _ Hi) as Hlt.
  unfold runDoWatch. rewrite Hi, Hstage.
  destruct (doWatch (resource h) (options h) st) as [[[[a key]|e] st']|] eqn:E; [| |done].
  - pose proof (handles_doWatch _ _ _ _ _ E) as Hsame.
    split; [cbn; rewrite Hsame; by rewrite list_lookup_insert_eq|].
    cbn [setHandle watchers]. unfold doWatch in E.
    destruct (withProvider (resource h) (service st)) as [[[provider|e] sv]|]; [| |done];
      [|discriminate].
    cbn [setService activeWatchers] in E.
    destruct (activeWatchers st !! _) as [a0|].
    + injection E as <- _ <-. cbn. intros w. rewrite list_lookup_alter_eq.
      destruct (watchers st !! a0) as [w0|]; [|done]. by intros [= <-].
    + destruct (IFileSystemProvider.watch _ _ _ _) as [[d|e] w']; [|discriminate].
      injection E as <- _ <-. cbn. intros w. rewrite list_lookup_alter_eq.
      rewrite list_lookup_middle by done. rewrite lookup_ge_None_2 by done.
      by intros [= <-].
  - pose proof (handles_doWatch _ _ _ _ _ E) as Hsame.
    split; [|cbn; rewrite Hsame; by rewrite list_lookup_insert_eq].
    cbn [setHandle watchers]. unfold doWatch in E.
    destruct (withProvider (resource h) (service st)) as [[[provider|e'] sv]|]; [| |done].
    + cbn [setService activeWatchers] in E.
      destruct (activeWatchers st !! _) as [a0|]; [discriminate|].
      destruct (IFileSystemProvider.watch _ _ _ _) as [[d|e'] w']; [discriminate|].
      by injection E as _ <-.
    + by injection E as _ <-.
Qed.

(** C7 (amended).  In every state, also after the service has torn the
    subscriptions down, for every handle: a disposal of the handle,
    once the closure of its [doWatch] has been forwarded to it,
    decrements the count of its watcher by one, at each call; a
    disposal before that leaves every count as it is and marks the
    handle.  The [doWatch] of the handle, when it is not rejected,
    counts the handle once, in the watcher of its key; the callback of
    a handle that is marked decrements that count by one, forwards
    nothing and runs once.  So a handle that is disposed before its
    [doWatch] has run is counted and discounted, in the two turns that
    follow. *)
Theorem dispose_decrements st i h :
  handles st !! i = Some h ->
  (forall a key w,
      watchDisposable h = Some (a, key) -> watchers st !! a = Some w ->
      watchers (disposeHandle i st) !! a = Some (mkWatcher (disposable w) (count w - 1)))
  /\ (watchDisposable h = None ->
      watchers (disposeHandle i st) = watchers st
      /\ handles (disposeHandle i st) !! i
         = Some (mkHandle (resource h) (options h) (stage h) true None
                          (S (disposeCalls h))))
  /\ (stage h = Started ->
      match doWatch (resource h) (options h) st with
      | Some (Return (a, key), _) =>
        handles (runDoWatch i st) !! i = Some (setStage (Resolved a key) h)
        /\ forall w, watchers (runDoWatch i st) !! a = Some w ->
                     count w = match watchers st !! a with
                               | Some w0 => count w0 + 1
                               | None => 1
                               end
      | Some (Throw _, _) =>
        watchers (runDoWatch i st) = watchers st
        /\ handles (runDoWatch i st) !! i = Some (setStage Rejected h)
      | None => runDoWatch i st = st
      end)
  /\ (forall a key w,
         stage h = Resolved a key -> watchDisposed h = true -> watchers st !! a = Some w ->
         watchers (runThen i st) !! a = Some (mkWatcher (disposable w) (count w - 1))
         /\ handles (runThen i st) !! i = Some (setStage Settled h)
         /\ runThen i (runThen i st) = runThen i st)
  /\ (stage h = Started -> watchDisposable h = None ->
      let marked := disposeHandle i st in
      forall a key st' w,
        doWatch (resource h) (options h) marked = Some (Return (a, key), st') ->
        watchers (runDoWatch i marked) !! a = Some w ->
        count w = match watchers st !! a with
                  | Some w0 => count w0 + 1
                  | None => 1
                  end
        /\ watchers (runThen i (runDoWatch i marked)) !! a
           = Some (mkWatcher (disposable w) (count w - 1))).
Proof.
  intros Hi. pose proof (lookup_lt_Some _ _ _ Hi) as Hlt.
  assert (Hmarked : watchDisposable h = None ->
                    watchers (disposeHandle i st) = watchers st
                    /\ handles (disposeHandle i st) !! i
                       = Some (mkHandle (resource h) (options h) (stage h) true None
                                        (S (disposeCalls h)))).
  { intros Hwd. unfold disposeHandle. rewrite Hi, Hwd. cbn.
    by rewrite list_lookup_insert_eq. }
  split; [|split; [exact Hmarked|split; [|split]]].
  - intros a key w Hwd Hw. unfold disposeHandle. rewrite Hi, Hwd.
    by apply unref_decrements.
  - intros Hstage. by apply runDoWatch_counts.
  - intros a key w. by apply runThen_decrements.
  - intros Hstage Hwd marked a key st' w HdoWatch Hw.
    destruct (Hmarked Hwd) as [Hsame Hhandle]. fold marked in Hsame, Hhandle.
    pose proof (runDoWatch_counts marked i _ Hhandle Hstage) as Hcounts.
    cbn [resource options] in Hcounts. rewrite HdoWatch in Hcounts.
    destruct Hcounts as [Hresolved Hcount].
    split; [rewrite <- Hsame; by apply Hcount|].
    by apply (runThen_decrements _ _ _ a key w Hresolved).
Qed.
End WatcherInvariant.

Section WatcherRuns.
Import PosixResources Watchers WatchFixture.




(** C7, as it is stated, fails: two handles share the watcher of a key;
    the first handle is disposed twice and the count of the watcher
    goes from 2 to 0, the underlying subscription is disposed and the
    entry removed, while the second handle has not been disposed. *)
Lemma dispose_twice_counterexample :
  refcount two key = 2
  /\ refcount (disposeHandle 0 two) key = 1
  /\ count <$> watchers (disposeHandle 0 (disposeHandle 0 two)) !! 0%nat = Some 0
  /\ activeWatchers (disposeHandle 0 (disposeHandle 0 two)) !! key = None
  /\ disposed (disposeHandle 0 (disposeHandle 0 two)) = [0%nat]
  /\ disposeCalls <$> handles (disposeHandle 0 (disposeHandle 0 two)) !! 1%nat = Some 0%nat.
Proof. vm_compute. repeat split. Qed.

(** C7 (amended), at inputs: a disposal after the service has torn the
    subscription down decrements the count from 1 to 0; a handle that
    is disposed before its doWatch has run is counted by the doWatch
    and discounted by the callback. *)
Lemma dispose_decrements_witness :
  (watchers tornDown !! 0%nat = Some (mkWatcher 0 1)
   /\ watchers (disposeHandle 0 tornDown) !! 0%nat = Some (mkWatcher 0 0))
  /\ let early := disposeHandle 0 (step w init) in
     watchers early = []
     /\ watchers (runDoWatch 0 early) !! 0%nat = Some (mkWatcher 0 1)
     /\ watchers (runThen 0 (runDoWatch 0 early)) !! 0%nat = Some (mkWatcher 0 0).
Proof.
  split.
  - split; [reflexivity|].
    destruct (dispose_decrements tornDown 0 _ eq_refl) as (Hforwarded & _).
    exact (Hforwarded 0%nat key (mkWatcher 0 1) eq_refl eq_refl).
  - intros early.
    destruct (dispose_decrements (step w init) 0 _ eq_refl) as (_ & _ & _ & _ & Hearly).
    split; [reflexivity|]. split; [reflexivity|].
    exact (proj2 (Hearly eq_refl eq_refl 0%nat key _ (mkWatcher 0 1) eq_refl eq_refl)).
Defined.
End WatcherRuns.
(** ** The write queues *)

Section WriteQueueProperties.
Import Async WriteQueue.
Context {W : Type}.
Implicit Types (st : State W) (key : string) (q : Queue W) (w : W).

Lemma submissions_app key l1 l2 :
  submissions key (l1 ++ l2) = (submissions key l1 ++ submissions key l2)%list.
Proof. apply omap_app. Qed.

Lemma runsOf_app key l1 l2 :
  runsOf key (l1 ++ l2) = (runsOf key l1 ++ runsOf key l2)%list.
Proof. apply List.filter_app. Qed.

Lemma serial_snoc key ids id :
  serial key (ids ++ [id]) = (serial key ids ++ [Started key id; Ended key id])%list.
Proof. unfold serial. rewrite flat_map_app. done. Qed.

(* in the table every queue has a task that runs, and the log of a key
   is the serial run of its submissions up to that task *)
Lemma fifo_init w key : fifo (init w) key.
Proof. unfold fifo. cbn. by rewrite lookup_empty. Qed.

Lemma fifo_submit st key key' id task :
  fifo st key -> fifo st key' -> fifo (submit key' id task st) key.
Proof.
  intros Hk Hk'. unfold submit, ensureWriteQueue.
  destruct (decide (key' = key)) as [->|Hne].
  - clear Hk'. unfold fifo in Hk.
    destruct (writeQueues st !! key) as [[[[id0 t0]|] waiting]|] eqn:Hq; cbn in Hk; [|done|].
    + destruct Hk as (done & Hsubs & Hruns).
      cbn [emit writeQueues]. rewrite Hq. cbn [running outstanding].
      unfold consume. cbn [setQueue writeQueues]. rewrite lookup_insert_eq.
      unfold fifo. cbn [setQueue emit writeQueues log]. rewrite lookup_insert_eq.
      cbn [running outstanding]. exists done.
      rewrite submissions_app, runsOf_app, Hsubs, Hruns. cbn.
      rewrite bool_decide_eq_true_2 by done. rewrite fmap_app. cbn.
      split; [by rewrite <- !app_assoc|by rewrite app_nil_r].
    + cbn [emit setQueue writeQueues]. rewrite lookup_insert_eq.
      cbn [running outstanding app]. unfold consume.
      cbn [setQueue writeQueues]. rewrite lookup_insert_eq.
      unfold fifo. cbn [setQueue emit writeQueues log]. rewrite lookup_insert_eq.
      cbn [running outstanding]. exists (submissions key (log st)).
      rewrite !submissions_app, !runsOf_app, Hk. cbn.
      rewrite bool_decide_eq_true_2 by done. by rewrite !app_nil_r.
  - assert (Hlog : forall l, submissions key (l ++ [Submitted key' id]) = submissions key l
                             /\ runsOf key (l ++ [Submitted key' id]) = runsOf key l
                             /\ runsOf key (l ++ [Started key' id]) = runsOf key l).
    { intros l. rewrite submissions_app, !runsOf_app. cbn.
      rewrite !bool_decide_eq_false_2 by done. by rewrite !app_nil_r. }
    assert (Hkeep : forall qs l s,
               qs !! key = writeQueues st !! key ->
               submissions key l = submissions key (log st) ->
               runsOf key l = runsOf key (log st) ->
               fifo (mkState (disk st) qs l s) key).
    { intros qs l s Hqs Hs Hr. unfold fifo in *. cbn [writeQueues log].
      rewrite Hqs, Hs, Hr. exact Hk. }
    unfold fifo in Hk'.
    destruct (writeQueues st !! key') as [[[[id0 t0]|] waiting]|] eqn:Hq; cbn in Hk'; [|done|].
    + cbn [emit writeQueues]. rewrite Hq. cbn [running outstanding].
      unfold consume. cbn [setQueue writeQueues]. rewrite lookup_insert_eq.
      apply Hkeep; [cbn; by rewrite lookup_insert_ne|apply Hlog..].
    + cbn [emit setQueue writeQueues]. rewrite lookup_insert_eq.
      cbn [running outstanding app]. unfold consume.
      cbn [setQueue writeQueues]. rewrite lookup_insert_eq.
      apply Hkeep; cbn [log emit setQueue].
      * cbn. by rewrite !lookup_insert_ne.
      * rewrite submissions_app. cbn [submissions omap]. rewrite app_nil_r. apply Hlog.
      * destruct (Hlog (log st ++ [Submitted key' id])%list) as (_ & _ & ->).
        apply Hlog.
Qed.

Lemma fifo_advance st key key' : fifo st key -> fifo (advance key' st) key.
Proof.
  intros Hk. unfold advance.
  destruct (writeQueues st !! key') as [[[[id [result| |turn next]]|] waiting]|] eqn:Hq;
    try done.
  unfold fifo in *. cbn [writeQueues log].
  destruct (decide (key' = key)) as [->|Hne].
  - rewrite lookup_insert_eq. rewrite Hq in Hk. exact Hk.
  - by rewrite lookup_insert_ne.
Qed.

Lemma fifo_settle st key key' : fifo st key -> fifo (settle key' st) key.
Proof.
  intros Hk. unfold settle.
  destruct (writeQueues st !! key') as [[[[id [result| |turn next]]|] waiting]|] eqn:Hq;
    try done.
  destruct (decide (key' = key)) as [->|Hne].
  - unfold fifo in Hk. rewrite Hq in Hk. cbn in Hk. destruct Hk as (done & Hsubs & Hruns).
    destruct waiting as [|[id' t'] waiting].
    + unfold fifo. cbn [emit writeQueues log]. rewrite lookup_delete_eq.
      rewrite submissions_app, runsOf_app, Hsubs, Hruns. cbn.
      rewrite bool_decide_eq_true_2 by done. rewrite app_nil_r, serial_snoc.
      by rewrite <- app_assoc.
    + unfold consume. cbn [setQueue emit writeQueues]. rewrite lookup_insert_eq.
      unfold fifo. cbn [setQueue emit writeQueues log]. rewrite lookup_insert_eq.
      cbn [running outstanding]. exists (done ++ [id])%list.
      rewrite !submissions_app, !runsOf_app, Hsubs, Hruns. cbn.
      rewrite !bool_decide_eq_true_2 by done. rewrite !app_nil_r, serial_snoc.
      split; by rewrite <- !app_assoc.
  - assert (Hkeep : forall qs l s,
               qs !! key = writeQueues st !! key ->
               submissions key l = submissions key (log st) ->
               runsOf key l = runsOf key (log st) ->
               fifo (mkState (disk st) qs l s) key).
    { intros qs l s Hqs Hs Hr. unfold fifo in *. cbn [writeQueues log].
      rewrite Hqs, Hs, Hr. exact Hk. }
    assert (Hlog : forall l e, (e = Ended key' id \/ exists i, e = Started key' i) ->
                               submissions key (l ++ [e]) = submissions key l
                               /\ runsOf key (l ++ [e]) = runsOf key l).
    { intros l e He. rewrite submissions_app, !runsOf_app.
      destruct He as [->|[i ->]]; cbn; rewrite ?bool_decide_eq_false_2 by done;
        by rewrite !app_nil_r. }
    destruct waiting as [|[id' t'] waiting].
    + apply Hkeep; cbn [log emit].
      * cbn. by rewrite lookup_delete_ne.
      * apply Hlog. by left.
      * apply Hlog. by left.
    + unfold consume. cbn [setQueue emit writeQueues]. rewrite lookup_insert_eq.
      apply Hkeep; cbn [log emit setQueue].
      * cbn. by rewrite !lookup_insert_ne.
      * destruct (Hlog (log st ++ [Ended key' id])%list (Started key' id')) as [-> _];
          [right; by eexists|].
        apply Hlog. by left.
      * destruct (Hlog (log st ++ [Ended key' id])%list (Started key' id')) as [_ ->];
          [right; by eexists|].
        apply Hlog. by left.
Qed.

Lemma fifo_run actions : forall st, (forall key, fifo st key) ->
                                    forall key, fifo (run actions st) key.
Proof.
  induction actions as [|a actions IH]; intros st Hst; [exact Hst|].
  cbn [run foldl]. apply IH. intros key.
  destruct a as [key' id task|key'|key']; cbn [step].
  - by apply fifo_submit.
  - by apply fifo_advance.
  - by apply fifo_settle.
Qed.


Lemma run_app (before after : list (Action W)) st :
  run (before ++ after) st = run after (run before st).
Proof. unfold run. by rewrite foldl_app. Qed.

Lemma run_cons (a : Action W) turns st : run (a :: turns) st = run turns (step a st).
Proof. reflexivity. Qed.

Lemma length_serial key ids : List.length (serial key ids) = (2 * List.length ids)%nat.
Proof.
  induction ids as [|id ids IH]; [reflexivity|].
  change (serial key (id :: ids)) with (Started key id :: Ended key id :: serial key ids).
  cbn [List.length]. lia.
Qed.

(** *** One after the other *)







End WriteQueueProperties.

(** *** The tasks of the service, run alone *)

Section RunAlone.
Context {W : Type} `{Resources} `{Files}.
Implicit Types (p sourceProvider targetProvider : Provider W) (st : FileService W)
         (k : outcome unit -> Async.Task W).


















End RunAlone.

(** ** The events of the operations *)

Section Silence.
Context {W : Type} `{Resources} `{Files}.
Implicit Types (p sp tp : Provider W) (st : FileService W).

Lemma silent_ret {A} (a : A) : silent (mret a : M W A).
Proof. intros st r st' [= <- <-]. reflexivity. Qed.

Lemma silent_throw {A} e : silent (throw e : M W A).
Proof. intros st r st' [= <- <-]. reflexivity. Qed.

Lemma silent_diverge {A} : silent (diverge : M W A).
Proof. intros st r st' [=]. Qed.

Lemma silent_call {A} (op : PM W A) : silent (call op).
Proof. intros st r st'. rewrite call_run. intros [= <- <-]. reflexivity. Qed.

Lemma silent_probe {A} (f : W -> A) : silent (probe f).
Proof. intros st r st' [= <- <-]. reflexivity. Qed.

Lemma silent_bind {A B} (c : M W A) (f : A -> M W B) :
  silent c -> (forall a, silent (f a)) -> silent (c ≫= f).
Proof.
  intros Hc Hf st r st'. rewrite bind_run.
  destruct (c st) as [[[a|e] st1]|] eqn:Hrun; [|intros [= <- <-]; by eapply Hc|done].
  intros Hrun'. rewrite (Hf a _ _ _ Hrun'). by eapply Hc.
Qed.

Lemma silent_tryCatch {A} (c : M W A) handler :
  silent c -> (forall e, silent (handler e)) -> silent (tryCatch c handler).
Proof.
  intros Hc Hh st r st'. unfold tryCatch.
  destruct (c st) as [[[a|e] st1]|] eqn:Hrun; [intros [= <- <-]; by eapply Hc| |done].
  intros Hrun'. rewrite (Hh e _ _ _ Hrun'). by eapply Hc.
Qed.

Lemma silent_tryFinally {A} (c : M W A) fin :
  silent c -> silent fin -> silent (tryFinally c fin).
Proof.
  intros Hc Hfin st r st'. unfold tryFinally.
  destruct (c st) as [[r1 st1]|] eqn:Hrun; [|done].
  destruct (fin st1) as [[[[]|e] st2]|] eqn:Hrun'; [| |done];
    intros [= <- <-]; rewrite (Hfin _ _ _ Hrun'); by eapply Hc.
Qed.

Lemma silent_mapM {A B} (f : A -> M W B) (l : list A) :
  (forall a, silent (f a)) -> silent (mapM f l).
Proof.
  intros Hf. induction l as [|a l IH]; cbn [mapM]; [apply silent_ret|].
  apply silent_bind; [apply Hf|]. intros b.
  apply silent_bind; [apply IH|]. intros bs. apply silent_ret.
Qed.

Lemma silent_settle {A} (c : M W A) : silent c -> silent (settle c).
Proof.
  intros Hc st r st'. unfold settle.
  destruct (c st) as [[r1 st1]|] eqn:Hrun; [|done].
  intros [= <- <-]. by eapply Hc.
Qed.

Lemma silent_if {A} (b : bool) (c d : M W A) :
  silent c -> silent d -> silent (if b then c else d).
Proof. by destruct b. Qed.

Create HintDb silent.

#[local] Hint Resolve silent_ret silent_throw silent_diverge silent_call
  silent_probe : silent.

Ltac silence :=
  repeat first
         [ progress cbn beta iota
         | solve [auto 1 with silent nocore]
         | match goal with
           | |- forall _, _ => intro
           | |- silent (mbind _ _) => apply silent_bind
           | |- silent (tryCatch _ _) => apply silent_tryCatch
           | |- silent (tryFinally _ _) => apply silent_tryFinally
           | |- silent (mapM _ _) => apply silent_mapM
           | |- silent (settle _) => apply silent_settle
           | |- silent (if ?b then _ else _) => destruct b
           | |- silent (match ?x with _ => _ end) => destruct x
           end ].

Lemma silent_activateProvider scheme : silent (activateProvider (W := W) scheme).
Proof. intros st r st' [= <- <-]. reflexivity. Qed.

Lemma silent_getProvider scheme : silent (getProvider (W := W) scheme).
Proof. intros st r st' [= <- <-]. reflexivity. Qed.

#[local] Hint Resolve silent_activateProvider silent_getProvider : silent.

Lemma silent_withProvider resource : silent (withProvider (W := W) resource).
Proof. unfold withProvider. silence. Qed.

#[local] Hint Resolve silent_withProvider : silent.

Lemma silent_withReadProvider resource : silent (withReadProvider (W := W) resource).
Proof. unfold withReadProvider. silence. Qed.

Lemma silent_withWriteProvider resource : silent (withWriteProvider (W := W) resource).
Proof. unfold withWriteProvider. silence. Qed.

Lemma silent_throwIfFileSystemIsReadonly p resource :
  silent (throwIfFileSystemIsReadonly p resource).
Proof. unfold throwIfFileSystemIsReadonly. silence. Qed.

Lemma silent_exists resource : silent (exists_ (W := W) resource).
Proof. unfold exists_. silence. Qed.

Lemma silent_validateWriteFile p resource options :
  silent (validateWriteFile p resource options).
Proof. unfold validateWriteFile. silence. Qed.

#[local] Hint Resolve silent_withReadProvider silent_withWriteProvider
  silent_throwIfFileSystemIsReadonly silent_exists silent_validateWriteFile : silent.

Lemma silent_toFileStat fuel : forall p resource stat siblings resolveMetadata recurse,
  silent (toFileStat fuel p resource stat siblings resolveMetadata recurse).
Proof.
  induction fuel as [|fuel IH]; intros p resource stat siblings resolveMetadata recurse;
    cbn [toFileStat]; silence.
Qed.

#[local] Hint Resolve silent_toFileStat : silent.

Lemma silent_doResolveFile fuel resource options :
  silent (doResolveFile (W := W) fuel resource options).
Proof. unfold doResolveFile. silence. Qed.

#[local] Hint Resolve silent_doResolveFile : silent.

Lemma silent_resolve fuel resource options :
  silent (resolve (W := W) fuel resource options).
Proof. unfold resolve. silence. Qed.

#[local] Hint Resolve silent_resolve : silent.

Lemma silent_mkdirpUp fuel : forall p directory directoriesToCreate,
  silent (mkdirpUp fuel p directory directoriesToCreate).
Proof.
  induction fuel as [|fuel IH]; intros p directory directoriesToCreate;
    cbn [mkdirpUp]; silence.
Qed.

Lemma silent_mkdirpDown p reversed : forall directory,
  silent (mkdirpDown p directory reversed).
Proof.
  induction reversed as [|name reversed IH]; intros directory; cbn [mkdirpDown]; silence.
Qed.

#[local] Hint Resolve silent_mkdirpUp silent_mkdirpDown : silent.

Lemma silent_mkdirp fuel p directory : silent (mkdirp fuel p directory).
Proof. unfold mkdirp. silence. Qed.

#[local] Hint Resolve silent_mkdirp : silent.

Lemma silent_doWriteBufferLoop fuel :
  forall p handle buffer length posInFile posInBuffer totalBytesWritten,
  silent (doWriteBufferLoop fuel p handle buffer length posInFile posInBuffer
                            totalBytesWritten).
Proof.
  induction fuel as [|fuel IH]; intros; cbn [doWriteBufferLoop]; silence.
Qed.

#[local] Hint Resolve silent_doWriteBufferLoop : silent.

Lemma silent_doWriteBuffer fuel p handle buffer length posInFile posInBuffer :
  silent (doWriteBuffer fuel p handle buffer length posInFile posInBuffer).
Proof. unfold doWriteBuffer. silence. Qed.

#[local] Hint Resolve silent_doWriteBuffer : silent.

Lemma silent_doWriteReadableBufferedQueued fuel p handle readable : forall posInFile,
  silent (doWriteReadableBufferedQueued fuel p handle readable posInFile).
Proof.
  induction readable as [|chunk readable IH]; intros posInFile;
    cbn [doWriteReadableBufferedQueued]; silence.
Qed.

#[local] Hint Resolve silent_doWriteReadableBufferedQueued : silent.

Lemma silent_doWriteBuffered fuel p resource readable :
  silent (doWriteBuffered fuel p resource readable).
Proof. unfold doWriteBuffered, queue. silence. Qed.

Lemma silent_doWriteUnbuffered p resource data :
  silent (doWriteUnbuffered p resource data).
Proof. unfold doWriteUnbuffered, doWriteUnbufferedQueued, queue. silence. Qed.

#[local] Hint Resolve silent_doWriteBuffered silent_doWriteUnbuffered : silent.

Lemma silent_writeFile fuel resource data options :
  silent (writeFile (W := W) fuel resource data options).
Proof. unfold writeFile. silence. Qed.

#[local] Hint Resolve silent_writeFile : silent.

Lemma silent_doPipeBufferedLoop fuel :
  forall sp sourceHandle tp targetHandle buffer posInFile posInBuffer,
  silent (doPipeBufferedLoop fuel sp sourceHandle tp targetHandle buffer
                             posInFile posInBuffer).
Proof.
  induction fuel as [|fuel IH]; intros; cbn [doPipeBufferedLoop]; silence.
Qed.

#[local] Hint Resolve silent_doPipeBufferedLoop : silent.

Lemma silent_all2 (a b : M W unit) : silent a -> silent b -> silent (all2 a b).
Proof. intros Ha Hb. unfold all2, unsettle. silence. Qed.

Lemma silent_readLoop fuel : forall p handle posInFile content,
  silent (readLoop fuel p handle posInFile content).
Proof. induction fuel as [|fuel IH]; intros; cbn [readLoop]; silence. Qed.

#[local] Hint Resolve silent_readLoop : silent.

Lemma silent_doCopyFile fuel sp source tp target :
  silent (doCopyFile fuel sp source tp target).
Proof.
  unfold doCopyFile, doPipeBuffered, doPipeBufferedToUnbuffered,
    doPipeUnbufferedToBuffered, doPipeUnbuffered, doPipeBufferedQueued,
    doPipeUnbufferedToBufferedQueued, doPipeUnbufferedQueued, readFileBuffered,
    createReadStream, queue.
  silence; apply silent_all2; silence.
Qed.

#[local] Hint Resolve silent_doCopyFile : silent.

Lemma silent_doCopyFolder fuel : forall sp sourceFolder tp targetFolder,
  silent (doCopyFolder fuel sp sourceFolder tp targetFolder).
Proof.
  induction fuel as [|fuel IH]; intros; cbn [doCopyFolder]; silence.
Qed.

#[local] Hint Resolve silent_doCopyFolder : silent.

Lemma silent_doValidateMoveCopy sp source tp target mode overwrite :
  silent (doValidateMoveCopy sp source tp target mode overwrite).
Proof. unfold doValidateMoveCopy. silence. Qed.

#[local] Hint Resolve silent_doValidateMoveCopy : silent.

(** *** One event, after the operation *)

Lemma announces_fire {A} (event : A -> FileOperationEvent) (a : A) :
  announces (W := W) event (fire (event a);; mret a).
Proof. intros st. reflexivity. Qed.

Lemma announces_throw {A} (event : A -> FileOperationEvent) e :
  announces (W := W) event (throw e).
Proof. intros st. reflexivity. Qed.

Lemma announces_bind {A B} (event : B -> FileOperationEvent) (c : M W A) f :
  silent c -> (forall a, announces event (f a)) -> announces event (c ≫= f).
Proof.
  intros Hc Hf st. rewrite bind_run.
  destruct (c st) as [[[a|e] st1]|] eqn:Hrun; [|by eapply Hc|done].
  specialize (Hf a st1). rewrite <- (Hc _ _ _ Hrun).
  destruct (f a st1) as [[[b|e] st2]|]; done.
Qed.

Ltac announce :=
  repeat first
         [ progress cbn beta iota
         | apply announces_fire
         | apply announces_throw
         | match goal with
           | |- forall _, _ => intro
           | |- announces _ (mbind _ _) => apply announces_bind; [solve [silence]|]
           | |- announces _ (if ?b then _ else _) => destruct b
           end ].

(** X1.  [createFolder] fires one CREATE event for the resource, with
    the stat it returns, when it returns and after everything else it
    did; when it throws it has fired nothing. *)
Theorem createFolder_fires_create fuel resource st :
  match createFolder fuel resource st with
  | Some (Return fileStat, st') =>
    afterOperation st'
    = (afterOperation st ++ [mkEvent resource CREATE (Some fileStat)])%list
  | Some (Throw _, st') => afterOperation st' = afterOperation st
  | None => True
  end.
Proof.
  revert st. change (announces (fun fileStat => mkEvent resource CREATE (Some fileStat))
                               (createFolder (W := W) fuel resource)).
  unfold createFolder. announce.
Qed.

(** X2.  [createFile] fires one CREATE event for the resource, with the
    stat it returns, when it returns; when it throws, be it for the
    file that is there or for the write, it has fired nothing. *)
Theorem createFile_fires_create fuel resource data overwrite st :
  match createFile fuel resource data overwrite st with
  | Some (Return fileStat, st') =>
    afterOperation st'
    = (afterOperation st ++ [mkEvent resource CREATE (Some fileStat)])%list
  | Some (Throw _, st') => afterOperation st' = afterOperation st
  | None => True
  end.
Proof.
  revert st. change (announces (fun fileStat => mkEvent resource CREATE (Some fileStat))
                               (createFile (W := W) fuel resource data overwrite)).
  unfold createFile. announce.
Qed.

Lemma announces_del fuel resource options :
  announces (fun _ => mkEvent resource DELETE None) (del (W := W) fuel resource options).
Proof.
  unfold del. announce.
Qed.

(** X3.  [del] fires one DELETE event for the resource when it returns,
    after the provider has deleted; when it throws it has fired
    nothing. *)
Theorem del_fires_delete fuel resource options st :
  match del fuel resource options st with
  | Some (Return _, st') =>
    afterOperation st' = (afterOperation st ++ [mkEvent resource DELETE None])%list
  | Some (Throw _, st') => afterOperation st' = afterOperation st
  | None => True
  end.
Proof. apply announces_del. Qed.

Lemma bind_inv {A B} (c : M W A) (f : A -> M W B) st r st' :
  (c ≫= f) st = Some (r, st') ->
  (exists e, c st = Some (Throw e, st') /\ r = Throw e)
  \/ (exists a st1, c st = Some (Return a, st1) /\ f a st1 = Some (r, st')).
Proof.
  rewrite bind_run. destruct (c st) as [[[a|e] st1]|]; [|intros [= <- <-]|done].
  - intros Hf. right. by exists a, st1.
  - left. by exists e.
Qed.

(* the events of a copy: at most the DELETE of a target that is
   overwritten *)
Lemma doMoveCopy_copy_fires fuel sp source tp target overwrite st r st' :
  doMoveCopy fuel sp source tp target ModeCopy overwrite st = Some (r, st') ->
  afterOperation st' = afterOperation st
  \/ (overwrite = true
      /\ afterOperation st' = (afterOperation st ++ [mkEvent target DELETE None])%list).
Proof.
  destruct fuel as [|fuel]; [discriminate|]. cbn [doMoveCopy].
  case_bool_decide; [intros [= <- <-]; by left|]. intros Hrun.
  apply bind_inv in Hrun as [(e & Hrun & ->)|([ex same] & st1 & Hvalidate & Hrun)].
  { left. by eapply silent_doValidateMoveCopy. }
  pose proof (silent_doValidateMoveCopy _ _ _ _ _ _ _ _ _ Hvalidate) as Hst1.
  apply bind_inv in Hrun as [(e & Hrun & ->)|([] & st2 & Hdelete & Hrun)].
  - left. rewrite <- Hst1.
    destruct (ex && negb same && overwrite); [|discriminate].
    pose proof (announces_del fuel target recursively st1) as Hdel.
    by rewrite Hrun in Hdel.
  - assert (Hrest : afterOperation st' = afterOperation st2).
    { match type of Hrun with
      | ?c st2 = _ => assert (Hs : silent c) by silence; exact (Hs _ _ _ Hrun)
      end. }
    rewrite Hrest, <- Hst1.
    destruct (ex && negb same && overwrite) eqn:Hcond.
    + right. split; [by apply andb_prop in Hcond as [_ ->]|].
      pose proof (announces_del fuel target recursively st1) as Hdel.
      by rewrite Hdelete in Hdel.
    + left. by injection Hdelete as <-.
Qed.

(** X4.  When [copy] returns, the last event it has fired is COPY for
    the source, with the stat of the target that it returns; before it,
    it has fired at most the DELETE of the target, and that only when
    it was told to overwrite. *)
Theorem copy_fires_copy fuel source target overwrite st :
  match copy fuel source target overwrite st with
  | Some (Return fileStat, st') =>
    exists deleted,
    afterOperation st'
    = (afterOperation st ++ deleted ++ [mkEvent source COPY (Some fileStat)])%list
    /\ (deleted = []
        \/ (overwrite = Some true /\ deleted = [mkEvent target DELETE None]))
  | _ => True
  end.
Proof.
  destruct (copy fuel source target overwrite st) as [[[fileStat|e] st']|] eqn:Hrun;
    [|done..].
  unfold copy in Hrun.
  apply bind_returns in Hrun as (sp & st1 & Hsp & Hrun).
  apply bind_returns in Hrun as (tp0 & st2 & Htp0 & Hrun).
  apply bind_returns in Hrun as (tp & st3 & Htp & Hrun).
  apply bind_returns in Hrun as (mode & st4 & Hcopy & Hrun).
  apply bind_returns in Hrun as (fileStat' & st5 & Hresolve & Hrun).
  rewrite (doMoveCopy_copy_returns_copy _ _ _ _ _ _ _ _ _ Hcopy) in Hrun.
  injection Hrun as <- <-. cbn [afterOperation].
  rewrite (silent_resolve _ _ _ _ _ _ Hresolve).
  pose proof (silent_withReadProvider _ _ _ _ Hsp) as H1.
  pose proof (silent_withWriteProvider _ _ _ _ Htp0) as H2.
  pose proof (silent_throwIfFileSystemIsReadonly _ _ _ _ _ Htp) as H3.
  destruct (doMoveCopy_copy_fires _ _ _ _ _ _ _ _ _ Hcopy) as [H4|[Hover H4]].
  - exists []. split; [|by left]. cbn [app]. congruence.
  - exists [mkEvent target DELETE None]. split.
    + rewrite H4, H3, H2, H1. by rewrite <- (assoc app).
    + right. split; [|done]. unfold truthy in Hover. by destruct overwrite as [[]|].
Qed.
End Silence.


(** ** Read-only providers *)

Section Readonly.
Context {W : Type} `{Resources} `{Files}.
Implicit Types (p sp tp : Provider W) (st : FileService W).

Lemma withProvider_keeps resource st r st1 :
  withProvider resource st = Some (r, st1) ->
  world st1 = world st /\ afterOperation st1 = afterOperation st.
Proof.
  rewrite withProvider_run. destruct (isAbsolutePath resource); [|by intros [= <- <-]].
  cbn zeta. cbn [provider].
  destruct (willActivate st (scheme resource) (provider st) !! scheme resource);
    by intros [= <- <-].
Qed.

Lemma throwIfFileSystemIsReadonly_run p resource st :
  throwIfFileSystemIsReadonly p resource st
  = if hasCapabilityBit (IFileSystemProvider.capabilities p (world st))
                        FileSystemProviderCapabilities.Readonly
    then Some (Throw (FileOperationError "err.readonly" FILE_PERMISSION_DENIED), st)
    else Some (Return p, st).
Proof.
  unfold throwIfFileSystemIsReadonly. rewrite bind_run, probe_run.
  by destruct (hasCapabilityBit _ _).
Qed.

Lemma withWriteProvider_run resource st :
  withWriteProvider resource st
  = match withProvider resource st with
    | Some (Return p, st1) =>
      if hasOpenReadWriteCloseCapability p (world st1)
         || hasReadWriteCapability p (world st1)
      then Some (Return p, st1)
      else Some (Throw (PlainError "no write capability"), st1)
    | r => r
    end.
Proof.
  unfold withWriteProvider. rewrite bind_run.
  destruct (withProvider resource st) as [[[p|e] st1]|]; [|done..].
  rewrite bind_run, probe_run. by destruct (_ || _).
Qed.

(** X5.  On a provider that has the [Readonly] capability, [del] and
    [createFolder] throw FILE_PERMISSION_DENIED before anything else is
    done; so do [writeFile] and [move] (of a resource of the provider)
    when the provider has one of the write capabilities, and without
    one they fail before that, with the error of [withWriteProvider].
    In every case no provider is called and no event is fired. *)
Theorem readonly_is_permission_denied fuel resource st p st1 :
  withProvider resource st = Some (Return p, st1) ->
  hasCapabilityBit (IFileSystemProvider.capabilities p (world st))
                   FileSystemProviderCapabilities.Readonly = true ->
  let denied := FileOperationError "err.readonly" FILE_PERMISSION_DENIED in
  let refused :=
      if hasOpenReadWriteCloseCapability p (world st) || hasReadWriteCapability p (world st)
      then denied else PlainError "no write capability" in
  world st1 = world st
  /\ afterOperation st1 = afterOperation st
  /\ (forall options, del fuel resource options st = Some (Throw denied, st1))
  /\ createFolder fuel resource st = Some (Throw denied, st1)
  /\ (forall data options,
         writeFile fuel resource data options st = Some (Throw refused, st1))
  /\ (forall target overwrite,
         move fuel resource target overwrite st = Some (Throw refused, st1)).
Proof.
  intros Hp Hro denied refused.
  destruct (withProvider_keeps _ _ _ _ Hp) as [Hworld Hevents].
  assert (Hthrow : throwIfFileSystemIsReadonly p resource st1 = Some (Throw denied, st1)).
  { rewrite throwIfFileSystemIsReadonly_run, Hworld, Hro. reflexivity. }
  split; [exact Hworld|]. split; [exact Hevents|]. split; [|split].
  - intros options. unfold del. by rewrite bind_run, Hp, bind_run, Hthrow.
  - unfold createFolder. by rewrite bind_run, Hp, bind_run, Hthrow.
  - pose proof (withWriteProvider_run resource st) as Hwp.
    rewrite Hp, Hworld in Hwp. unfold refused.
    destruct (hasOpenReadWriteCloseCapability p (world st)
              || hasReadWriteCapability p (world st)).
    + split.
      * intros data options. unfold writeFile. by rewrite bind_run, Hwp, bind_run, Hthrow.
      * intros target overwrite. unfold move. by rewrite bind_run, Hwp, bind_run, Hthrow.
    + split.
      * intros data options. unfold writeFile. by rewrite bind_run, Hwp.
      * intros target overwrite. unfold move. by rewrite bind_run, Hwp.
Qed.
End Readonly.

Section ReadonlyRuns.
Import PosixResources Archive.

(** X5, at inputs: the file of the archive cannot be deleted or
    written, and the folder is not created; the tape, which is read
    only and can only be streamed, has no provider to write with. *)
Lemma readonly_is_permission_denied_witness :
  let denied := FileOperationError "err.readonly" FILE_PERMISSION_DENIED in
  del 5 old_txt None st0 = Some (Throw denied, st0)
  /\ writeFile 5 old_txt (ofBuffer (Fixture.text "new")) None st0
     = Some (Throw denied, st0)
  /\ createFolder 5 (MemFS.uri "archive" "/new") st0 = Some (Throw denied, st0)
  /\ del 5 reel None st0 = Some (Throw denied, st0)
  /\ writeFile 5 reel (ofBuffer (Fixture.text "new")) None st0
     = Some (Throw (PlainError "no write capability"), st0).
Proof.
  intros denied.
  assert (Hp : withProvider old_txt st0 = Some (Return archive, st0)) by reflexivity.
  assert (Hro : hasCapabilityBit (IFileSystemProvider.capabilities archive (world st0))
                                 FileSystemProviderCapabilities.Readonly = true)
    by reflexivity.
  destruct (readonly_is_permission_denied 5 old_txt st0 archive st0 Hp Hro)
    as (_ & _ & Hdel & _ & Hwrite & _).
  split; [apply Hdel|]. split; [apply Hwrite|].
  assert (Hq : withProvider (MemFS.uri "archive" "/new") st0 = Some (Return archive, st0))
    by reflexivity.
  destruct (readonly_is_permission_denied 5 _ st0 archive st0 Hq Hro)
    as (_ & _ & _ & Hcreate & _).
  split; [exact Hcreate|].
  assert (Hr : withProvider reel st0 = Some (Return tape, st0)) by reflexivity.
  assert (Hrro : hasCapabilityBit (IFileSystemProvider.capabilities tape (world st0))
                                  FileSystemProviderCapabilities.Readonly = true)
    by reflexivity.
  destruct (readonly_is_permission_denied 5 reel st0 tape st0 Hr Hrro)
    as (_ & _ & Hdel' & _ & Hwrite' & _).
  split; [apply Hdel'|apply Hwrite'].
Defined.
End ReadonlyRuns.


(** ** Reading limits and resolving *)

Section Resolving.
Context {W : Type} `{Resources} `{Files}.
Implicit Types (p sp tp : Provider W) (st : FileService W).

Lemma validateReadFileLimits_eq resource (size : Z) options st :
  validateReadFileLimits resource size options st
  = let limits := options ≫= IReadFileOptions.limits in
    if exceeds size (limits ≫= IReadFileOptions.size)
    then Some (Throw (FileOperationError "fileTooLargeError" FILE_TOO_LARGE), st)
    else if exceeds size (limits ≫= IReadFileOptions.memory)
    then Some (Throw (FileOperationError "fileTooLargeError" FILE_EXCEEDS_MEMORY_LIMIT), st)
    else Some (Return tt, st).
Proof.
  unfold validateReadFileLimits. cbn zeta.
  destruct (options ≫= IReadFileOptions.limits) as [[size' memory']|]; [|reflexivity].
  cbn [mbind option_bind IReadFileOptions.size IReadFileOptions.memory exceeds].
  destruct size' as [s|], memory' as [m|]; cbn [exceeds];
    repeat match goal with |- context [?a <? ?b] => destruct (a <? b) end; reflexivity.
Qed.

Lemma validateReadFileLimits_inv resource (size : Z) options st r st' :
  validateReadFileLimits resource size options st = Some (r, st') ->
  st' = st
  /\ match r with
     | Return _ =>
       exceeds size ((options ≫= IReadFileOptions.limits) ≫= IReadFileOptions.size) = false
       /\ exceeds size ((options ≫= IReadFileOptions.limits) ≫= IReadFileOptions.memory)
          = false
     | Throw _ => True
     end.
Proof.
  rewrite validateReadFileLimits_eq. cbn zeta.
  destruct (exceeds size _); [by intros [= <- <-]|].
  destruct (exceeds size _); by intros [= <- <-].
Qed.

(** X6.  [validateReadFileLimits] changes nothing and throws exactly
    when the size is beyond one of the limits that are given: beyond
    the size limit the error is FILE_TOO_LARGE, also when the memory
    limit is exceeded too, and beyond the memory limit alone it is
    FILE_EXCEEDS_MEMORY_LIMIT. *)
Theorem validateReadFileLimits_run resource (size : Z) options st :
  let limits := options ≫= IReadFileOptions.limits in
  let tooLarge := exceeds size (limits ≫= IReadFileOptions.size) in
  let tooMuch := exceeds size (limits ≫= IReadFileOptions.memory) in
  match validateReadFileLimits resource size options st with
  | Some (Return _, st') => st' = st /\ tooLarge = false /\ tooMuch = false
  | Some (Throw e, st') =>
    st' = st
    /\ tooLarge || tooMuch = true
    /\ e = FileOperationError "fileTooLargeError"
                              (if tooLarge then FILE_TOO_LARGE
                               else FILE_EXCEEDS_MEMORY_LIMIT)
  | None => False
  end.
Proof.
  rewrite validateReadFileLimits_eq. cbn zeta.
  destruct (exceeds size _); [done|]. by destruct (exceeds size _).
Qed.

(* what [toFileStat] gives when it ends: the converted stat, with
   children when the directory is expanded *)
Lemma toFileStat_returns fuel p resource stat siblings resolveMetadata recurse st r st' :
  toFileStat fuel p resource stat siblings resolveMetadata recurse st = Some (r, st') ->
  exists fileStat,
    r = Return fileStat
    /\ let node := convertToFileStat resource stat in
       if IFileStat.isDirectory node && recurse node siblings
       then exists children, fileStat = withChildren node children
       else fileStat = node.
Proof.
  rewrite toFileStat_run. cbn zeta.
  destruct (IFileStat.isDirectory _ && recurse _ siblings);
    [|intros [= <- <-]; by eexists].
  destruct fuel as [|fuel]; [discriminate|].
  rewrite tryCatch_run, bind_run, call_run.
  destruct (fst _) as [entries|e]; [|intros [= <- <-]; eexists; split; [done|by eexists]].
  rewrite bind_run.
  destruct (resolveEntries _ _ _ _ _ _ _) as [[[resolved|e] st1]|]; [| |discriminate];
    intros [= <- <-]; eexists; (split; [done|by eexists]).
Qed.

(** X7.  [toFileStat] does not throw: whatever goes wrong beneath the
    resource (a listing that fails, a child whose stat fails) is caught.
    When it ends it returns the converted stat of the resource, with a
    list of children exactly when the resource is a directory that is
    to be expanded. *)
Theorem toFileStat_never_throws fuel p resource stat siblings resolveMetadata recurse st :
  match toFileStat fuel p resource stat siblings resolveMetadata recurse st with
  | Some (Return fileStat, _) =>
    let node := convertToFileStat resource stat in
    IFileStat.resource fileStat = resource
    /\ IFileStat.isDirectory fileStat = IFileStat.isDirectory node
    /\ (is_Some (IFileStat.children fileStat)
        <-> IFileStat.isDirectory node && recurse node siblings = true)
  | Some (Throw _, _) => False
  | None => True
  end.
Proof.
  destruct (toFileStat _ _ _ _ _ _ _ _) as [[r st']|] eqn:Hrun; [|done].
  apply toFileStat_returns in Hrun as (fileStat & -> & Hshape). cbn zeta in *.
  destruct (IFileStat.isDirectory _ && recurse _ siblings).
  - destruct Hshape as [children ->]. cbn. split; [done|]. split; [done|].
    split; [done|by eexists].
  - subst fileStat. cbn. split; [done|]. split; [done|].
    split; [intros [? [=]]|done].
Qed.

Lemma doResolveFile_inv fuel resource options st r st' :
  doResolveFile fuel resource options st = Some (r, st') ->
  match r with
  | Return fileStat =>
    isAbsolutePath resource = true /\ IFileStat.resource fileStat = resource
  | Throw e => rootFailure resource st e st'
  end.
Proof.
  unfold doResolveFile. intros Hrun.
  apply bind_inv in Hrun as [(e & Hrun & ->)|(p & st1 & Hp & Hrun)]; [by left|].
  apply bind_inv in Hrun as [(e & Hrun & ->)|(stat & st2 & Hstat & Hrun)].
  { right. by exists p, st1. }
  apply toFileStat_returns in Hrun as (fileStat & -> & Hshape). cbn zeta in Hshape.
  split.
  - rewrite withProvider_run in Hp. by destruct (isAbsolutePath resource).
  - destruct (IFileStat.isDirectory _ && _); [destruct Hshape as [children ->]|subst];
      reflexivity.
Qed.

(** X8.  [resolve] throws only for the root: when the provider of the
    resource is not found or the stat of the resource itself fails.  A
    FileNotFound of the provider is thrown as FILE_NOT_FOUND, any other
    error as it is.  When [resolve] returns, the stat is that of the
    resource. *)
Theorem resolve_fails_only_at_the_root fuel resource options st :
  match resolve fuel resource options st with
  | Some (Return fileStat, _) => IFileStat.resource fileStat = resource
  | Some (Throw e, st') =>
    exists e0,
    rootFailure resource st e0 st'
    /\ e = if bool_decide (toFileSystemProviderErrorCode e0 = FileNotFound)
           then FileOperationError "fileNotFoundError" FILE_NOT_FOUND
           else e0
  | None => True
  end.
Proof.
  unfold resolve. rewrite tryCatch_run.
  destruct (doResolveFile fuel resource options st) as [[[fileStat|e0] st']|] eqn:Hrun.
  - by destruct (doResolveFile_inv _ _ _ _ _ _ Hrun).
  - pose proof (doResolveFile_inv _ _ _ _ _ _ Hrun) as Hroot. cbn in Hroot.
    unfold ensureFileSystemProviderError.
    destruct (bool_decide (toFileSystemProviderErrorCode e0 = FileNotFound)) eqn:Hcode;
      rewrite throw_run; exists e0; by rewrite Hcode.
  - exact I.
Qed.

Lemma resolveAll_cons fuel resource options toResolve st :
  resolveAll fuel ((resource, options) :: toResolve) st
  = match doResolveFile fuel resource options st with
    | Some (r, st1) =>
      match resolveAll fuel toResolve st1 with
      | Some (Return results, st') =>
        Some (Return (match r with
                      | Return stat => IResolveFileResult.mk (Some stat) true
                      | Throw _ => IResolveFileResult.mk None false
                      end :: results), st')
      | r' => r'
      end
    | None => None
    end.
Proof.
  unfold resolveAll. cbn [mapM]. rewrite bind_run, tryCatch_run, bind_run.
  destruct (doResolveFile fuel resource options st) as [[[stat|e] st1]|]; [| |done].
  - rewrite ret_run, bind_run. by destruct (mapM _ _ _) as [[[results|e'] st']|].
  - rewrite ret_run, bind_run. by destruct (mapM _ _ _) as [[[results|e'] st']|].
Qed.

(** X9.  [resolveAll] does not throw.  When it ends it returns one
    result for each request, in the order of the requests; a result
    that succeeded carries the stat of the resource of its request, and
    a request that could not be resolved, be it for a relative path,
    gives a result without stat and with [success] false. *)
Theorem resolveAll_never_throws fuel toResolve st :
  match resolveAll fuel toResolve st with
  | Some (Return results, _) =>
    Forall2 (fun request result =>
               match IResolveFileResult.stat result with
               | Some stat =>
                 IResolveFileResult.success result = true
                 /\ IFileStat.resource stat = request.1
                 /\ isAbsolutePath request.1 = true
               | None => IResolveFileResult.success result = false
               end)
            toResolve results
  | Some (Throw _, _) => False
  | None => True
  end.
Proof.
  revert st. induction toResolve as [|[resource options] toResolve IH]; intros st.
  { cbn. constructor. }
  rewrite resolveAll_cons.
  destruct (doResolveFile fuel resource options st) as [[r st1]|] eqn:Hrun; [|done].
  specialize (IH st1).
  destruct (resolveAll fuel toResolve st1) as [[[results|e] st']|]; [|done..].
  constructor; [|exact IH].
  pose proof (doResolveFile_inv _ _ _ _ _ _ Hrun) as Hinv.
  destruct r as [stat|e]; cbn; [|done]. destruct Hinv. by repeat split.
Qed.

(** X13.  When [validateReadFile] returns, it returns the stat that
    [resolve] gave, which is not a directory, whose etag is not the one
    of the options (unless that is ETAG_DISABLED) and whose size is
    within the limits.  When it throws after [resolve] has returned, a
    directory is reported as FILE_IS_DIRECTORY whatever the etag and the
    limits are, and a file with the etag of the options as
    FILE_NOT_MODIFIED_SINCE whatever the limits are. *)
Theorem validateReadFile_returns fuel resource options st :
  let limits := options ≫= IReadFileOptions.limits in
  let unmodified (stat : IFileStat.t) :=
      exists tag, options ≫= IReadFileOptions.etag = Some tag
                  /\ tag <> ETAG_DISABLED /\ IFileStat.etag stat = Some tag in
  match validateReadFile fuel resource options st with
  | Some (Return stat, st') =>
    resolve fuel resource resolveMetadataOnly st = Some (Return stat, st')
    /\ IFileStat.isDirectory stat = false
    /\ ~ unmodified stat
    /\ (forall size, IFileStat.size stat = Some size ->
                     exceeds size (limits ≫= IReadFileOptions.size) = false
                     /\ exceeds size (limits ≫= IReadFileOptions.memory) = false)
  | Some (Throw e, st') =>
    resolve fuel resource resolveMetadataOnly st = Some (Throw e, st')
    \/ exists stat,
      resolve fuel resource resolveMetadataOnly st = Some (Return stat, st')
      /\ (IFileStat.isDirectory stat = true ->
          e = FileOperationError "fileIsDirectoryReadError" FILE_IS_DIRECTORY)
      /\ (IFileStat.isDirectory stat = false -> unmodified stat ->
          e = FileOperationError "fileNotModifiedError" FILE_NOT_MODIFIED_SINCE)
  | None => True
  end.
Proof.
  cbn zeta. unfold validateReadFile. rewrite bind_run.
  destruct (resolve fuel resource resolveMetadataOnly st) as [[[stat|e] st1]|];
    [|by left|done].
  destruct (IFileStat.isDirectory stat) eqn:Hdir.
  { rewrite throw_run. right. exists stat.
    split; [done|]. split; [done|]. intros; congruence. }
  match goal with
  | |- context [if ?b then throw _ else _] => destruct b eqn:Hmatches
  end.
  { rewrite throw_run. right. exists stat. split; [done|]. split; [intros; congruence|done]. }
  assert (Hnot : ~ (exists tag, options ≫= IReadFileOptions.etag = Some tag
                                /\ tag <> ETAG_DISABLED /\ IFileStat.etag stat = Some tag)).
  { intros (tag & Htag & Hne & Hetag). rewrite Htag in Hmatches.
    by rewrite bool_decide_eq_false_2, Hetag, bool_decide_eq_true_2 in Hmatches. }
  rewrite bind_run.
  destruct (IFileStat.size stat) as [size|] eqn:Hsize.
  - destruct (validateReadFileLimits resource size options st1) as [[[[]|e] st2]|] eqn:Hlim;
      [| |done]; destruct (validateReadFileLimits_inv _ _ _ _ _ _ Hlim) as [-> Hwithin].
    + rewrite ret_run. split; [done|]. split; [done|]. split; [exact Hnot|].
      intros size' Hs. rewrite Hsize in Hs. injection Hs as <-. exact Hwithin.
    + right. exists stat. split; [done|]. split; [intros; congruence|]. by intros _ ?.
  - rewrite !ret_run. split; [done|]. split; [done|]. split; [exact Hnot|].
    intros size' Hs. rewrite Hsize in Hs. discriminate.
Qed.
End Resolving.


(** ** Move, copy and delete: what is checked before anything is done *)

Section Validation.
Context {W : Type} `{Resources} `{Files}.
Implicit Types (p sp tp : Provider W) (st : FileService W).

(** X10.  When [doValidateMoveCopy] returns, (a) the source and the
    target are the same resource in different case only for a move
    within one provider that is not case sensitive; (b) within one
    provider, and unless (a), the source is not the target or a parent
    of it; (c) a target that exists, unless (a), is accepted only with
    [overwrite], and (d) within one provider such a target is not the
    source or a parent of the source. *)
Theorem doValidateMoveCopy_returns sp source tp target mode overwrite st :
  match doValidateMoveCopy sp source tp target mode overwrite st with
  | Some (Return (exists', isSameResourceWithDifferentPathCase), st') =>
    (isSameResourceWithDifferentPathCase = true ->
     sameProvider sp tp = true /\ mode = ModeMove
     /\ isPathCaseSensitive sp (world st) = false
     /\ isEqual source target (Some true) = true)
    /\ (isSameResourceWithDifferentPathCase = false -> sameProvider sp tp = true ->
        isEqualOrParent target source (negb (isPathCaseSensitive sp (world st))) = false)
    /\ (exists' = true -> isSameResourceWithDifferentPathCase = false ->
        overwrite = true)
    /\ (exists' = true -> isSameResourceWithDifferentPathCase = false ->
        sameProvider sp tp = true ->
        isEqualOrParent source target (negb (isPathCaseSensitive sp (world st'))) = false)
  | _ => True
  end.
Proof.
  destruct (doValidateMoveCopy sp source tp target mode overwrite st)
    as [[[[ex same]|e] st']|] eqn:Hrun; [|done..].
  unfold doValidateMoveCopy in Hrun.
  apply bind_returns in Hrun as (same' & st1 & Hsame & Hrun).
  apply bind_returns in Hrun as (ex' & st2 & Hex & Hrun).
  apply bind_returns in Hrun as ([] & st3 & Hcheck & Hrun).
  injection Hrun as <- <- <-.
  assert (Hfirst :
            (same' = true ->
             sameProvider sp tp = true /\ mode = ModeMove
             /\ isPathCaseSensitive sp (world st) = false
             /\ isEqual source target (Some true) = true)
            /\ (same' = false -> sameProvider sp tp = true ->
                isEqualOrParent target source (negb (isPathCaseSensitive sp (world st)))
                = false)).
  { destruct (sameProvider sp tp); [|injection Hsame as <- <-; by split].
    rewrite bind_run, probe_run in Hsame.
    destruct (isPathCaseSensitive sp (world st)); cbn [negb andb] in *.
    - destruct (isEqualOrParent target source false); [discriminate|].
      injection Hsame as <- <-. by split.
    - destruct (isEqual source target (Some true)); cbn [andb negb] in Hsame.
      + destruct mode; cbn [isCopy] in Hsame; [|discriminate].
        injection Hsame as <- <-. by split.
      + destruct (isEqualOrParent target source true); [discriminate|].
        injection Hsame as <- <-. by split. }
  destruct Hfirst as [Ha Hb]. split; [exact Ha|]. split; [exact Hb|].
  split.
  - intros -> ->. cbn [andb negb] in Hcheck. by destruct overwrite.
  - intros -> -> Hone. cbn [andb negb] in Hcheck.
    destruct overwrite; cbn [negb] in Hcheck; [|discriminate].
    rewrite Hone, bind_run, probe_run in Hcheck.
    destruct (isEqualOrParent source target (negb (isPathCaseSensitive sp (world st2))))
      eqn:Hparent; [discriminate|].
    injection Hcheck as <-. exact Hparent.
Qed.

(** X11.  Without [overwrite], a move or a copy between two providers
    onto a target that exists throws FILE_MOVE_CONFLICT when [exists]
    has answered: nothing is deleted, created or written. *)
Theorem doMoveCopy_conflict fuel sp source tp target mode st st1 :
  toString source <> toString target ->
  sameProvider sp tp = false ->
  exists_ target st = Some (Return true, st1) ->
  doMoveCopy (S fuel) sp source tp target mode false st
  = Some (Throw (FileOperationError "unableToMoveCopyError3" FILE_MOVE_CONFLICT), st1).
Proof.
  intros Hne Hsame Hex. cbn [doMoveCopy].
  rewrite (bool_decide_eq_false_2 _ Hne), bind_run.
  unfold doValidateMoveCopy. rewrite Hsame, bind_run, ret_run, bind_run, Hex.
  reflexivity.
Qed.

(** X12.  When [del] returns, the provider of the resource was found
    and is not read only, it has the [Trash] capability if the trash
    was asked for, and [exists] has answered that the resource is
    there. *)
Theorem del_validates fuel resource options st :
  match del fuel resource options st with
  | Some (Return _, _) =>
    exists p st1 st2,
    withProvider resource st = Some (Return p, st1)
    /\ hasCapabilityBit (IFileSystemProvider.capabilities p (world st))
                        FileSystemProviderCapabilities.Readonly = false
    /\ (truthy (options ≫= useTrash) = true ->
        hasCapabilityBit (IFileSystemProvider.capabilities p (world st))
                         FileSystemProviderCapabilities.Trash = true)
    /\ exists_ resource st1 = Some (Return true, st2)
  | _ => True
  end.
Proof.
  destruct (del fuel resource options st) as [[[[]|e] st']|] eqn:Hrun; [|done..].
  unfold del in Hrun.
  apply bind_returns in Hrun as (p & st1 & Hp & Hrun).
  apply bind_returns in Hrun as (p' & st1' & Hro & Hrun).
  destruct (withProvider_keeps _ _ _ _ Hp) as [Hworld _].
  rewrite throwIfFileSystemIsReadonly_run, Hworld in Hro.
  destruct (hasCapabilityBit _ FileSystemProviderCapabilities.Readonly) eqn:Hreadonly;
    [discriminate|]. injection Hro as <- <-.
  apply bind_returns in Hrun as (noTrash & st1' & Htrash & Hrun).
  rewrite probe_run, Hworld in Htrash. injection Htrash as <- <-.
  destruct (truthy (options ≫= useTrash)) eqn:HuseTrash; cbn [andb] in Hrun.
  - destruct (hasCapabilityBit _ FileSystemProviderCapabilities.Trash) eqn:Hcap;
      cbn [negb] in Hrun; [|discriminate].
    apply bind_returns in Hrun as (ex & st2 & Hex & Hrun).
    destruct ex; cbn [negb] in Hrun; [|discriminate].
    by exists p, st1, st2.
  - apply bind_returns in Hrun as (ex & st2 & Hex & Hrun).
    destruct ex; cbn [negb] in Hrun; [|discriminate].
    by exists p, st1, st2.
Qed.
End Validation.

Section ValidationRuns.
Import PosixResources Fixture.

(** X11, at an input: [mem:///a/b.txt] is not copied onto the root of
    [disk], which is there. *)
Lemma doMoveCopy_conflict_witness :
  doMoveCopy 5 mem b_txt disk (MemFS.uri "disk" "/") ModeCopy false st0
  = Some (Throw (FileOperationError "unableToMoveCopyError3" FILE_MOVE_CONFLICT), st0).
Proof.
  apply (doMoveCopy_conflict 4 mem b_txt disk (MemFS.uri "disk" "/") ModeCopy st0 st0).
  - differ.
  - reflexivity.
  - reflexivity.
Defined.
End ValidationRuns.


(** ** mkdirp at a path that is there *)

Section MkdirpStops.
Context {W : Type} `{Resources} `{Files}.
Implicit Types (p sp tp : Provider W) (st : FileService W).

(** X14.  [mkdirp] of a directory that is not the root, after its first
    stat: when the provider knows the path as a directory, nothing is
    created; when it knows it as something else, [mkdirp] throws its
    own error, which passes its own catch; and an error of the stat
    other than FileNotFound is thrown on as it is, nothing being
    created. *)
Theorem mkdirp_first_stat fuel p directory st :
  isEqual directory (dirname directory) None = false ->
  match IFileSystemProvider.stat p directory (world st) with
  | (Return stat, w') =>
    mkdirp (S fuel) p directory st
    = if Z.land (IStat.type stat) FileType.Directory =? 0
      then Some (Throw (PlainError "mkdirExistsError"), withWorld w' st)
      else Some (Return tt, withWorld w' st)
  | (Throw e, w') =>
    toFileSystemProviderErrorCode e <> FileNotFound ->
    mkdirp (S fuel) p directory st = Some (Throw e, withWorld w' st)
  end.
Proof.
  intros Hroot. unfold mkdirp. cbn [mkdirpUp]. rewrite Hroot.
  rewrite !bind_run, tryCatch_run, bind_run, call_run.
  destruct (IFileSystemProvider.stat p directory (world st)) as [[stat|e] w'];
    cbn [fst snd].
  - destruct (Z.land (IStat.type stat) FileType.Directory =? 0); [|reflexivity].
    rewrite throw_run. cbn [toFileSystemProviderErrorCode].
    rewrite bool_decide_eq_false_2 by discriminate. reflexivity.
  - intros Hcode. by rewrite (bool_decide_eq_false_2 _ Hcode).
Qed.
End MkdirpStops.

Section MkdirpRuns.
Import PosixResources Fixture.

(** X14, at inputs: [mem:///a] is there and nothing is created;
    [mem:///a/b.txt] is a file, in the way of a directory. *)
Lemma mkdirp_first_stat_witness :
  mkdirp 3 mem a_dir st0 = Some (Return tt, st0)
  /\ mkdirp 3 mem b_txt st0 = Some (Throw (PlainError "mkdirExistsError"), st0).
Proof.
  split.
  - exact (mkdirp_first_stat 2 mem a_dir st0 eq_refl).
  - exact (mkdirp_first_stat 2 mem b_txt st0 eq_refl).
Defined.
End MkdirpRuns.


(** ** The registry of the providers *)

Section Registry.
Context {W : Type}.
Import Registration.

(** X15.  [registerProvider] throws, and changes nothing, exactly when
    the scheme has a provider.  Otherwise the provider is the one of the
    scheme, [canHandleResource] answers true for the resources of the
    scheme and [hasCapability] answers by the capabilities of the
    provider; the other schemes are as they were.  The disposal of the
    registration brings the registry back to what it was; the two
    events that were fired are the one of the registration and the one
    of its end, and the listeners of the provider are disposed. *)
Theorem registerProvider_registers (name : string) (p : Provider W) (st : State W) :
  match registerProvider name p st with
  | (Return registration, st1) =>
    provider (service st) !! name = None
    /\ provider (service st1) !! name = Some p
    /\ (forall other, other <> name ->
                      provider (service st1) !! other = provider (service st) !! other)
    /\ (forall resource capability,
           scheme resource = name ->
           canHandleResource resource (service st1) = true
           /\ hasCapability resource capability (service st1)
              = hasCapabilityBit (IFileSystemProvider.capabilities p (world (service st)))
                                 capability)
    /\ let st2 := unregister registration st1 in
       provider (service st2) = provider (service st)
       /\ registrations st2
          = (registrations st ++ [mkEvent true name p; mkEvent false name p])%list
       /\ providerDisposables st2 = (providerDisposables st ++ [true])%list
  | (Throw _, st1) => is_Some (provider (service st) !! name) /\ st1 = st
  end.
Proof.
  unfold registerProvider, registry. case_bool_decide as Hthere; [done|].
  apply eq_None_not_Some in Hthere.
  split; [exact Hthere|]. cbn [service setProviders provider].
  split; [by rewrite lookup_insert_eq|].
  split; [intros other Hother; by rewrite lookup_insert_ne|].
  split.
  - intros resource capability <-. unfold canHandleResource, hasCapability.
    cbn [service setProviders provider world]. rewrite lookup_insert_eq.
    split; [by rewrite bool_decide_eq_true_2|reflexivity].
  - cbn zeta. unfold unregister, registry.
    cbn [service setProviders provider registrations providerDisposables
                 registeredScheme registeredProvider store].
    split; [by rewrite delete_insert_id|].
    split; [by rewrite <- (assoc app)|].
    rewrite insert_app_r_alt by lia. by rewrite Nat.sub_diag.
Qed.
End Registry.


(** ** The write queues: they run dry and delete themselves *)

Section QueueDrains.
Import Async WriteQueue.
Context {W : Type}.
Implicit Types (st : State W) (key : string) (w : W) (t task : Task W).

Lemma ending_init w key : ending key (init w).
Proof. intros q Hq. cbn [init writeQueues] in Hq. by rewrite lookup_empty in Hq. Qed.

Lemma ending_other st st' key :
  writeQueues st' !! key = writeQueues st !! key -> ending key st -> ending key st'.
Proof. intros Heq Hend q Hq. apply Hend. by rewrite <- Heq. Qed.

Lemma ending_consume key k st : ending key st -> ending key (consume k st).
Proof.
  intros Hend. unfold consume.
  destruct (writeQueues st !! k) as [[[r|] [|[id t] waiting]]|] eqn:Hk; try done.
  destruct (decide (k = key)) as [->|Hne].
  - intros q Hq. cbn [emit setQueue writeQueues] in Hq. rewrite lookup_insert_eq in Hq.
    injection Hq as <-. destruct (Hend _ Hk) as [_ Hwait]. cbn [running outstanding] in *.
    split.
    + intros id' t' [= <- <-]. apply (Hwait id). by left.
    + intros id' t' Hin. apply (Hwait id'). by right.
  - apply (ending_other st); [|done]. cbn [emit setQueue writeQueues].
    by rewrite lookup_insert_ne.
Qed.

Lemma ending_step key (a : Action W) st :
  (forall id task, a = Submit key id task -> ends task) ->
  ending key st -> ending key (step a st).
Proof.
  intros Ha Hend. destruct a as [k id task|k|k]; cbn [step].
  - unfold submit, ensureWriteQueue.
    destruct (writeQueues st !! k) as [q|] eqn:Hk; cbn [emit setQueue writeQueues];
      rewrite ?lookup_insert_eq, ?Hk; apply ending_consume.
    + destruct (decide (k = key)) as [->|Hne].
      * intros q' Hq'. cbn [emit setQueue writeQueues] in Hq'.
        rewrite lookup_insert_eq in Hq'. injection Hq' as <-.
        destruct (Hend _ Hk) as [Hrun Hwait]. cbn [running outstanding]. split; [done|].
        intros id' t' Hin. apply elem_of_app in Hin as [Hin|Hin]; [by eapply Hwait|].
        apply list_elem_of_singleton in Hin as [= -> ->]. by eapply Ha.
      * apply (ending_other st); [|done]. cbn [emit setQueue writeQueues].
        by rewrite lookup_insert_ne.
    + destruct (decide (k = key)) as [->|Hne].
      * intros q' Hq'. cbn [emit setQueue writeQueues] in Hq'.
        rewrite lookup_insert_eq in Hq'. injection Hq' as <-.
        cbn [running outstanding]. split; [done|].
        intros id' t' Hin. apply list_elem_of_singleton in Hin as [= -> ->]. by eapply Ha.
      * apply (ending_other st); [|done]. cbn [emit setQueue writeQueues].
        by rewrite !lookup_insert_ne.
  - unfold advance.
    destruct (writeQueues st !! k) as [[[[id [result| |turn next]]|] waiting]|] eqn:Hk;
      try done.
    destruct (decide (k = key)) as [->|Hne].
    + intros q' Hq'. cbn [writeQueues] in Hq'. rewrite lookup_insert_eq in Hq'.
      injection Hq' as <-. destruct (Hend _ Hk) as [Hrun Hwait].
      cbn [running outstanding] in *. split; [|done].
      intros id' t' [= <- <-]. apply (Hrun id _ eq_refl).
    + apply (ending_other st); [|done]. cbn [writeQueues]. by rewrite lookup_insert_ne.
  - unfold settle.
    destruct (writeQueues st !! k) as [[[[id [result| |turn next]]|] waiting]|] eqn:Hk;
      try done.
    destruct waiting as [|[id' t'] waiting].
    + destruct (decide (k = key)) as [->|Hne].
      * intros q' Hq'. cbn [writeQueues] in Hq'. by rewrite lookup_delete_eq in Hq'.
      * apply (ending_other st); [|done]. cbn [writeQueues]. by rewrite lookup_delete_ne.
    + apply ending_consume. destruct (decide (k = key)) as [->|Hne].
      * intros q' Hq'. cbn [setQueue writeQueues] in Hq'. rewrite lookup_insert_eq in Hq'.
        injection Hq' as <-. destruct (Hend _ Hk) as [_ Hwait].
        cbn [running outstanding] in *. by split.
      * apply (ending_other st); [|done]. cbn [setQueue writeQueues].
        by rewrite lookup_insert_ne.
Qed.

Lemma ending_run key : forall (actions : list (Action W)) st,
  (forall id task, Submit key id task ∈ actions -> ends task) ->
  ending key st -> ending key (run actions st).
Proof.
  induction actions as [|a actions IH]; intros st Hends Hend; [done|].
  rewrite run_cons. apply IH.
  - intros id task Hin. apply (Hends id). by right.
  - apply ending_step; [|done]. intros id task ->. apply (Hends id). by left.
Qed.

(* the task that runs, if it ends, comes to its end by its own turns *)
Lemma task_runs key t : forall st id waiting,
  ends t ->
  writeQueues st !! key = Some (mkQueue (Some (id, t)) waiting) ->
  exists turns result,
    (forall a, a ∈ turns -> a = Advance key)
    /\ writeQueues (run turns st) !! key
       = Some (mkQueue (Some (id, Settled result)) waiting).
Proof.
  induction t as [result| |turn next IH]; intros st id waiting Hends Hq; [|done|].
  - exists [], result. split; [|exact Hq]. intros a Ha.
    destruct (proj1 (elem_of_nil a) Ha).
  - destruct (IH (disk st) (advance key st) id waiting (Hends (disk st)))
      as (turns & result & Hturns & Hend).
    { unfold advance. rewrite Hq. cbn [writeQueues]. by rewrite lookup_insert_eq. }
    exists (Advance key :: turns), result. split; [|exact Hend].
    intros a Ha. apply elem_of_cons in Ha as [->|Ha]; [done|by apply Hturns].
Qed.

Lemma queue_drains key waiting : forall st id t,
  ends t -> (forall id' t', (id', t') ∈ waiting -> ends t') ->
  writeQueues st !! key = Some (mkQueue (Some (id, t)) waiting) ->
  exists turns,
    (forall a, a ∈ turns -> a = Advance key \/ a = Settle key)
    /\ writeQueues (run turns st) !! key = None.
Proof.
  induction waiting as [|[id' t'] waiting IH]; intros st id t Hends Hwait Hq;
    destruct (task_runs key t st id _ Hends Hq) as (turns & result & Hturns & Hend).
  - exists (turns ++ [Settle key])%list. split.
    + intros a Ha. apply elem_of_app in Ha as [Ha|Ha]; [left; by apply Hturns|].
      apply list_elem_of_singleton in Ha as ->. by right.
    + rewrite run_app. cbn [run foldl step]. unfold settle. rewrite Hend.
      cbn [writeQueues]. by rewrite lookup_delete_eq.
  - destruct (IH (settle key (run turns st)) id' t') as (rest & Hrest & Hdry).
    { apply (Hwait id'). by left. }
    { intros id'' t'' Hin. apply (Hwait id''). by right. }
    { unfold settle. rewrite Hend. unfold consume.
      cbn [emit setQueue writeQueues]. rewrite lookup_insert_eq.
      cbn [emit setQueue writeQueues]. by rewrite lookup_insert_eq. }
    exists (turns ++ Settle key :: rest)%list. split.
    + intros a Ha. apply elem_of_app in Ha as [Ha|Ha]; [left; by apply Hturns|].
      apply elem_of_cons in Ha as [->|Ha]; [by right|by apply Hrest].
    + rewrite run_app, run_cons. exact Hdry.
Qed.

Lemma ends_doWriteUnbufferedQueued `{Resources} (p : Provider W) resource data :
  ends (doWriteUnbufferedQueued p resource data).
Proof. intros w. exact I. Qed.

(** X16.  Whatever has been submitted and has run so far, if every task
    that was submitted for a key ends whatever the providers answer
    (an unbuffered write does; a buffered write to a provider that
    never takes a byte does not), the queue of the key runs dry by turns
    and ends of its own tasks alone, and is then gone from the table:
    no task of a queue waits for a task of another queue. *)
Theorem queue_runs_dry w (actions : list (Action W)) key :
  (forall id task, Submit key id task ∈ actions -> ends task) ->
  exists turns,
    (forall a, a ∈ turns -> a = Advance key \/ a = Settle key)
    /\ writeQueues (run (actions ++ turns) (init w)) !! key = None.
Proof.
  intros Hends.
  pose proof (fifo_run actions (init w) (fifo_init w) key) as Hfifo.
  pose proof (ending_run key actions (init w) Hends (ending_init w key)) as Hending.
  unfold fifo in Hfifo.
  destruct (writeQueues (run actions (init w)) !! key) as [[[[id t]|] waiting]|] eqn:Hq;
    cbn [running] in Hfifo; [|done|].
  - destruct (Hending _ Hq) as [Hrun Hwait]. cbn [running outstanding] in *.
    destruct (queue_drains key waiting _ id t (Hrun id t eq_refl) Hwait Hq)
      as (turns & Hturns & Hdry).
    exists turns. split; [exact Hturns|]. by rewrite run_app.
  - exists []. split; [|by rewrite app_nil_r].
    intros a Ha. destruct (proj1 (elem_of_nil a) Ha).
Qed.

(** X17.  The table has a queue for a key exactly while a task that was
    submitted for the key has not ended: the queue is made with the
    first submission and deletes itself when its last task has
    ended. *)
Theorem queue_is_there_while_tasks_run w (actions : list (Action W)) key :
  let st := run actions (init w) in
  writeQueues st !! key = None
  <-> runsOf key (log st) = serial key (submissions key (log st)).
Proof.
  intros st.
  pose proof (fifo_run actions (init w) (fifo_init w) key) as Hfifo.
  fold st in Hfifo. unfold fifo in Hfifo.
  destruct (writeQueues st !! key) as [[[[id t]|] waiting]|]; cbn [running] in Hfifo;
    [|done|by split].
  destruct Hfifo as (done & Hsub & Hruns). split; [discriminate|].
  intros Hall. exfalso. apply (f_equal List.length) in Hall.
  rewrite Hruns, Hsub, length_serial, !length_app, length_serial in Hall.
  cbn [List.length] in Hall. lia.
Qed.
End QueueDrains.

Section QueueDrainsRuns.
Import PosixResources Async WriteQueue WriteFixture.

(** X16, at an input: two unbuffered writes of one file are submitted
    and none has had a turn; the queue of the file runs dry by its own
    turns. *)
Lemma queue_runs_dry_witness :
  exists turns,
    (forall a, a ∈ turns -> a = Advance key \/ a = Settle key)
    /\ writeQueues (run ([first; third] ++ turns) (init start)) !! key = None.
Proof.
  apply (queue_runs_dry start [first; third] key).
  intros id task Hin.
  apply elem_of_cons in Hin as [Hin|Hin];
    [injection Hin as _ ->; apply ends_doWriteUnbufferedQueued|].
  apply elem_of_cons in Hin as [Hin|Hin];
    [injection Hin as _ ->; apply ends_doWriteUnbufferedQueued|].
  destruct (proj1 (elem_of_nil _) Hin).
Defined.
End QueueDrainsRuns.


(** ** The disposal of the service *)

Section ServiceDispose.
Context {W : Type} `{Resources}.
Import Watchers.
Implicit Types (st : State W) (h : Handle) (sv : FileService W).

Lemma closuresOk_mono st st' h :
  (forall a key, keyAt st a = Some key -> keyAt st' a = Some key) ->
  closuresOk st h -> closuresOk st' h.
Proof. intros Hmono [Hstage Hwd]. split; eauto. Qed.

Lemma Kept_init sv : Kept (init sv).
Proof.
  split; try done.
  - constructor.
  - intros d Hd. by apply elem_of_nil in Hd.
Qed.

Lemma Kept_setService sv st : Kept st -> Kept (setService sv st).
Proof. intros HK. destruct HK. by split. Qed.

Lemma Kept_watch st resource options : Kept st -> Kept (watch resource options st).
Proof.
  intros HK. destruct HK. split; cbn; try done.
  intros i h Hi. apply (closuresOk_mono st); [done|].
  apply lookup_app_Some in Hi as [Hi|[_ Hi]]; [by eapply kept_handles0|].
  apply list_lookup_singleton_Some in Hi as [_ <-]. by split.
Qed.

Lemma Kept_setHandle st i h' : Kept st -> closuresOk st h' -> Kept (setHandle i h' st).
Proof.
  intros HK Hok. destruct HK. split; cbn; try done.
  intros j hj Hj. apply (closuresOk_mono st); [done|].
  destruct (decide (i = j)) as [->|Hne].
  - pose proof (lookup_lt_Some _ _ _ Hj) as Hlt. rewrite length_insert in Hlt.
    rewrite list_lookup_insert_eq in Hj by done. by injection Hj as <-.
  - rewrite list_lookup_insert_ne in Hj by done. by eapply kept_handles0.
Qed.

(* a watcher is in the table under the key it was made for, or not at all *)
Lemma Kept_active_or_not st a key :
  Kept st -> keyAt st a = Some key ->
  activeWatchers st !! key = Some a \/ forall key', activeWatchers st !! key' <> Some a.
Proof.
  intros HK Hkey. destruct (decide (activeWatchers st !! key = Some a)) as [|Hne]; [by left|].
  right. intros key' Hk'.
  destruct (kept_active _ HK key' a Hk') as (_ & _ & _ & Hkey' & _). congruence.
Qed.

(* the closure over the watcher at [a] runs, for the first time or again *)
Lemma Kept_unref st a key : Kept st -> keyAt st a = Some key -> Kept (unref a key st).
Proof.
  intros HK Hkey. pose proof (keyAt_lt _ _ _ Hkey) as Hlt.
  pose proof (Kept_active_or_not _ _ _ HK Hkey) as Hwhere.
  destruct HK. rewrite kept_calls0 in Hlt.
  destruct (lookup_lt_is_Some_2 _ _ Hlt) as [w Hw].
  pose proof (kept_disposable0 a w Hw) as Hdisp.
  assert (Hlook : forall a' w',
             <[a := mkWatcher (disposable w) (count w - 1)]> (watchers st) !! a' = Some w' ->
             (a' = a /\ w' = mkWatcher a (count w - 1))
             \/ (a' <> a /\ watchers st !! a' = Some w')).
  { intros a' w' Hw'. destruct (decide (a = a')) as [<-|Hne].
    - rewrite list_lookup_insert_eq in Hw' by done. injection Hw' as <-. left.
      by rewrite Hdisp.
    - rewrite list_lookup_insert_ne in Hw' by done. by right. }
  unfold unref. rewrite Hw. cbn [count disposable].
  destruct (Z.eqb_spec (count w - 1) 0) as [Hzero|Hpos].
  - (* the count comes to 0: the watcher is in the table *)
    assert (Hactive : activeWatchers st !! key = Some a).
    { destruct Hwhere as [|Hnot]; [done|].
      destruct (kept_inactive0 a w Hw Hnot) as [Hle _]. lia. }
    destruct (kept_active0 key a Hactive) as (_ & _ & _ & _ & Hfresh).
    split; cbn.
    + intros a' w' Hw'. apply Hlook in Hw' as [[-> ->]|[_ Hw']]; [done|].
      by eapply kept_disposable0.
    + by rewrite length_insert.
    + intros key' a' Hk'. destruct (decide (key = key')) as [<-|Hne].
      { by rewrite lookup_delete_eq in Hk'. }
      rewrite lookup_delete_ne in Hk' by done.
      destruct (kept_active0 key' a' Hk') as (w' & Hw' & Hpos' & Hk'' & Hnd).
      assert (a' <> a) by (intros ->; unfold keyAt in *; congruence).
      exists w'. rewrite list_lookup_insert_ne by done. repeat split; try done.
      rewrite elem_of_app, list_elem_of_singleton. intros [?|?]; [done|congruence].
    + intros a' w' Hw' Hnot. apply Hlook in Hw' as [[-> ->]|[Hne Hw']].
      * cbn. split; [lia|]. rewrite Hdisp. apply elem_of_app. right. by left.
      * destruct (kept_inactive0 a' w' Hw') as [Hle Hin].
        { intros key' Hk'. apply (Hnot key'). rewrite lookup_delete_ne; [done|].
          intros <-. congruence. }
        split; [done|]. apply elem_of_app. by left.
    + apply NoDup_app. split; [done|]. split; [|apply NoDup_singleton].
      intros d Hd Hd'. apply list_elem_of_singleton in Hd' as ->. congruence.
    + intros d Hd. rewrite length_insert.
      apply elem_of_app in Hd as [Hd|Hd]; [by apply kept_disposed0|].
      apply list_elem_of_singleton in Hd as ->. by rewrite Hdisp.
    + intros i h Hi. apply (closuresOk_mono st); [done|]. by eapply kept_handles0.
  - split; cbn; try done.
    + intros a' w' Hw'. apply Hlook in Hw' as [[-> ->]|[_ Hw']]; [done|].
      by eapply kept_disposable0.
    + by rewrite length_insert.
    + intros key' a' Hk'.
      destruct (kept_active0 key' a' Hk') as (w' & Hw' & Hpos' & Hk'' & Hnd).
      destruct (decide (a = a')) as [<-|Hne].
      * eexists. rewrite list_lookup_insert_eq by done. repeat split; try done.
        cbn [count]. rewrite Hw in Hw'. injection Hw' as <-. lia.
      * exists w'. rewrite list_lookup_insert_ne by done. done.
    + intros a' w' Hw' Hnot. apply Hlook in Hw' as [[-> ->]|[Hne Hw']].
      * destruct (kept_inactive0 a w Hw Hnot) as [Hle Hin]. cbn. split; [lia|done].
      * by apply (kept_inactive0 a' w' Hw').
    + intros d Hd. rewrite length_insert. by apply kept_disposed0.
Qed.

Lemma Kept_increment st key a :
  Kept st -> activeWatchers st !! key = Some a -> Kept (increment a st).
Proof.
  intros HK Hk. destruct HK.
  destruct (kept_active0 key a Hk) as (w & Hw & Hpos & Hkey & Hnd).
  split; try done; cbn.
  - intros a' w'. rewrite list_lookup_alter. case_decide as Ha.
    + subst a'. rewrite Hw. intros [= <-]. cbn. apply (kept_disposable0 a w Hw).
    + apply kept_disposable0.
  - by rewrite length_alter.
  - intros key' a' Hk'.
    destruct (kept_active0 key' a' Hk') as (w' & Hw' & Hpos' & Hkey' & Hnd').
    rewrite list_lookup_alter. case_decide as Ha.
    + subst a'. rewrite Hw. eexists. split; [reflexivity|]. cbn.
      repeat split; try done. lia.
    + by exists w'.
  - intros a' w'. rewrite list_lookup_alter. case_decide as Ha.
    + subst a'. intros _ Hnot. by destruct (Hnot key).
    + apply kept_inactive0.
  - intros d Hd. rewrite length_alter. by apply kept_disposed0.
Qed.

Lemma Kept_subscribe st sv key resource options :
  Kept st -> activeWatchers st !! key = None ->
  let a := List.length (watchers st) in
  let st' :=
      increment a
                (mkState sv (watchers st ++ [mkWatcher (List.length (watchCalls st)) 0])
                         (<[key := a]> (activeWatchers st)) (handles st)
                         (watchCalls st ++ [(key, (resource, options))]) (disposed st)) in
  keyAt st' a = Some key
  /\ (forall a' key', keyAt st a' = Some key' -> keyAt st' a' = Some key')
  /\ Kept st'.
Proof.
  intros HK Hk a st'. subst st'. unfold increment, setWatchers. destruct HK.
  assert (Hold : forall a' key', keyAt st a' = Some key' ->
                                 fst <$> (watchCalls st ++ [(key, (resource, options))])%list !! a'
                                 = Some key').
  { intros a' key' Hkey'. pose proof (keyAt_lt _ _ _ Hkey').
    rewrite lookup_app_l by done. exact Hkey'. }
  assert (Hlook : forall a' w',
             alter (fun w => mkWatcher (disposable w) (count w + 1)) a
                   (watchers st ++ [mkWatcher (List.length (watchCalls st)) 0])%list !! a'
             = Some w' ->
             (a' = a /\ w' = mkWatcher a 1)
             \/ (a' <> a /\ watchers st !! a' = Some w')).
  { intros a' w'. rewrite list_lookup_alter. case_decide as Ha.
    - subst a'. unfold a. rewrite list_lookup_middle by done. cbn.
      intros [= <-]. left. by rewrite kept_calls0.
    - intros Hw'. right. split; [done|].
      apply lookup_app_Some in Hw' as [Hw'|[Hge Hw']]; [done|].
      apply list_lookup_singleton_Some in Hw' as [Hz _]. unfold a in Ha. lia. }
  assert (Hnew : fst <$> (watchCalls st ++ [(key, (resource, options))])%list !! a = Some key).
  { unfold a. rewrite <- kept_calls0. by rewrite list_lookup_middle. }
  split; [exact Hnew|]. split; [exact Hold|]. split; cbn.
  - intros a' w' Hw'. apply Hlook in Hw' as [[-> ->]|[_ Hw']]; [done|].
    by eapply kept_disposable0.
  - rewrite length_alter, !length_app. cbn. lia.
  - intros key' a'. rewrite lookup_insert. case_decide as Hkk.
    + subst key'. intros [= <-]. exists (mkWatcher a 1). repeat split.
      * rewrite list_lookup_alter_eq. unfold a. rewrite list_lookup_middle by done.
        cbn. by rewrite kept_calls0.
      * exact Hnew.
      * intros Hd. apply kept_disposed0 in Hd. unfold a in Hd. lia.
    + intros Hk'.
      destruct (kept_active0 key' a' Hk') as (w' & Hw' & Hpos' & Hkey' & Hnd').
      exists w'. repeat split; try done.
      * pose proof (lookup_lt_Some _ _ _ Hw').
        rewrite list_lookup_alter_ne by (unfold a; lia).
        by rewrite lookup_app_l.
      * by apply Hold.
  - intros a' w' Hw' Hnot. apply Hlook in Hw' as [[-> ->]|[Hne Hw']].
    + destruct (Hnot key). by rewrite lookup_insert_eq.
    + apply (kept_inactive0 a' w' Hw'). intros key' Hk'. apply (Hnot key').
      rewrite lookup_insert_ne; [done|]. intros <-. congruence.
  - done.
  - intros d Hd. rewrite length_alter, length_app. apply kept_disposed0 in Hd. cbn. lia.
  - intros i h Hi. apply (closuresOk_mono st); [|by eapply kept_handles0].
    intros a' key' Hkey'. by apply Hold.
Qed.

Lemma Kept_doWatch st resource options r st' :
  Kept st ->
  doWatch resource options st = Some (r, st') ->
  Kept st' /\ match r with
              | Return (a, key) => keyAt st' a = Some key
              | Throw _ => True
              end.
Proof.
  intros HK. unfold doWatch.
  destruct (withProvider resource (service st)) as [[[provider|e] sv]|]; [| |done].
  - pose proof (Kept_setService sv _ HK) as HK1.
    set (key := toWatchKey _ resource options).
    destruct (activeWatchers (setService sv st) !! key) as [a|] eqn:Hk.
    + intros [= <- <-]. split; [by apply (Kept_increment _ key)|].
      by destruct (kept_active _ HK1 key a Hk) as (_ & _ & _ & ? & _).
    + destruct (IFileSystemProvider.watch provider resource options (world sv))
        as [[d|e] w] eqn:Hwatch.
      * intros [= <- <-].
        destruct (Kept_subscribe _ (withWorld w sv) key resource options HK1 Hk)
          as (Hkey & _ & HK').
        by split.
      * intros [= <- <-]. split; [by apply Kept_setService|done].
  - intros [= <- <-]. split; [by apply Kept_setService|done].
Qed.

(* the closures of a handle are still good in a state that a doWatch
   or a closure has come to *)
Lemma closuresOk_doWatch st resource options r st' h :
  Kept st -> doWatch resource options st = Some (r, st') ->
  closuresOk st h -> closuresOk st' h.
Proof.
  intros HK E. apply closuresOk_mono. revert E. unfold doWatch.
  destruct (withProvider resource (service st)) as [[[provider|e] sv]|]; [| |done].
  - pose proof (Kept_setService sv _ HK) as HK1.
    set (key := toWatchKey _ resource options).
    destruct (activeWatchers (setService sv st) !! key) as [a|] eqn:Hk.
    + by intros [= <- <-].
    + destruct (IFileSystemProvider.watch provider resource options (world sv))
        as [[d|e] w] eqn:Hwatch; [|by intros [= <- <-]].
      intros [= <- <-].
      by destruct (Kept_subscribe _ (withWorld w sv) key resource options HK1 Hk)
        as (_ & Hmono & _).
  - by intros [= <- <-].
Qed.

Lemma Kept_step a st : isServiceDispose a = false -> Kept st -> Kept (step a st).
Proof.
  intros Ha HK. destruct a as [resource options|i|i|i| |change]; cbn [step]; [| | | |done|].
  - by apply Kept_watch.
  - unfold runDoWatch. destruct (handles st !! i) as [h|] eqn:Hi; [|done].
    destruct (stage h) eqn:Hstage; try done.
    destruct (doWatch (resource h) (options h) st) as [[r st']|] eqn:E; [|done].
    destruct (Kept_doWatch _ _ _ _ _ HK E) as [HK' Hr].
    pose proof (closuresOk_doWatch _ _ _ _ _ h HK E (kept_handles _ HK i h Hi)) as [_ Hwd].
    destruct r as [[a key]|e].
    + apply Kept_setHandle; [done|]. split; [|exact Hwd]. by intros a' key' [= <- <-].
    + apply Kept_setHandle; [done|]. split; [|exact Hwd]. by intros a' key' [=].
  - unfold runThen. destruct (handles st !! i) as [h|] eqn:Hi; [|done].
    destruct (stage h) as [| |a key|] eqn:Hstage; try done.
    destruct (kept_handles _ HK i h Hi) as [Hresolved Hwd].
    pose proof (Hresolved a key Hstage) as Hkey.
    destruct (watchDisposed h).
    + apply Kept_unref; [|done]. apply Kept_setHandle; [done|].
      split; [|exact Hwd]. by intros a' key' [=].
    + apply Kept_setHandle; [done|]. split; [by intros a' key' [=]|].
      by intros a' key' [= <- <-].
  - unfold disposeHandle. destruct (handles st !! i) as [h|] eqn:Hi; [|done].
    destruct (kept_handles _ HK i h Hi) as [Hresolved Hwd].
    destruct (watchDisposable h) as [[a key]|] eqn:Hclosure.
    + apply Kept_unref; [|by apply Hwd]. apply Kept_setHandle; [done|].
      split; [exact Hresolved|exact Hwd].
    + apply Kept_setHandle; [done|]. split; [exact Hresolved|]. by intros a' key' [=].
  - by apply Kept_setService.
Qed.

Lemma Kept_run sv (actions : list Action) :
  inService actions -> Kept (run actions (init sv)).
Proof.
  induction actions as [|a actions IH] using rev_ind; intros Hin; [apply Kept_init|].
  rewrite run_snoc. apply Kept_step.
  - apply Hin. apply elem_of_app. right. by left.
  - apply IH. intros a' Ha'. apply Hin. apply elem_of_app. by left.
Qed.

Lemma NoDup_entries st (entries : list (string * nat)) :
  NoDup entries.*1 ->
  (forall k a, (k, a) ∈ entries ->
               exists w, watchers st !! a = Some w /\ disposable w = a
                         /\ keyAt st a = Some k /\ a ∉ disposed st) ->
  NoDup (omap (fun e => disposable <$> watchers st !! snd e) entries)
  /\ forall d, d ∈ omap (fun e => disposable <$> watchers st !! snd e) entries <->
               exists k, (k, d) ∈ entries.
Proof.
  induction entries as [|[k a] entries IH]; intros Hnodup Hentries.
  { split; [constructor|]. intros d. split; [intros Hd|intros [k Hd]];
      by apply elem_of_nil in Hd. }
  apply NoDup_cons in Hnodup as [Hk Hnodup].
  destruct (Hentries k a) as (w & Hw & Hd & Hkey & Hfresh); [by left|].
  destruct (IH Hnodup) as [IHnodup IHin].
  { intros k' a' Hin. apply Hentries. by right. }
  cbn [omap list_omap snd]. rewrite Hw. cbn [fmap option_fmap option_map]. rewrite Hd.
  split.
  - apply NoDup_cons. split; [|exact IHnodup].
    intros Hin. apply IHin in Hin as [k' Hk'].
    destruct (Hentries k' a) as (w' & Hw' & _ & Hkey' & _); [by right|].
    assert (k' = k) as -> by congruence.
    apply Hk. apply list_elem_of_fmap. by exists (k, a).
  - intros d. rewrite elem_of_cons, IHin. split.
    + intros [->|[k' Hk']]; [exists k; by left|exists k'; by right].
    + intros [k' Hk']. apply elem_of_cons in Hk' as [[= -> ->]|Hk']; [by left|].
      right. by exists k'.
Qed.

(** X18.  The disposal of the service, in a state that the service has
    come to by watches, the turns of their [doWatch] and of their
    callbacks, and disposals of handles, of one handle more than once
    too, the service not having been disposed before: the table of the
    watchers is empty, and the subscriptions that are disposed are all
    those that [provider.watch] has returned, whatever handles are
    still alive, each disposed once so far. *)
Theorem serviceDispose_tears_down sv (actions : list Action) :
  inService actions ->
  let st' := serviceDispose (run actions (init sv)) in
  activeWatchers st' = ∅
  /\ (forall d, (d < List.length (watchCalls st'))%nat <-> d ∈ disposed st')
  /\ NoDup (disposed st').
Proof.
  intros Hin st'. pose proof (Kept_run sv actions Hin) as HK.
  set (st := run actions (init sv)) in *.
  split; [reflexivity|].
  assert (Hentries : forall k a,
             (k, a) ∈ map_to_list (activeWatchers st) ->
             exists w, watchers st !! a = Some w /\ disposable w = a
                       /\ keyAt st a = Some k /\ a ∉ disposed st).
  { intros k a Hka. apply elem_of_map_to_list in Hka.
    destruct (kept_active _ HK k a Hka) as (w & Hw & _ & Hk & Hfresh).
    exists w. split; [exact Hw|]. split; [by eapply kept_disposable|]. by split. }
  pose proof (NoDup_fst_map_to_list (activeWatchers st)) as Hkeys.
  destruct (NoDup_entries st _ Hkeys Hentries) as [Hnodup Hlisted].
  unfold st', serviceDispose. cbn [watchCalls disposed]. split.
  - intros d. rewrite elem_of_app, Hlisted. split.
    + intros Hlt. destruct (lookup_lt_is_Some_2 _ _ Hlt) as [[key call] Hcall].
      assert (Hkey : keyAt st d = Some key) by (unfold keyAt; by rewrite Hcall).
      rewrite (kept_calls _ HK) in Hlt.
      destruct (lookup_lt_is_Some_2 _ _ Hlt) as [w Hw].
      destruct (Kept_active_or_not _ _ _ HK Hkey) as [Hactive|Hnot].
      * right. exists key. by apply elem_of_map_to_list.
      * left. by destruct (kept_inactive _ HK d w Hw Hnot).
    + intros [Hd|[k Hk]].
      * rewrite (kept_calls _ HK). by apply (kept_disposed _ HK).
      * destruct (Hentries k d Hk) as (_ & _ & _ & Hkey & _). by eapply keyAt_lt.
  - apply NoDup_app. split; [by eapply kept_nodup|]. split; [|exact Hnodup].
    intros d Hd Hd'. apply Hlisted in Hd' as [k Hk].
    by destruct (Hentries k d Hk) as (_ & _ & _ & _ & Hfresh).
Qed.
End ServiceDispose.

Section ServiceDisposeRuns.
Import PosixResources Watchers WatchFixture.

(** X18, at an input: two handles share one subscription and the first
    of them is disposed twice, which disposes the subscription; a third
    watch subscribes anew.  After the disposal of the service both
    subscriptions are disposed, once. *)
Lemma serviceDispose_tears_down_witness :
  let actions := [w; DoWatch 0; Then 0; w; DoWatch 1; Then 1; Dispose 0; Dispose 0;
                  w; DoWatch 2; Then 2] in
  inService actions
  /\ watchCalls (run actions init) = [(key, (MemFS.uri "mem" "/w", IWatchOptions.mk true []));
                                      (key, (MemFS.uri "mem" "/w", IWatchOptions.mk true []))]
  /\ disposed (run actions init) = [0%nat]
  /\ disposed (serviceDispose (run actions init)) = [0%nat; 1%nat]
  /\ NoDup (disposed (serviceDispose (run actions init))).
Proof.
  intros actions.
  assert (Hin : inService actions).
  { intros a Ha. unfold actions in Ha.
    repeat (apply elem_of_cons in Ha as [->|Ha]; [reflexivity|]).
    destruct (proj1 (elem_of_nil a) Ha). }
  destruct (serviceDispose_tears_down Fixture.st0 actions Hin) as (_ & _ & Hnodup).
  split; [exact Hin|]. split; [reflexivity|]. split; [reflexivity|].
  split; [reflexivity|exact Hnodup].
Defined.
End ServiceDisposeRuns.


(** ** Positional writes, against a provider that writes short *)

Section Worldly.
Context {W : Type} `{Resources} `{Files}.
Implicit Types (p sp tp : Provider W) (st : FileService W).

Lemma withWorld_withWorld (w w' : W) st : withWorld w (withWorld w' st) = withWorld w st.
Proof. reflexivity. Qed.

Lemma worldly_ret {A} (a : A) : worldly (mret a : M W A).
Proof. intros st r st' [= <- <-]. by rewrite withWorld_world. Qed.

Lemma worldly_throw {A} e : worldly (throw e : M W A).
Proof. intros st r st' [= <- <-]. by rewrite withWorld_world. Qed.

Lemma worldly_diverge {A} : worldly (diverge : M W A).
Proof. intros st r st' [=]. Qed.

Lemma worldly_call {A} (op : PM W A) : worldly (call op).
Proof. intros st r st'. rewrite call_run. intros [= <- <-]. reflexivity. Qed.

Lemma worldly_probe {A} (f : W -> A) : worldly (probe f).
Proof. intros st r st' [= <- <-]. by rewrite withWorld_world. Qed.

Lemma worldly_bind {A B} (c : M W A) (f : A -> M W B) :
  worldly c -> (forall a, worldly (f a)) -> worldly (c ≫= f).
Proof.
  intros Hc Hf st r st'. rewrite bind_run.
  destruct (c st) as [[[a|e] st1]|] eqn:Hrun; [|intros [= <- <-]; by eapply Hc|done].
  intros Hrun'. rewrite (Hf a _ _ _ Hrun'), (Hc _ _ _ Hrun). reflexivity.
Qed.

Lemma worldly_tryCatch {A} (c : M W A) handler :
  worldly c -> (forall e, worldly (handler e)) -> worldly (tryCatch c handler).
Proof.
  intros Hc Hh st r st'. unfold tryCatch.
  destruct (c st) as [[[a|e] st1]|] eqn:Hrun; [intros [= <- <-]; by eapply Hc| |done].
  intros Hrun'. rewrite (Hh e _ _ _ Hrun'), (Hc _ _ _ Hrun). reflexivity.
Qed.

Lemma worldly_tryFinally {A} (c : M W A) fin :
  worldly c -> worldly fin -> worldly (tryFinally c fin).
Proof.
  intros Hc Hfin st r st'. unfold tryFinally.
  destruct (c st) as [[r1 st1]|] eqn:Hrun; [|done].
  destruct (fin st1) as [[[[]|e] st2]|] eqn:Hrun'; [| |done];
    intros [= <- <-]; rewrite (Hfin _ _ _ Hrun'), (Hc _ _ _ Hrun); reflexivity.
Qed.

Create HintDb worldly.

#[local] Hint Resolve worldly_ret worldly_throw worldly_diverge worldly_call
  worldly_probe : worldly.

Ltac worldliness :=
  repeat first
         [ progress cbn beta iota
         | solve [auto 1 with worldly nocore]
         | match goal with
           | |- forall _, _ => intro
           | |- worldly (mbind _ _) => apply worldly_bind
           | |- worldly (tryCatch _ _) => apply worldly_tryCatch
           | |- worldly (tryFinally _ _) => apply worldly_tryFinally
           | |- worldly (if ?b then _ else _) => destruct b
           | |- worldly (match ?x with _ => _ end) => destruct x
           end ].

Lemma worldly_validateWriteFile p resource options :
  worldly (validateWriteFile p resource options).
Proof. unfold validateWriteFile. worldliness. Qed.

Lemma worldly_doWriteBufferLoop fuel :
  forall p handle buffer length posInFile posInBuffer totalBytesWritten,
  worldly (doWriteBufferLoop fuel p handle buffer length posInFile posInBuffer
                             totalBytesWritten).
Proof.
  induction fuel as [|fuel IH]; intros; cbn [doWriteBufferLoop]; worldliness.
Qed.

#[local] Hint Resolve worldly_doWriteBufferLoop : worldly.

Lemma worldly_doWriteReadableBufferedQueued fuel p handle readable : forall posInFile,
  worldly (doWriteReadableBufferedQueued fuel p handle readable posInFile).
Proof.
  induction readable as [|chunk readable IH]; intros posInFile;
    cbn [doWriteReadableBufferedQueued]; unfold doWriteBuffer; worldliness.
Qed.

#[local] Hint Resolve worldly_doWriteReadableBufferedQueued : worldly.

Lemma worldly_doWriteBuffered fuel p resource readable :
  worldly (doWriteBuffered fuel p resource readable).
Proof. unfold doWriteBuffered, queue. worldliness. Qed.
End Worldly.

Section ShortWritten.
Import PosixResources MemFS ShortWrites.

Lemma range_app (data : bytes) (offset n m : Z) :
  0 <= offset -> 0 <= n -> 0 <= m ->
  (range data offset n ++ range data (offset + n) m)%list = range data offset (n + m).
Proof.
  intros Ho Hn Hm. unfold range.
  rewrite !Z2Nat.inj_add by lia. rewrite <- drop_drop. apply take_take_drop.
Qed.

Lemma length_range (data : bytes) (offset n : Z) :
  0 <= offset -> 0 <= n -> offset + n <= byteLength data ->
  byteLength (range data offset n) = n.
Proof.
  intros Ho Hn Hle. unfold range, byteLength in *.
  rewrite length_take, length_drop. lia.
Qed.

Lemma storeAt_storeAt (content first second : bytes) (pos : Z) :
  0 <= pos <= byteLength content ->
  storeAt (storeAt content pos first) (pos + byteLength first) second
  = storeAt content pos (first ++ second)%list.
Proof.
  intros Hpos. unfold storeAt, byteLength in *.
  replace (Z.to_nat (pos + Z.of_nat (List.length first)))
    with (Z.to_nat pos + List.length first)%nat by lia.
  set (P := Z.to_nat pos). assert (HP : List.length (take P content) = P).
  { rewrite length_take. lia. }
  rewrite (assoc app (take P content) first).
  rewrite take_app_length' by (rewrite length_app; lia).
  rewrite drop_app_add' by (rewrite length_app; lia).
  rewrite drop_drop, length_app, <- !(assoc app). by rewrite (assoc Nat.add).
Qed.

Lemma lookup_store (u : URI) (n : Node) (w : World) : lookup u (store u n w) = Some n.
Proof. unfold lookup, store. cbn. by rewrite bool_decide_eq_true_2. Qed.

Lemma doWriteBufferLoop_short most id capabilities fd u buffer length posInFile posInBuffer
      (content : bytes) :
  0 < most ->
  0 <= posInFile <= byteLength content ->
  0 <= posInBuffer -> posInBuffer + length <= byteLength buffer ->
  forall fuel total (st : FileService World) mtime,
    0 <= total <= length ->
    (Z.to_nat (length - total) <= fuel)%nat ->
    resourceOf fd (world st) = Some u ->
    lookup u (world st)
    = Some (FileNode (storeAt content posInFile (range buffer posInBuffer total)) mtime) ->
    exists st',
      doWriteBufferLoop fuel (ShortWrites.provider most id capabilities) fd buffer
                        length posInFile posInBuffer total st
      = Some (Return tt, st')
      /\ resourceOf fd (world st') = Some u
      /\ contentOf u (world st')
         = Some (storeAt content posInFile (range buffer posInBuffer length))
      /\ handles (world st') = handles (world st).
Proof.
  intros Hmost Hpos HposB Hfits.
  induction fuel as [|fuel IH]; intros total st mtime Htotal Hfuel Hfd Hfile.
  - assert (total = length) as -> by lia.
    exists st. cbn [doWriteBufferLoop]. rewrite Z.ltb_irrefl.
    split; [done|]. split; [done|]. split; [|done].
    unfold contentOf. by rewrite Hfile.
  - cbn [doWriteBufferLoop]. destruct (total <? length) eqn:Hlt.
    + apply Z.ltb_lt in Hlt. rewrite bind_run, call_run.
      cbn [ShortWrites.provider IFileSystemProvider.write].
      unfold ShortWrites.write, MemFS.write. rewrite Hfd, Hfile. cbn [fst snd].
      set (n := Z.min (length - total) most).
      change (take (Z.to_nat n) (drop (Z.to_nat (posInBuffer + total)) buffer))
        with (range buffer (posInBuffer + total) n).
      assert (Hn : 0 < n <= length - total) by (unfold n; lia).
      assert (Hlen : byteLength (range buffer (posInBuffer + total) n) = n).
      { apply length_range; lia. }
      assert (Hwritten : byteLength (range buffer posInBuffer total) = total).
      { apply length_range; lia. }
      rewrite Hlen.
      match goal with
      | |- context [withWorld ?w st] =>
        destruct (IH (total + n) (withWorld w st) (clock (world st)))
          as (st' & Hrun & Hfd' & Hcontent & Hhandles)
      end.
      * lia.
      * lia.
      * exact Hfd.
      * cbn [withWorld world]. rewrite lookup_store. do 2 f_equal.
        change (storeAt (storeAt content posInFile (range buffer posInBuffer total))
                        (posInFile + total) (range buffer (posInBuffer + total) n)
                = storeAt content posInFile (range buffer posInBuffer (total + n))).
        rewrite <- Hwritten at 2. rewrite storeAt_storeAt by done.
        by rewrite range_app by lia.
      * exists st'. by rewrite Hrun.
    + apply Z.ltb_ge in Hlt. assert (total = length) as -> by lia.
      exists st. split; [done|]. split; [done|]. split; [|done].
      unfold contentOf. by rewrite Hfile.
Qed.

(** X19.  Against a provider whose [write] takes at most [most] bytes
    at a time, with [most] positive: [doWriteBuffer] returns, within as
    many calls as there are bytes, and the file then holds the whole
    range of the buffer at the position, each call having gone on in
    the file and in the buffer where the one before stopped; what is
    before and after the range in the file is as it was. *)
Theorem doWriteBuffer_writes_the_range most id capabilities fd u (buffer content : bytes)
        length posInFile posInBuffer mtime fuel (st : FileService World) :
  0 < most ->
  resourceOf fd (world st) = Some u ->
  lookup u (world st) = Some (FileNode content mtime) ->
  0 <= posInFile <= byteLength content ->
  0 <= posInBuffer -> 0 <= length -> posInBuffer + length <= byteLength buffer ->
  (Z.to_nat length <= fuel)%nat ->
  exists st',
    doWriteBuffer fuel (ShortWrites.provider most id capabilities) fd buffer
                  length posInFile posInBuffer st
    = Some (Return tt, st')
    /\ contentOf u (world st')
       = Some (storeAt content posInFile (range buffer posInBuffer length)).
Proof.
  intros Hmost Hfd Hfile Hpos HposB Hlength Hfits Hfuel.
  destruct (doWriteBufferLoop_short most id capabilities fd u buffer length posInFile
              posInBuffer content Hmost Hpos HposB Hfits fuel 0 st mtime)
    as (st' & Hrun & _ & Hcontent & _).
  - lia.
  - by rewrite Z.sub_0_r.
  - exact Hfd.
  - rewrite Hfile. do 2 f_equal.
    change (range buffer posInBuffer 0) with ([] : bytes).
    unfold storeAt. cbn [List.length app]. by rewrite Nat.add_0_r, take_drop.
  - exists st'. by split.
Qed.

Lemma contentOf_Some u (w : World) content :
  contentOf u w = Some content -> exists mtime, lookup u w = Some (FileNode content mtime).
Proof.
  unfold contentOf. destruct (lookup u w) as [[c m|m]|]; [|done..].
  intros [= <-]. by exists m.
Qed.

Lemma storeAt_end (content data : bytes) :
  storeAt content (byteLength content) data = (content ++ data)%list.
Proof.
  unfold storeAt, byteLength. rewrite Nat2Z.id, firstn_all, drop_ge by lia.
  by rewrite app_nil_r.
Qed.

Lemma range_all (data : bytes) : range data 0 (byteLength data) = data.
Proof. unfold range, byteLength. by rewrite Nat2Z.id, drop_0, firstn_all. Qed.

Lemma doWriteReadableBufferedQueued_short most id capabilities fd u fuel chunks :
  0 < most ->
  (forall chunk : bytes, chunk ∈ chunks -> (List.length chunk <= fuel)%nat) ->
  forall (written : bytes) (st : FileService World) mtime,
    resourceOf fd (world st) = Some u ->
    lookup u (world st) = Some (FileNode written mtime) ->
    exists st',
      doWriteReadableBufferedQueued fuel (ShortWrites.provider most id capabilities) fd
                                    chunks (byteLength written) st
      = Some (Return tt, st')
      /\ contentOf u (world st') = Some (written ++ concat chunks)%list
      /\ handles (world st') = handles (world st).
Proof.
  intros Hmost. induction chunks as [|chunk chunks IH]; intros Hfuel written st mtime Hfd Hfile.
  - exists st. cbn [doWriteReadableBufferedQueued concat]. rewrite app_nil_r.
    split; [done|]. split; [|done]. unfold contentOf. by rewrite Hfile.
  - cbn [doWriteReadableBufferedQueued concat]. unfold doWriteBuffer. rewrite bind_run.
    destruct (doWriteBufferLoop_short most id capabilities fd u chunk (byteLength chunk)
                (byteLength written) 0 written Hmost) with (fuel := fuel) (total := 0)
                (st := st) (mtime := mtime)
      as (st1 & Hrun & Hfd1 & Hcontent & Hhandles).
    + unfold byteLength. lia.
    + lia.
    + lia.
    + unfold byteLength. lia.
    + rewrite Z.sub_0_r. unfold byteLength. rewrite Nat2Z.id. apply Hfuel. by left.
    + exact Hfd.
    + change (range chunk 0 0) with ([] : bytes). by rewrite storeAt_end, app_nil_r.
    + rewrite Hrun. rewrite range_all, storeAt_end in Hcontent.
      apply contentOf_Some in Hcontent as [mtime1 Hfile1].
      destruct (IH (fun c Hc => Hfuel c (list_elem_of_further _ _ _ Hc))
                   (written ++ chunk)%list st1 mtime1 Hfd1 Hfile1)
        as (st' & Hrest & Hcontent' & Hhandles').
      exists st'. split; [|split].
      * rewrite <- Hrest. f_equal. unfold byteLength. rewrite length_app. lia.
      * by rewrite Hcontent', <- (assoc app).
      * congruence.
Qed.

Lemma resourceOf_closed fd (hs : list (Z * URI)) :
  snd <$> List.find (fun h => bool_decide (fst h = fd))
                    (List.filter (fun h => negb (bool_decide (fst h = fd))) hs)
  = None.
Proof.
  induction hs as [|[fd' u'] hs IH]; [reflexivity|]. cbn [List.filter fst].
  case_bool_decide as Hfd; cbn [negb]; [exact IH|].
  cbn [List.find fst]. by rewrite (bool_decide_eq_false_2 _ Hfd).
Qed.

Lemma doWriteBuffered_short most id capabilities u (chunks : list bytes)
        fuel (st : FileService World) :
  0 < most ->
  (forall mtime, lookup u (world st) <> Some (DirNode mtime)) ->
  (forall chunk, chunk ∈ chunks -> (List.length chunk <= fuel)%nat) ->
  exists st',
    doWriteBuffered fuel (ShortWrites.provider most id capabilities) u chunks st
    = Some (Return tt, st')
    /\ contentOf u (world st') = Some (concat chunks)
    /\ resourceOf (Z.of_nat (List.length (handles (world st)))) (world st') = None.
Proof.
  intros Hmost Hfile Hfuel. unfold doWriteBuffered, queue.
  rewrite bind_run, call_run.
  cbn [ShortWrites.provider IFileSystemProvider.open IFileSystemProvider.close].
  set (fd := Z.of_nat (List.length (handles (world st)))).
  set (opened := mkWorld (nodes (store u (FileNode [] (clock (world st))) (world st)))
                         ((fd, u) :: handles (world st))
                         (clock (store u (FileNode [] (clock (world st))) (world st)))
                         (watched (world st))).
  assert (Hopen : MemFS.open u true (world st) = (Return fd, opened)).
  { unfold MemFS.open. destruct (lookup u (world st)) as [[c m|m]|] eqn:Hu;
      [reflexivity| |reflexivity]. by destruct (Hfile m). }
  rewrite Hopen. cbn [fst snd].
  destruct (doWriteReadableBufferedQueued_short most id capabilities fd u fuel chunks
              Hmost Hfuel [] (withWorld opened st) (clock (world st)))
    as (st1 & Hrun & Hcontent & Hhandles).
  { unfold resourceOf. cbn. by rewrite bool_decide_eq_true_2. }
  { unfold opened, lookup. cbn. by rewrite bool_decide_eq_true_2. }
  change (byteLength []) with 0 in Hrun.
  unfold tryFinally. rewrite tryCatch_run, Hrun, call_run.
  assert (Hfd : resourceOf fd (world st1) = Some u).
  { unfold resourceOf. rewrite Hhandles. cbn. by rewrite bool_decide_eq_true_2. }
  unfold MemFS.close. rewrite Hfd. cbn [fst snd].
  eexists. split; [reflexivity|]. cbn [withWorld world]. split.
  - exact Hcontent.
  - unfold resourceOf. cbn [handles]. apply resourceOf_closed.
Qed.

(** X20.  Against the same provider, [doWriteBuffered] of a resource
    that is not a directory returns; the file then holds the chunks
    one after the other and nothing else, whatever it held before, and
    the handle is closed. *)
Theorem doWriteBuffered_writes_the_chunks most id capabilities u (chunks : list bytes)
        fuel (st : FileService World) :
  0 < most ->
  (forall mtime, lookup u (world st) <> Some (DirNode mtime)) ->
  (forall chunk, chunk ∈ chunks -> (List.length chunk <= fuel)%nat) ->
  exists st',
    doWriteBuffered fuel (ShortWrites.provider most id capabilities) u chunks st
    = Some (Return tt, st')
    /\ contentOf u (world st') = Some (concat chunks)
    /\ resourceOf (Z.of_nat (List.length (handles (world st)))) (world st') = None.
Proof. apply doWriteBuffered_short. Qed.

Lemma toBuffer_consumeWithLimit data limit :
  toBuffer (consumeWithLimit data limit) = toBuffer data.
Proof. destruct data; cbn; [done|by case_bool_decide..]. Qed.

Lemma consumeWithLimit_not_buffer data limit :
  isBuffer (consumeWithLimit data limit) = false -> consumeWithLimit data limit = data.
Proof. destruct data; cbn; [done|by case_bool_decide..]. Qed.

Lemma concat_toChunks data : concat (toChunks data) = toBuffer data.
Proof. destruct data; cbn; [by rewrite app_nil_r|done..]. Qed.


(** *** The pipe by positions *)

Lemma find_remove_ne (u v : URI) (l : list (URI * Node)) :
  v <> u ->
  List.find (fun e => bool_decide (fst e = v)) (remove u l)
  = List.find (fun e => bool_decide (fst e = v)) l.
Proof.
  intros Hne. unfold remove. induction l as [|[u' n'] l IH]; [reflexivity|].
  cbn [List.filter List.find fst]. case_bool_decide as Hu; cbn [negb].
  - subst u'. by rewrite (bool_decide_eq_false_2 (u = v)).
  - cbn [List.find fst]. by rewrite IH.
Qed.

Lemma lookup_store_ne (u v : URI) (n : Node) (w : World) :
  v <> u -> lookup v (store u n w) = lookup v w.
Proof.
  intros Hne. unfold lookup, store. cbn [nodes List.find fst].
  rewrite (bool_decide_eq_false_2 (u = v)) by done. by rewrite find_remove_ne.
Qed.

(* a write through a handle leaves the other files as they are *)
Lemma doWriteBufferLoop_others most id capabilities fd u buffer length posInFile posInBuffer :
  forall fuel total (st : FileService World) r st',
    resourceOf fd (world st) = Some u ->
    doWriteBufferLoop fuel (ShortWrites.provider most id capabilities) fd buffer
                      length posInFile posInBuffer total st
    = Some (r, st') ->
    forall v, v <> u -> lookup v (world st') = lookup v (world st).
Proof.
  induction fuel as [|fuel IH]; intros total st r st' Hfd; cbn [doWriteBufferLoop];
    destruct (total <? length); try (by intros [= <- <-]).
  rewrite bind_run, call_run.
  cbn [ShortWrites.provider IFileSystemProvider.write].
  unfold ShortWrites.write, MemFS.write. rewrite Hfd.
  destruct (lookup u (world st)) as [[c m|m]|]; cbn [fst snd];
    try (by intros [= <- <-]).
  intros Hrun v Hv.
  match type of Hrun with
  | doWriteBufferLoop _ _ _ _ _ _ _ _ ?s = _ => rewrite (IH _ s _ _ Hfd Hrun v Hv)
  end. cbn [withWorld world].
  by apply lookup_store_ne.
Qed.

Lemma range_storeAt (buffer data : bytes) (pos : Z) :
  0 <= pos -> pos + byteLength data <= byteLength buffer ->
  range (storeAt buffer pos data) pos (byteLength data) = data.
Proof.
  intros Hpos Hfits. unfold range, storeAt, byteLength in *.
  rewrite drop_app_length' by (rewrite length_take; lia).
  by rewrite Nat2Z.id, take_app_length.
Qed.

Lemma length_storeAt (buffer data : bytes) (pos : Z) :
  0 <= pos -> pos + byteLength data <= byteLength buffer ->
  byteLength (storeAt buffer pos data) = byteLength buffer.
Proof.
  intros Hpos Hfits. unfold storeAt, byteLength in *.
  rewrite !length_app, length_take, length_drop. lia.
Qed.

Lemma storeAt_nil (content : bytes) (pos : Z) : storeAt content pos [] = content.
Proof. unfold storeAt. cbn [List.length app]. by rewrite Nat.add_0_r, take_drop. Qed.

(* what one round of the pipe has read, after what was copied before *)
Lemma take_read (src : bytes) (pos size : Z) :
  0 <= pos <= byteLength src -> 0 < size ->
  let data := take (Z.to_nat size) (drop (Z.to_nat pos) src) in
  (take (Z.to_nat pos) src ++ data)%list = take (Z.to_nat (pos + byteLength data)) src
  /\ pos + byteLength data <= byteLength src
  /\ (byteLength data = 0 -> pos = byteLength src).
Proof.
  intros Hpos Hsize data. unfold byteLength in *.
  assert (Hdata : List.length data = Nat.min (Z.to_nat size) (List.length src - Z.to_nat pos)).
  { unfold data. by rewrite length_take, length_drop. }
  split; [|split; [lia|intros; lia]].
  replace (Z.to_nat (pos + Z.of_nat (List.length data)))
    with (Z.to_nat pos + List.length data)%nat by lia.
  unfold data at 1. rewrite take_take_drop.
  destruct (decide (Z.to_nat size <= List.length src - Z.to_nat pos)%nat).
  - f_equal. lia.
  - by rewrite !take_ge by lia.
Qed.

Lemma doPipeBufferedLoop_copies most ids capss idt capst sh th source target (src : bytes) :
  0 < most -> source <> target ->
  forall fuel (buffer : bytes) posInFile posInBuffer (st : FileService World) ms mt,
    0 <= posInFile <= byteLength src ->
    0 <= posInBuffer < byteLength buffer ->
    (Z.to_nat (byteLength src - posInFile) < fuel)%nat ->
    resourceOf sh (world st) = Some source ->
    resourceOf th (world st) = Some target ->
    lookup source (world st) = Some (FileNode src ms) ->
    lookup target (world st) = Some (FileNode (take (Z.to_nat posInFile) src) mt) ->
    exists st',
      doPipeBufferedLoop fuel (ShortWrites.provider most ids capss) sh
                         (ShortWrites.provider most idt capst) th buffer
                         posInFile posInBuffer st
      = Some (Return tt, st')
      /\ contentOf target (world st') = Some src
      /\ contentOf source (world st') = Some src
      /\ handles (world st') = handles (world st).
Proof.
  intros Hmost Hne.
  induction fuel as [|fuel IH];
    intros buffer posInFile posInBuffer st ms mt Hpos HposB Hfuel Hsh Hth Hsource Htarget;
    [lia|].
  cbn [doPipeBufferedLoop]. rewrite bind_run, call_run.
  cbn [ShortWrites.provider IFileSystemProvider.read]. unfold MemFS.read.
  rewrite Hsh. cbn [mbind option_bind]. rewrite Hsource. cbn [fst snd].
  set (size := byteLength buffer - posInBuffer).
  set (data := take (Z.to_nat size) (drop (Z.to_nat posInFile) src)).
  destruct (take_read src posInFile size Hpos ltac:(unfold size; lia))
    as (Hcopied & Hwithin & Hend).
  fold data in Hcopied, Hwithin, Hend.
  assert (Hdata : 0 <= byteLength data <= size).
  { unfold byteLength, data. rewrite length_take. lia. }
  assert (Hlen : byteLength (storeAt buffer posInBuffer data) = byteLength buffer).
  { apply length_storeAt; unfold size in *; lia. }
  rewrite withWorld_world, bind_run. unfold doWriteBuffer.
  destruct (doWriteBufferLoop_short most idt capst th target
              (storeAt buffer posInBuffer data) (byteLength data) posInFile posInBuffer
              (take (Z.to_nat posInFile) src) Hmost)
    with (fuel := fuel) (total := 0) (st := st) (mtime := mt)
    as (st1 & Hrun & Hth1 & Hcontent & Hhandles).
  { unfold byteLength in *. rewrite length_take. lia. }
  { lia. }
  { unfold size in *. lia. }
  { lia. }
  { unfold byteLength in *. lia. }
  { exact Hth. }
  { change (range (storeAt buffer posInBuffer data) posInBuffer 0) with ([] : bytes).
    by rewrite storeAt_nil. }
  rewrite Hrun.
  assert (Hsource1 : lookup source (world st1) = Some (FileNode src ms)).
  { rewrite <- Hsource.
    by apply (doWriteBufferLoop_others _ _ _ _ _ _ _ _ _ _ _ _ _ _ Hth Hrun). }
  rewrite range_storeAt in Hcontent by (unfold size in *; lia).
  assert (Hat : byteLength (take (Z.to_nat posInFile) src) = posInFile).
  { unfold byteLength in *. rewrite length_take. lia. }
  rewrite <- Hat in Hcontent at 2. rewrite storeAt_end, Hcopied in Hcontent.
  destruct (0 <? byteLength data) eqn:Hread.
  - apply Z.ltb_lt in Hread.
    apply contentOf_Some in Hcontent as [mt1 Htarget1].
    destruct (IH (storeAt buffer posInBuffer data) (posInFile + byteLength data)
                 (if posInBuffer + byteLength data
                     =? byteLength (storeAt buffer posInBuffer data)
                  then 0 else posInBuffer + byteLength data)
                 st1 ms mt1)
      as (st' & Hloop & Htarget' & Hsource' & Hhandles').
    + lia.
    + rewrite Hlen. destruct (_ =? _) eqn:Hfull; [lia|].
      apply Z.eqb_neq in Hfull. unfold size in *. lia.
    + unfold byteLength in *. lia.
    + unfold resourceOf in *. by rewrite Hhandles.
    + unfold resourceOf in *. by rewrite Hhandles.
    + exact Hsource1.
    + exact Htarget1.
    + exists st'. split; [exact Hloop|]. split; [exact Htarget'|].
      split; [exact Hsource'|]. congruence.
  - apply Z.ltb_ge in Hread. exists st1. split; [reflexivity|].
    assert (Hnone : byteLength data = 0) by lia.
    rewrite Hnone, Z.add_0_r, (Hend Hnone) in Hcontent.
    unfold byteLength in Hcontent. rewrite Nat2Z.id, firstn_all in Hcontent.
    split; [exact Hcontent|]. split; [|exact Hhandles].
    unfold contentOf. by rewrite Hsource1.
Qed.

Lemma elem_of_List_filter {A} (P : A -> bool) (l : list A) (x : A) :
  x ∈ List.filter P l <-> x ∈ l /\ P x = true.
Proof. rewrite !list_elem_of_In. apply filter_In. Qed.

Lemma settle_call {A} (op : PM World A) (st : FileService World) :
  settle (call op) st
  = Some (Return (fst (op (world st))), withWorld (snd (op (world st))) st).
Proof. unfold settle. by rewrite call_run. Qed.

Lemma open_existing u content mtime (w : World) :
  lookup u w = Some (FileNode content mtime) ->
  MemFS.open u false w
  = (Return (Z.of_nat (List.length (handles w))),
     mkWorld (nodes w) ((Z.of_nat (List.length (handles w)), u) :: handles w)
             (clock w) (watched w)).
Proof. intros Hu. unfold MemFS.open. by rewrite Hu. Qed.

Lemma open_create u (w : World) :
  (forall mtime, lookup u w <> Some (DirNode mtime)) ->
  MemFS.open u true w
  = (Return (Z.of_nat (List.length (handles w))),
     mkWorld (nodes (store u (FileNode [] (clock w)) w))
             ((Z.of_nat (List.length (handles w)), u) :: handles w)
             (clock (store u (FileNode [] (clock w)) w)) (watched w)).
Proof.
  intros Hu. unfold MemFS.open. destruct (lookup u w) as [[c m|m]|] eqn:Hlookup;
    [reflexivity| |reflexivity]. by destruct (Hu m).
Qed.

Lemma close_open fd u (w : World) :
  resourceOf fd w = Some u ->
  MemFS.close fd w
  = (Return tt,
     mkWorld (nodes w) (List.filter (fun h => negb (bool_decide (fst h = fd))) (handles w))
             (clock w) (watched w)).
Proof. intros Hfd. unfold MemFS.close. by rewrite Hfd. Qed.

Lemma doPipeBufferedQueued_copies most ids capss idt capst source target (src : bytes) ms
      fuel (st : FileService World) :
  0 < most -> source <> target ->
  lookup source (world st) = Some (FileNode src ms) ->
  (forall m, lookup target (world st) <> Some (DirNode m)) ->
  (List.length src < fuel)%nat ->
  exists st',
    doPipeBufferedQueued fuel (ShortWrites.provider most ids capss) source
                         (ShortWrites.provider most idt capst) target st
    = Some (Return tt, st')
    /\ contentOf target (world st') = Some src
    /\ contentOf source (world st') = Some src
    /\ forall h, h ∈ handles (world st') -> h ∈ handles (world st).
Proof.
  intros Hmost Hne Hsource Htarget Hfuel. unfold doPipeBufferedQueued.
  rewrite bind_run, settle_call.
  cbn [ShortWrites.provider IFileSystemProvider.open IFileSystemProvider.close].
  rewrite (open_existing _ _ _ _ Hsource). cbn [fst snd].
  set (sh := Z.of_nat (List.length (handles (world st)))).
  set (w1 := mkWorld (nodes (world st)) ((sh, source) :: handles (world st))
                     (clock (world st)) (watched (world st))).
  rewrite bind_run, settle_call. cbn [withWorld world].
  rewrite (open_create target w1) by exact Htarget. cbn [fst snd].
  set (th := Z.of_nat (List.length (handles w1))).
  set (w2 := mkWorld (nodes (store target (FileNode [] (clock w1)) w1))
                     ((th, target) :: handles w1)
                     (clock (store target (FileNode [] (clock w1)) w1)) (watched w1)).
  assert (Hth : th <> sh).
  { unfold th, sh, w1. cbn [handles List.length]. lia. }
  destruct (doPipeBufferedLoop_copies most ids capss idt capst sh th source target src
              Hmost Hne fuel (replicate (Z.to_nat BUFFER_SIZE) x00) 0 0
              (withWorld w2 st) ms (clock w1))
    as (st3 & Hloop & Htarget3 & Hsource3 & Hhandles3).
  { unfold byteLength. lia. }
  { unfold byteLength. rewrite length_replicate, Z2Nat.id by (unfold BUFFER_SIZE; lia).
    unfold BUFFER_SIZE. lia. }
  { unfold byteLength. lia. }
  { unfold resourceOf. cbn [withWorld world w2 w1 handles List.find fst].
    rewrite (bool_decide_eq_false_2 _ Hth). by rewrite bool_decide_eq_true_2. }
  { unfold resourceOf. cbn [withWorld world w2 handles List.find fst].
    by rewrite bool_decide_eq_true_2. }
  { cbn [withWorld world]. unfold w2, lookup. cbn [nodes].
    change (lookup source (store target (FileNode [] (clock w1)) w1)
            = Some (FileNode src ms)).
    by rewrite lookup_store_ne. }
  { cbn [withWorld world]. unfold w2, lookup. cbn [nodes].
    change (lookup target (store target (FileNode [] (clock w1)) w1)
            = Some (FileNode (take (Z.to_nat 0) src) (clock w1))).
    by rewrite lookup_store. }
  unfold tryFinally. rewrite tryCatch_run.
  rewrite withWorld_withWorld, Hloop.
  assert (Hsh3 : resourceOf sh (world st3) = Some source).
  { unfold resourceOf. rewrite Hhandles3. cbn [withWorld world w2 w1 handles List.find fst].
    rewrite (bool_decide_eq_false_2 _ Hth). by rewrite bool_decide_eq_true_2. }
  unfold all2. rewrite bind_run, settle_call, (close_open _ _ _ Hsh3). cbn [fst snd].
  rewrite bind_run, settle_call. cbn [withWorld world].
  rewrite (close_open th target).
  2:{ unfold resourceOf. cbn [handles]. rewrite Hhandles3.
      cbn [withWorld world w2 w1 handles List.filter List.find fst negb].
      rewrite bool_decide_eq_false_2 by done. cbn [negb List.find fst].
      by rewrite bool_decide_eq_true_2. }
  cbn [fst snd unsettle]. rewrite !bind_run, !ret_run.
  eexists. split; [reflexivity|]. cbn [withWorld world].
  split; [exact Htarget3|]. split; [exact Hsource3|].
  cbn [handles]. intros h Hh.
  apply elem_of_List_filter in Hh as [Hh Hnot_th].
  apply elem_of_List_filter in Hh as [Hh Hnot_sh].
  rewrite Hhandles3 in Hh. cbn [withWorld world w2 w1 handles] in Hh.
  apply negb_true_iff, bool_decide_eq_false in Hnot_th.
  apply negb_true_iff, bool_decide_eq_false in Hnot_sh.
  apply elem_of_cons in Hh as [->|Hh]; [done|].
  apply elem_of_cons in Hh as [->|Hh]; [done|]. exact Hh.
Qed.

Lemma writeFile_stores u content (w : World) :
  (forall m, lookup u w <> Some (DirNode m)) ->
  MemFS.writeFile u content true true w
  = (Return tt, store u (FileNode content (clock w)) w).
Proof.
  intros Hu. unfold MemFS.writeFile. destruct (lookup u w) as [[c m|m]|] eqn:Hlookup;
    [reflexivity| |reflexivity]. by destruct (Hu m).
Qed.

Lemma doPipeUnbufferedQueued_copies most ids capss idt capst source target (src : bytes) ms
      (st : FileService World) :
  source <> target ->
  lookup source (world st) = Some (FileNode src ms) ->
  (forall m, lookup target (world st) <> Some (DirNode m)) ->
  exists st',
    doPipeUnbufferedQueued (ShortWrites.provider most ids capss) source
                           (ShortWrites.provider most idt capst) target st
    = Some (Return tt, st')
    /\ contentOf target (world st') = Some src
    /\ contentOf source (world st') = Some src
    /\ forall h, h ∈ handles (world st') -> h ∈ handles (world st).
Proof.
  intros Hne Hsource Htarget. unfold doPipeUnbufferedQueued.
  rewrite bind_run, call_run.
  cbn [ShortWrites.provider IFileSystemProvider.readFile IFileSystemProvider.writeFile].
  unfold MemFS.readFile. rewrite Hsource. cbn [fst snd].
  rewrite call_run. cbn [withWorld world].
  rewrite writeFile_stores by exact Htarget. cbn [fst snd].
  eexists. split; [reflexivity|]. cbn [withWorld world]. unfold contentOf.
  rewrite lookup_store, lookup_store_ne, Hsource by done. by repeat split.
Qed.

Lemma doPipeUnbufferedToBufferedQueued_copies most ids capss idt capst source target
      (src : bytes) ms fuel (st : FileService World) :
  0 < most -> source <> target ->
  lookup source (world st) = Some (FileNode src ms) ->
  (forall m, lookup target (world st) <> Some (DirNode m)) ->
  (List.length src <= fuel)%nat ->
  exists st',
    doPipeUnbufferedToBufferedQueued fuel (ShortWrites.provider most ids capss) source
                                     (ShortWrites.provider most idt capst) target st
    = Some (Return tt, st')
    /\ contentOf target (world st') = Some src
    /\ contentOf source (world st') = Some src
    /\ forall h, h ∈ handles (world st') -> h ∈ handles (world st).
Proof.
  intros Hmost Hne Hsource Htarget Hfuel. unfold doPipeUnbufferedToBufferedQueued.
  rewrite bind_run, call_run.
  cbn [ShortWrites.provider IFileSystemProvider.open IFileSystemProvider.close
                            IFileSystemProvider.readFile].
  rewrite (open_create target (world st)) by exact Htarget. cbn [fst snd].
  set (th := Z.of_nat (List.length (handles (world st)))).
  set (w1 := mkWorld (nodes (store target (FileNode [] (clock (world st))) (world st)))
                     ((th, target) :: handles (world st))
                     (clock (store target (FileNode [] (clock (world st))) (world st)))
                     (watched (world st))).
  assert (Hsource1 : lookup source w1 = Some (FileNode src ms)).
  { change (lookup source (store target (FileNode [] (clock (world st))) (world st))
            = Some (FileNode src ms)). by rewrite lookup_store_ne. }
  assert (Hth1 : resourceOf th w1 = Some target).
  { unfold resourceOf. cbn [w1 handles List.find fst]. by rewrite bool_decide_eq_true_2. }
  unfold tryFinally. rewrite tryCatch_run, bind_run, call_run. cbn [withWorld world].
  unfold MemFS.readFile. rewrite Hsource1. cbn [fst snd]. unfold doWriteBuffer.
  destruct (doWriteBufferLoop_short most idt capst th target src (byteLength src) 0 0 []
              Hmost)
    with (fuel := fuel) (total := 0) (st := withWorld w1 (withWorld w1 st))
         (mtime := clock (world st))
    as (st2 & Hrun & Hth2 & Hcontent & Hhandles).
  { done. }
  { done. }
  { lia. }
  { unfold byteLength. lia. }
  { unfold byteLength. lia. }
  { exact Hth1. }
  { cbn [withWorld world].
    change (lookup target (store target (FileNode [] (clock (world st))) (world st))
            = Some (FileNode (storeAt [] 0 (range src 0 0)) (clock (world st)))).
    by rewrite lookup_store. }
  rewrite Hrun, call_run, (close_open th target _ Hth2). cbn [fst snd].
  change 0 with (byteLength ([] : bytes)) in Hcontent at 1.
  rewrite range_all, storeAt_end in Hcontent. cbn [app] in Hcontent.
  eexists. split; [reflexivity|]. cbn [withWorld world].
  split; [exact Hcontent|]. split.
  - change (contentOf source (world st2) = Some src). unfold contentOf.
    rewrite (doWriteBufferLoop_others most idt capst th target src (byteLength src) 0 0
               fuel 0 (withWorld w1 (withWorld w1 st)) _ st2 Hth1 Hrun source Hne).
    cbn [withWorld world]. by rewrite Hsource1.
  - cbn [handles]. intros h Hh. apply elem_of_List_filter in Hh as [Hh Hnot].
    rewrite Hhandles in Hh. cbn [withWorld world w1 handles] in Hh.
    apply negb_true_iff, bool_decide_eq_false in Hnot.
    apply elem_of_cons in Hh as [->|Hh]; [done|exact Hh].
Qed.

Lemma BUFFER_SIZE_positive : 0 < BUFFER_SIZE.
Proof. reflexivity. Qed.

Lemma readLoop_reads most id capabilities fd source (src : bytes) ms :
  forall fuel posInFile (st : FileService World),
    0 <= posInFile <= byteLength src ->
    (Z.to_nat (byteLength src - posInFile) < fuel)%nat ->
    resourceOf fd (world st) = Some source ->
    lookup source (world st) = Some (FileNode src ms) ->
    readLoop fuel (ShortWrites.provider most id capabilities) fd posInFile
             (take (Z.to_nat posInFile) src) st
    = Some (Return src, st).
Proof.
  induction fuel as [|fuel IH]; intros posInFile st Hpos Hfuel Hfd Hsource; [lia|].
  cbn [readLoop]. rewrite bind_run, call_run.
  cbn [ShortWrites.provider IFileSystemProvider.read]. unfold MemFS.read.
  rewrite Hfd. cbn [mbind option_bind]. rewrite Hsource. cbn [fst snd].
  rewrite withWorld_world.
  set (data := take (Z.to_nat BUFFER_SIZE) (drop (Z.to_nat posInFile) src)).
  destruct (take_read src posInFile BUFFER_SIZE Hpos BUFFER_SIZE_positive)
    as (Hcopied & Hwithin & Hend).
  fold data in Hcopied, Hwithin, Hend. clearbody data.
  destruct (0 <? byteLength data) eqn:Hread.
  - apply Z.ltb_lt in Hread. rewrite Hcopied. apply IH; [lia| |done..].
    revert Hpos Hfuel Hread Hwithin. generalize (byteLength src) (byteLength data).
    clear. intros. lia.
  - apply Z.ltb_ge in Hread.
    assert (Hnone : byteLength data = 0).
    { pose proof (Nat2Z.is_nonneg (List.length data)) as Hnonneg.
      fold (byteLength data) in Hnonneg. revert Hread Hnonneg.
      generalize (byteLength data). clear. intros. lia. }
    rewrite (Hend Hnone). unfold byteLength. by rewrite Nat2Z.id, firstn_all.
Qed.

Lemma readFileBuffered_reads most id capabilities source (src : bytes) ms fuel
      (st : FileService World) :
  lookup source (world st) = Some (FileNode src ms) ->
  (List.length src < fuel)%nat ->
  exists st',
    readFileBuffered fuel (ShortWrites.provider most id capabilities) source st
    = Some (Return src, st')
    /\ nodes (world st') = nodes (world st)
    /\ clock (world st') = clock (world st)
    /\ forall h, h ∈ handles (world st') -> h ∈ handles (world st).
Proof.
  intros Hsource Hfuel. unfold readFileBuffered, createReadStream.
  rewrite tryCatch_run, bind_run, call_run.
  cbn [ShortWrites.provider IFileSystemProvider.open IFileSystemProvider.close].
  rewrite (open_existing _ _ _ _ Hsource). cbn [fst snd].
  set (fd := Z.of_nat (List.length (handles (world st)))).
  set (w1 := mkWorld (nodes (world st)) ((fd, source) :: handles (world st))
                     (clock (world st)) (watched (world st))).
  assert (Hfd : resourceOf fd w1 = Some source).
  { unfold resourceOf. cbn [w1 handles List.find fst]. by rewrite bool_decide_eq_true_2. }
  unfold tryFinally. rewrite tryCatch_run.
  assert (Hloop : readLoop fuel (ShortWrites.provider most id capabilities) fd 0 []
                           (withWorld w1 st) = Some (Return src, withWorld w1 st)).
  { apply (readLoop_reads most id capabilities fd source src ms fuel 0 (withWorld w1 st));
      [| |exact Hfd|exact Hsource].
    - pose proof (Nat2Z.is_nonneg (List.length src)) as Hnonneg.
      fold (byteLength src) in Hnonneg. revert Hnonneg.
      generalize (byteLength src). clear. intros. lia.
    - rewrite Z.sub_0_r. unfold byteLength. by rewrite Nat2Z.id. }
  rewrite Hloop.
  rewrite call_run. change (world (withWorld w1 st)) with w1.
  rewrite (close_open fd source _ Hfd). cbn [fst snd].
  eexists. split; [reflexivity|]. cbn [withWorld world nodes clock handles w1].
  split; [done|]. split; [done|].
  intros h Hh. apply elem_of_List_filter in Hh as [Hh Hnot].
  apply negb_true_iff, bool_decide_eq_false in Hnot.
  apply elem_of_cons in Hh as [->|Hh]; [done|exact Hh].
Qed.

Lemma doPipeBufferedToUnbuffered_copies most ids capss idt capst source target
      (src : bytes) ms fuel (st : FileService World) :
  source <> target ->
  lookup source (world st) = Some (FileNode src ms) ->
  (forall m, lookup target (world st) <> Some (DirNode m)) ->
  (List.length src < fuel)%nat ->
  exists st',
    doPipeBufferedToUnbuffered fuel (ShortWrites.provider most ids capss) source
                               (ShortWrites.provider most idt capst) target st
    = Some (Return tt, st')
    /\ contentOf target (world st') = Some src
    /\ contentOf source (world st') = Some src
    /\ forall h, h ∈ handles (world st') -> h ∈ handles (world st).
Proof.
  intros Hne Hsource Htarget Hfuel. unfold doPipeBufferedToUnbuffered.
  destruct (readFileBuffered_reads most ids capss source src ms fuel st Hsource Hfuel)
    as (st1 & Hread & Hnodes & Hclock & Hhandles).
  rewrite bind_run, Hread.
  unfold doWriteUnbuffered, doWriteUnbufferedQueued, queue. rewrite call_run.
  cbn [ShortWrites.provider IFileSystemProvider.writeFile toBuffer].
  assert (Hlookup : forall v, lookup v (world st1) = lookup v (world st)).
  { intros v. unfold lookup. by rewrite Hnodes. }
  rewrite writeFile_stores by (intros m; rewrite Hlookup; apply Htarget).
  cbn [fst snd]. eexists. split; [reflexivity|]. cbn [withWorld world]. unfold contentOf.
  rewrite lookup_store, lookup_store_ne, Hlookup, Hsource by done.
  split; [done|]. split; [done|]. exact Hhandles.
Qed.

(** X22.  [doCopyFile] between two providers of one store, each with
    one of the read/write capabilities at least, where the target takes
    a few bytes per write: for a source that is a file and a target,
    another resource, that is no folder, whichever of the four pipes is
    chosen, [doCopyFile] returns, the target holds the bytes of the
    source and nothing else, the source is as it was, and no handle is
    left open that was not open before.  The pipe from a positional
    source to a target written at once reads through [createReadStream],
    which is the modelled one. *)
Theorem doCopyFile_copies most ids capss idt capst source target (src : bytes) ms fuel
        (st : FileService World) :
  0 < most -> source <> target ->
  hasCapabilityBit capss FileSystemProviderCapabilities.FileOpenReadWriteClose
  || hasCapabilityBit capss FileSystemProviderCapabilities.FileReadWrite = true ->
  hasCapabilityBit capst FileSystemProviderCapabilities.FileOpenReadWriteClose
  || hasCapabilityBit capst FileSystemProviderCapabilities.FileReadWrite = true ->
  lookup source (world st) = Some (FileNode src ms) ->
  (forall m, lookup target (world st) <> Some (DirNode m)) ->
  (List.length src < fuel)%nat ->
  exists st',
    doCopyFile fuel (ShortWrites.provider most ids capss) source
               (ShortWrites.provider most idt capst) target st
    = Some (Return tt, st')
    /\ contentOf target (world st') = Some src
    /\ contentOf source (world st') = Some src
    /\ forall h, h ∈ handles (world st') -> h ∈ handles (world st).
Proof.
  intros Hmost Hne Hcapss Hcapst Hsource Htarget Hfuel. unfold doCopyFile.
  rewrite bind_run, probe_run.
  unfold hasOpenReadWriteCloseCapability, hasReadWriteCapability.
  cbn [ShortWrites.provider IFileSystemProvider.capabilities].
  destruct (hasCapabilityBit capss FileSystemProviderCapabilities.FileOpenReadWriteClose)
    eqn:Hso;
    destruct (hasCapabilityBit capst FileSystemProviderCapabilities.FileOpenReadWriteClose)
      eqn:Hto;
    cbn [andb orb] in *.
  - by apply doPipeBufferedQueued_copies with ms.
  - rewrite bind_run, probe_run, Hcapst. cbn [andb].
    by apply doPipeBufferedToUnbuffered_copies with ms.
  - rewrite bind_run, probe_run. cbn [andb]. rewrite bind_run, probe_run, Hcapss.
    cbn [andb].
    apply doPipeUnbufferedToBufferedQueued_copies with ms; [done..|lia].
  - rewrite bind_run, probe_run. cbn [andb]. rewrite bind_run, probe_run, Hcapss.
    cbn [andb]. rewrite bind_run, probe_run, Hcapst. cbn [andb].
    by apply doPipeUnbufferedQueued_copies with ms.
Qed.
End ShortWritten.

Section WrittenFiles.
Import PosixResources.

(* the body of the try of writeFile, for a file that is there *)
Lemma writeFile_body most id capabilities u data (content : bytes) mtime fuel
      (st : FileService MemFS.World) :
  let p := ShortWrites.provider most id capabilities in
  0 < most ->
  hasCapabilityBit capabilities FileSystemProviderCapabilities.FileOpenReadWriteClose
  || hasCapabilityBit capabilities FileSystemProviderCapabilities.FileReadWrite = true ->
  MemFS.lookup u (world st) = Some (MemFS.FileNode content mtime) ->
  (forall chunk, chunk ∈ toChunks data -> (List.length chunk <= fuel)%nat) ->
  exists st',
    (stat ← validateWriteFile p u None;
     (if stat is None then mkdirp fuel p (dirname u) else mret tt);;
     rw ← probe (hasReadWriteCapability p);
     let bufferOrReadableOrStream :=
         if rw && negb (isBuffer data) then consumeWithLimit data 3 else data in
     unbuffered ← probe (fun w => negb (hasOpenReadWriteCloseCapability p w)
                                  || (hasReadWriteCapability p w
                                      && isBuffer bufferOrReadableOrStream));
     if unbuffered : bool
     then doWriteUnbuffered p u bufferOrReadableOrStream
     else doWriteBuffered fuel p u (toChunks bufferOrReadableOrStream)) st
    = Some (Return tt, st')
    /\ st' = withWorld (world st') st
    /\ ShortWrites.contentOf u (world st') = Some (toBuffer data).
Proof.
  intros p Hmost Hcaps Hfile Hfuel.
  assert (Hvalidate : exists stat,
             validateWriteFile p u None st = Some (Return (Some stat), withWorld (world st) st)).
  { unfold validateWriteFile. rewrite bind_run, tryCatch_run, bind_run, call_run.
    cbn [p ShortWrites.provider IFileSystemProvider.stat]. unfold MemFS.stat.
    rewrite Hfile. cbn [fst snd]. eexists. reflexivity. }
  destruct Hvalidate as [stat Hvalidate].
  rewrite bind_run, Hvalidate, bind_run, ret_run, bind_run, probe_run.
  cbn zeta. rewrite bind_run, probe_run. cbn [withWorld world].
  unfold hasReadWriteCapability, hasOpenReadWriteCloseCapability.
  cbn [p ShortWrites.provider IFileSystemProvider.capabilities].
  set (rw := hasCapabilityBit capabilities FileSystemProviderCapabilities.FileReadWrite) in *.
  set (orwc := hasCapabilityBit capabilities
                                FileSystemProviderCapabilities.FileOpenReadWriteClose) in *.
  set (data' := if rw && negb (isBuffer data) then consumeWithLimit data 3 else data).
  assert (Hdata : toBuffer data' = toBuffer data).
  { unfold data'. destruct (rw && negb (isBuffer data)); [|done].
    apply toBuffer_consumeWithLimit. }
  destruct (negb orwc || rw && isBuffer data') eqn:Hunbuffered.
  - unfold doWriteUnbuffered, doWriteUnbufferedQueued, queue. rewrite call_run.
    cbn [p ShortWrites.provider IFileSystemProvider.writeFile withWorld world].
    unfold MemFS.writeFile. rewrite Hfile. cbn [fst snd].
    eexists. split; [reflexivity|]. split; [reflexivity|].
    cbn [withWorld world]. unfold ShortWrites.contentOf. by rewrite lookup_store, Hdata.
  - assert (Hsame : data' = data).
    { unfold data' in *. destruct rw; cbn [andb] in *; [|done].
      destruct (isBuffer data) eqn:Hbuffer; cbn [negb] in *; [done|].
      apply consumeWithLimit_not_buffer.
      destruct orwc; cbn [negb orb] in Hunbuffered; [done|discriminate]. }
    rewrite Hsame.
    destruct (doWriteBuffered_short most id capabilities u (toChunks data) fuel
                (withWorld (world st) st) Hmost)
      as (st' & Hrun & Hcontent & _).
    { intros m. cbn [withWorld world]. rewrite Hfile. discriminate. }
    { exact Hfuel. }
    exists st'. split; [exact Hrun|]. split.
    + by rewrite (worldly_doWriteBuffered _ _ _ _ _ _ _ Hrun).
    + by rewrite Hcontent, concat_toChunks.
Qed.

(** X21.  [writeFile], end to end, against the same provider registered
    for the scheme of the resource, not read only and with one of the
    write capabilities, for a file that is there and without options:
    whatever the data is (a buffer, a readable or a stream, of few or
    of many chunks) and whichever way it is written (at once or by
    positions), [writeFile] returns, the file holds the bytes of the
    data and nothing else, and the stat that is returned is the one of
    a file of that size. *)
Theorem writeFile_writes_the_data most id capabilities u data (content : bytes) mtime fuel
        (st : FileService MemFS.World) :
  let p := ShortWrites.provider most id capabilities in
  0 < most ->
  isAbsolutePath u = true ->
  (forall providers, willActivate st (scheme u) providers = providers) ->
  provider st !! scheme u = Some p ->
  hasCapabilityBit capabilities FileSystemProviderCapabilities.Readonly = false ->
  hasCapabilityBit capabilities FileSystemProviderCapabilities.FileOpenReadWriteClose
  || hasCapabilityBit capabilities FileSystemProviderCapabilities.FileReadWrite = true ->
  MemFS.lookup u (world st) = Some (MemFS.FileNode content mtime) ->
  (forall chunk, chunk ∈ toChunks data -> (List.length chunk <= fuel)%nat) ->
  exists fileStat st',
    writeFile fuel u data None st = Some (Return fileStat, st')
    /\ ShortWrites.contentOf u (world st') = Some (toBuffer data)
    /\ IFileStat.size fileStat = Some (byteLength (toBuffer data))
    /\ IFileStat.isFile fileStat = true.
Proof.
  intros p Hmost Habs Hactivate Hp Hro Hcaps Hfile Hfuel. subst p.
  remember (mkFileService (world st) (provider st) (willActivate st) (afterOperation st))
    as st1 eqn:Hst1.
  assert (Hworld1 : world st1 = world st) by (by rewrite Hst1).
  assert (Hprovider1 : provider st1 = provider st) by (by rewrite Hst1).
  assert (Hactivate1 : willActivate st1 = willActivate st) by (by rewrite Hst1).
  assert (Hwp : forall w, withProvider u (withWorld w st1)
                          = Some (Return (ShortWrites.provider most id capabilities),
                                  withWorld w st1)).
  { intros w. rewrite Hst1, withProvider_run, Habs. cbn zeta.
    cbn [withWorld provider willActivate world afterOperation].
    by rewrite Hactivate, Hp. }
  assert (Hst : withProvider u st
                = Some (Return (ShortWrites.provider most id capabilities), st1)).
  { rewrite withProvider_run, Habs. cbn zeta. cbn [provider].
    by rewrite Hactivate, Hp, Hst1. }
  rewrite <- Hworld1 in Hfile.
  destruct (writeFile_body most id capabilities u data content mtime fuel st1
              Hmost Hcaps Hfile Hfuel) as (st2 & Hbody & Hworldly & Hcontent).
  apply contentOf_Some in Hcontent as Hfile2. destruct Hfile2 as [mtime2 Hfile2].
  exists (convertToFileStat u (IStat.mk FileType.File (Some mtime2) (Some 0)
                                        (Some (byteLength (toBuffer data))))), st2.
  split; [|by split].
  unfold writeFile. rewrite bind_run, withWriteProvider_run, Hst.
  unfold hasOpenReadWriteCloseCapability, hasReadWriteCapability.
  cbn [ShortWrites.provider IFileSystemProvider.capabilities]. rewrite Hcaps.
  rewrite bind_run, throwIfFileSystemIsReadonly_run.
  cbn [ShortWrites.provider IFileSystemProvider.capabilities]. rewrite Hro.
  rewrite bind_run, tryCatch_run.
  unfold hasOpenReadWriteCloseCapability, hasReadWriteCapability in Hbody.
  rewrite Hbody.
  unfold resolve. rewrite tryCatch_run. unfold doResolveFile.
  rewrite Hworldly, bind_run, Hwp, bind_run, call_run.
  cbn [ShortWrites.provider IFileSystemProvider.stat withWorld world].
  unfold MemFS.stat. rewrite Hfile2. cbn [fst snd]. rewrite toFileStat_run.
  reflexivity.
Qed.
End WrittenFiles.

Section ShortWrittenRuns.
Import PosixResources MemFS ShortWrites Fixture.

(** X19 and X20, at an input: a provider that takes two bytes at a
    time, and the file [mem:///a/b.txt], which holds "hello".  The
    range "cde" of "abcdef" is written at position 1; then the file is
    written anew, in two chunks. *)
Lemma doWriteBuffer_writes_the_range_witness :
  let p := ShortWrites.provider 2 9 FileSystemProviderCapabilities.FileOpenReadWriteClose in
  let opened := withWorld (mkWorld (nodes (world st0)) [(0, b_txt)] 1000 []) st0 in
  exists st',
    doWriteBuffer 3 p 0 (text "abcdef") 3 1 2 opened = Some (Return tt, st')
    /\ contentOf b_txt (world st') = Some (text "hcdeo").
Proof.
  intros p opened.
  apply (doWriteBuffer_writes_the_range 2 9 _ 0 b_txt (text "abcdef") (text "hello")
                                        3 1 2 2000 3 opened);
    first [reflexivity | vm_compute; lia | done | vm_compute; intuition discriminate].
Defined.

Lemma doWriteBuffered_writes_the_chunks_witness :
  let p := ShortWrites.provider 2 9 FileSystemProviderCapabilities.FileOpenReadWriteClose in
  exists st',
    doWriteBuffered 4 p b_txt [text "se"; text "cond"] st0 = Some (Return tt, st')
    /\ contentOf b_txt (world st') = Some (text "second")
    /\ resourceOf 0 (world st') = None.
Proof.
  intros p.
  apply (doWriteBuffered_writes_the_chunks 2 9 _ b_txt [text "se"; text "cond"] 4 st0).
  - reflexivity.
  - intros mtime. vm_compute. discriminate.
  - intros chunk Hin. repeat (apply elem_of_cons in Hin as [->|Hin]; [vm_compute; lia|]).
    destruct (proj1 (elem_of_nil chunk) Hin).
Defined.

(** X22, at an input: the file [mem:///a/b.txt], read by positions, is
    copied to [mem:///a/c.txt], which is not there and is written at
    once. *)
Lemma doCopyFile_copies_witness :
  let sp := ShortWrites.provider 2 9 FileSystemProviderCapabilities.FileOpenReadWriteClose in
  let tp := ShortWrites.provider 2 10 FileSystemProviderCapabilities.FileReadWrite in
  let c_txt := uri "mem" "/a/c.txt" in
  exists st',
    doCopyFile 6 sp b_txt tp c_txt st0 = Some (Return tt, st')
    /\ contentOf c_txt (world st') = Some (text "hello")
    /\ contentOf b_txt (world st') = Some (text "hello")
    /\ forall h, h ∈ handles (world st') -> h ∈ handles (world st0).
Proof.
  intros sp tp c_txt.
  apply (doCopyFile_copies 2 9 _ 10 _ b_txt c_txt (text "hello") 2000 6 st0);
    first [reflexivity | vm_compute; lia | done
          | intros m; vm_compute; discriminate].
Defined.
End ShortWrittenRuns.

Section WrittenFilesRuns.
Import PosixResources Slow.

(** X21, at inputs: a stream of four chunks, which is written by
    positions, and a readable of two, which is written at once. *)
Lemma writeFile_writes_the_data_witness :
  (exists fileStat st',
      writeFile 3 log_txt four None st0 = Some (Return fileStat, st')
      /\ ShortWrites.contentOf log_txt (world st') = Some (Fixture.text "abcdefgh")
      /\ IFileStat.size fileStat = Some 8
      /\ IFileStat.isFile fileStat = true)
  /\ (exists fileStat st',
         writeFile 3 log_txt two None st0 = Some (Return fileStat, st')
         /\ ShortWrites.contentOf log_txt (world st') = Some (Fixture.text "abcde")
         /\ IFileStat.size fileStat = Some 5
         /\ IFileStat.isFile fileStat = true).
Proof.
  assert (Hchunks : forall data : WriteData,
             data = four \/ data = two ->
             forall chunk, chunk ∈ toChunks data -> (List.length chunk <= 3)%nat).
  { intros data [->| ->] chunk Hin; cbn [toChunks four two] in Hin;
      repeat (apply elem_of_cons in Hin as [->|Hin]; [vm_compute; lia|]);
      destruct (proj1 (elem_of_nil chunk) Hin). }
  split.
  - apply (writeFile_writes_the_data 2 5 capabilities log_txt four (Fixture.text "old content") 1 3 st0);
      first [reflexivity | done | apply Hchunks; by left].
  - apply (writeFile_writes_the_data 2 5 capabilities log_txt two (Fixture.text "old content") 1 3 st0);
      first [reflexivity | done | apply Hchunks; by right].
Defined.
End WrittenFilesRuns.
(** ** The writes of a key, one after the other *)

Section MoreFuel.
Context {W : Type} `{Resources} `{Files}.
Implicit Types (p : Provider W) (st : FileService W).



End MoreFuel.

Section LastSubmitted.
Import Async WriteQueue.
Context {W : Type}.
Implicit Types (st : State W) (key : string) (w : W).


End LastSubmitted.

Section SerializedWrites.
Import PosixResources MemFS ShortWrites.




End SerializedWrites.

Section SerializedRuns.
Import PosixResources MemFS ShortWrites WriteFixture.


End SerializedRuns.
